(** * markup_tool.py: record filter, classifier, job hulls, overlay merge

    A shallow embedding of [src/markup_tool.py] and the properties of its
    record-classification and spatial-aggregation pipeline.

    Conventions of the embedding.
    - A coordinate is a finite binary64 number (a Python [float]), held
      as the whole number of times it contains 2^-1074, of which every
      finite binary64 number is a multiple; comparison and equality of
      coordinates are then those of [Z]. Inside [cross] the two
      differences, the two products and the last difference are each
      rounded as IEEE 754 has it (to nearest, ties to even, with
      overflow to an infinity and NaN for a difference of infinities),
      by the [SpecFloat] functions of the Standard Library. The exact
      cross product is kept apart, in [GeometrySpec], and a property
      that holds only where the rounded cross product has the sign of
      the exact one says so with the hypothesis [exact_signs].
    - The latitude and longitude columns are numeric, as [read_excel]
      gives them for numeric cells: a cell is missing or a finite
      binary64 number, which [float()] and [astype(float)] return as it
      is.
    - A Python [str] is a [string]; the character classes of [re] and of
      [str.strip]/[str.lower] are the ASCII ones.
    - A Python [list] used as a stack ([lower], [upper]) is a [list] whose
      head is the top of the stack (the last element of the Python list).
    - [set] is [gset], [dict] is [gmap]; the order in which Python walks a
      [set] is not modelled and no result depends on it, except the order
      of the names in one message of [on_generate].
    - A data frame is the list of its rows; a cell is missing ([NaN]) or
      has a value, which is kept as the text [str] gives for it.
    - [build_map] ends with an exception or with the scene it saves.
      The exceptions are those of [folium.Map] on a frame without rows
      (line 78), of [hull[0]] on an empty hull (line 183) and of the
      style function of the imported layer when the map is written
      (line 421); folium calls the style function on every feature of a
      layer when the layer is rendered, not when it is made. Reading the
      markup file is a parameter that yields the exception caught by
      the [try] of lines 246-271, or the features read. The other calls
      into folium, tkinter and the file system are taken to return. *)

From Stdlib Require Import ZArith Lia Ascii.
From Stdlib Require SpecFloat.
From stdpp Require Import base decidable list sorting gmap strings.

Local Open Scope Z_scope.

(** ** Geometry kernel: [convex_hull] *)

Module Geometry.

(** A coordinate is a finite binary64 number, held as the whole number
    of times it contains 2^-1074, the least positive binary64 number, of
    which every finite binary64 number is a multiple. Order and equality
    of the numbers are those of [Z], and [0.0] and [-0.0], equal in
    Python, are one coordinate. *)
Definition point : Type := (Z * Z)%type.

(** The binary64 number of a coordinate, as IEEE 754 arithmetic has it. *)
Definition binary64 (k : Z) : SpecFloat.spec_float :=
  SpecFloat.binary_normalize 53 1024 k (-1074) false.

(** [x - y] and [x * y] of Python floats: the result is rounded to the
    nearest binary64 number, to the even one of two nearest. *)
Definition fsub : SpecFloat.spec_float → SpecFloat.spec_float → SpecFloat.spec_float :=
  SpecFloat.SFsub 53 1024.
Definition fmul : SpecFloat.spec_float → SpecFloat.spec_float → SpecFloat.spec_float :=
  SpecFloat.SFmul 53 1024.

(** [cross(o,a,b)], the nested function of [convex_hull] (lines 37-38),
    on the floats that line 179 hands to [convex_hull]. *)
Definition cross (o a b : point) : SpecFloat.spec_float :=
  fsub (fmul (fsub (binary64 a.1) (binary64 o.1))
             (fsub (binary64 b.2) (binary64 o.2)))
       (fmul (fsub (binary64 a.2) (binary64 o.2))
             (fsub (binary64 b.1) (binary64 o.1))).

(** [x <= 0] *)
Definition le0 (x : SpecFloat.spec_float) : bool :=
  SpecFloat.SFleb x (SpecFloat.S754_zero false).

(** The order of Python tuples: lexicographic. *)
Definition point_lt (a b : point) : Prop :=
  a.1 < b.1 ∨ (a.1 = b.1 ∧ a.2 < b.2).

Definition point_le (a b : point) : Prop :=
  a.1 < b.1 ∨ (a.1 = b.1 ∧ a.2 ≤ b.2).

#[global] Instance point_lt_dec (a b : point) : Decision (point_lt a b).
Proof. unfold point_lt. apply _. Defined.

#[global] Instance point_le_dec (a b : point) : Decision (point_le a b).
Proof. unfold point_le. apply _. Defined.

(** [sorted(set(points))] (line 34). *)
Definition sorted_set (points : list point) : list point :=
  merge_sort point_le (elements (list_to_set points : gset point)).

(** [while len(st)>=2 and cross(st[-2],st[-1],p)<=0: st.pop()] (lines
    41-42 and 45-46); the head of [st] is [st[-1]]. *)
Fixpoint pop_while (st : list point) (p : point) : list point :=
  match st with
  | b :: ((a :: _) as st') =>
      if le0 (cross a b p) then pop_while st' p else st
  | _ => st
  end.

(** One iteration of [for p in pts: while ...: pop(); append(p)]. *)
Definition push_point (st : list point) (p : point) : list point :=
  p :: pop_while st p.

(** The whole loop, started from the empty stack; the result is the
    stack, top first. *)
Definition chain_stack (pts : list point) : list point :=
  foldl push_point [] pts.

(** The Python list built by the loop, in Python order. *)
Definition chain (pts : list point) : list point :=
  reverse (chain_stack pts).

(** [l[:-1]]. *)
Definition drop_last {A} (l : list A) : list A :=
  take (length l - 1)%nat l.

(** [convex_hull] (lines 33-48). *)
Definition convex_hull (points : list point) : list point :=
  let pts := sorted_set points in
  if bool_decide (length pts < 3)%nat then pts
  else
    let lower := chain pts in
    let upper := chain (reverse pts) in
    drop_last lower ++ drop_last upper.

End Geometry.

Import Geometry.

(** ** Strings: [str] methods and the regular expressions of the filter *)

Module Text.

Definition code (c : ascii) : nat := nat_of_ascii c.

Definition between (lo hi : nat) (c : ascii) : bool :=
  (lo <=? code c)%nat && (code c <=? hi)%nat.

Definition is_upper (c : ascii) : bool := between 65 90 c.
Definition is_lower (c : ascii) : bool := between 97 122 c.
(** [\d] *)
Definition is_digit (c : ascii) : bool := between 48 57 c.
(** [\w] *)
Definition is_word (c : ascii) : bool :=
  is_upper c || is_lower c || is_digit c || bool_decide (code c = 95%nat).
(** [\s], and the characters removed by [str.strip()] *)
Definition is_space (c : ascii) : bool := between 9 13 c || between 28 32 c.

Definition lower_ascii (c : ascii) : ascii :=
  if is_upper c then ascii_of_nat (code c + 32) else c.

(** [s.lower()] *)
Fixpoint lower (s : string) : string :=
  match s with
  | EmptyString => EmptyString
  | String c t => String (lower_ascii c) (lower t)
  end.

Fixpoint lstrip (s : string) : string :=
  match s with
  | EmptyString => EmptyString
  | String c t => if is_space c then lstrip t else s
  end.

Fixpoint rstrip (s : string) : string :=
  match s with
  | EmptyString => EmptyString
  | String c t =>
      match rstrip t with
      | EmptyString => if is_space c then EmptyString else String c EmptyString
      | t' => String c t'
      end
  end.

(** [s.strip()] *)
Definition strip (s : string) : string := rstrip (lstrip s).

(** The truth value of a string: it is not empty. *)
Definition nonempty (s : string) : bool :=
  match s with EmptyString => false | String _ _ => true end.

(** [sep.join(l)] *)
Fixpoint join (sep : string) (l : list string) : string :=
  match l with
  | [] => ""
  | [x] => x
  | x :: t => x +:+ sep +:+ join sep t
  end.

(** [s.startswith(tok)]; [Some rest] when [s] is [tok] followed by
    [rest]. *)
Fixpoint strip_prefix (tok s : string) : option string :=
  match tok with
  | EmptyString => Some s
  | String t tok' =>
      match s with
      | String c s' => if bool_decide (t = c) then strip_prefix tok' s' else None
      | EmptyString => None
      end
  end.

Definition startswith (tok s : string) : bool :=
  bool_decide (is_Some (strip_prefix tok s)).

(** [tok in s] *)
Fixpoint contains (tok s : string) : bool :=
  startswith tok s ||
  match s with
  | EmptyString => false
  | String _ t => contains tok t
  end.

(** *** Matching, the way [re] does it

    A matcher is tried at a position of the subject: it sees the
    character before the position ([None] at the start) and the rest of
    the subject from the position on, and answers with what is left
    after the match. *)
Definition matcher : Type := option ascii → string → option string.

Definition head_char (s : string) : option ascii :=
  match s with EmptyString => None | String c _ => Some c end.

Definition word_opt (c : option ascii) : bool :=
  match c with Some c => is_word c | None => false end.

(** [\b] between two characters *)
Definition boundary (prev next : option ascii) : bool :=
  xorb (word_opt prev) (word_opt next).

(** The literal [tok] under [re.IGNORECASE]: the last character consumed
    (or [prev] when nothing was) and the rest. *)
Fixpoint literal_ci (tok s : string) (prev : option ascii)
  : option (option ascii * string) :=
  match tok with
  | EmptyString => Some (prev, s)
  | String t tok' =>
      match s with
      | String c s' =>
          if bool_decide (lower_ascii t = lower_ascii c)
          then literal_ci tok' s' (Some c) else None
      | EmptyString => None
      end
  end.

(** [tok] with [re.IGNORECASE] *)
Definition plain_ci (tok : string) : matcher := λ prev s,
  snd <$> literal_ci tok s prev.

(** [\btok\b] with [re.IGNORECASE] *)
Definition word_token (tok : string) : matcher := λ prev s,
  if boundary prev (head_char s) then
    match literal_ci tok s prev with
    | Some (last, rest) =>
        if boundary last (head_char rest) then Some rest else None
    | None => None
    end
  else None.

(** [\s*m]: the greedy star takes a space first and gives it back when
    the rest does not match. *)
Fixpoint spaces_then (m : matcher) (prev : option ascii) (s : string)
  : option string :=
  match s with
  | String c t =>
      if is_space c then
        match spaces_then m (Some c) t with
        | Some rest => Some rest
        | None => m prev s
        end
      else m prev s
  | EmptyString => m prev s
  end.

(** [m1|m2] *)
Definition alt (m1 m2 : matcher) : matcher := λ prev s,
  match m1 prev s with Some rest => Some rest | None => m2 prev s end.

(** [re.search]: is there a position where [m] matches? *)
Fixpoint search_from (m : matcher) (prev : option ascii) (s : string) : bool :=
  bool_decide (is_Some (m prev s)) ||
  match s with
  | EmptyString => false
  | String c t => search_from m (Some c) t
  end.

Definition search (m : matcher) (s : string) : bool := search_from m None s.

(** [re.sub(m, '', s)] for a matcher that consumes at least one
    character: the leftmost match is removed and the scan goes on after
    it; [skip] counts the characters of the current match still to be
    dropped. *)
Fixpoint delete_from (m : matcher) (skip : nat) (prev : option ascii)
    (s : string) : string :=
  match s with
  | EmptyString => EmptyString
  | String c t =>
      match skip with
      | S k => delete_from m k (Some c) t
      | O =>
          match m prev s with
          | Some rest =>
              delete_from m (String.length s - String.length rest - 1)
                (Some c) t
          | None => String c (delete_from m 0 (Some c) t)
          end
      end
  end.

Definition delete_all (m : matcher) (s : string) : string :=
  delete_from m 0 None s.

(** [re.match(r'^\d+$', s)]: after the first digit, digits up to the end
    of the string or up to a newline that ends it. *)
Fixpoint digits_to_end (s : string) : bool :=
  match s with
  | EmptyString => true
  | String c t =>
      if is_digit c then digits_to_end t
      else bool_decide (code c = 10%nat) && negb (nonempty t)
  end.

Definition all_digits (s : string) : bool :=
  match s with
  | EmptyString => false
  | String c t => is_digit c && digits_to_end t
  end.

End Text.

(** ** The pipeline of [build_map] *)

Module Pipeline.

Import Text.

(** *** Configuration *)

Definition STYLE_COLORS : gmap string string :=
  list_to_map
    [("No MR", "green"); ("Comm MR", "yellow");
     ("Simple Power MR", "orange"); ("Complex Power MR", "red");
     ("Deferred", "gray"); ("Cannot Attach", "black")].
Definition MISSING_COLOR : string := "purple".
Definition WARNING_COLOR : string := "aqua".
Definition PALETTE : list string :=
  ["blue"; "darkblue"; "teal"; "navy"; "magenta"; "lime"].
Definition MULTI_COMP_COLOR : string := "red".

(** *** Rows *)

(** A cell of the data frame: missing ([NaN]) or a value, kept as the
    text that [str] gives for it. *)
Inductive cell : Type :=
| NaN
| Text (s : string).

#[global] Instance cell_eq_dec : EqDecision cell.
Proof. solve_decision. Defined.

(** [str(v)] *)
Definition py_str (c : cell) : string :=
  match c with NaN => "nan" | Text s => s end.

(** [pd.notna(v)] *)
Definition notna (c : cell) : bool :=
  match c with NaN => false | Text _ => true end.

(** [fillna('')] followed by [astype(str)] *)
Definition fillna_str (c : cell) : string :=
  match c with NaN => "" | Text s => s end.

(** One row; the cells of a column group are in the order of the
    group's columns. [latitude] and [longitude] are cells of numeric
    columns: [None] is a missing cell, [Some k] the binary64 number
    k * 2^-1074. *)
Record row : Type := {
  job_name : cell;
  node_type : cell;
  scid : cell;
  latitude : option Z;
  longitude : option Z;
  level_cells : list cell;
  cost_cells : list cell;
  warning_cells : list cell;
  company_cells : list cell
}.

Inductive view_mode : Type := MR | Utility.

(** *** Record filter (the head of [build_map]) *)

(** [str.contains(pattern, case=False, na=False)] on the job name. *)
Definition job_contains (m : matcher) (r : row) : bool :=
  match job_name r with
  | Text s => search m s
  | NaN => false
  end.

(** Line 53. *)
Definition is_copy (r : row) : bool := job_contains (plain_ci "copy") r.

(** Line 54: [astype(str).str.lower() == 'pole']. *)
Definition is_pole (r : row) : bool :=
  bool_decide (lower (py_str (node_type r)) = "pole").

(** Line 55: the row is kept by [dropna]. *)
Definition has_position (r : row) : bool :=
  bool_decide (is_Some (latitude r)) && bool_decide (is_Some (longitude r)).

(** Line 56: [astype(str).str.match(r'^\d+$', na=False)]. *)
Definition scid_is_number (r : row) : bool := all_digits (py_str (scid r)).

(** Lines 53-56. *)
Definition basic_filter (df : list row) : list row :=
  let df := filter (λ r, negb (is_copy r)) df in
  let df := filter (λ r, is_pole r) df in
  let df := filter (λ r, has_position r) df in
  filter (λ r, scid_is_number r) df.

(** [str.contains(r'\bPLA\b', case=False, regex=True, na=False)] *)
Definition is_pla (r : row) : bool := job_contains (word_token "PLA") r.

(** [str.replace(r'\s*\bPLA\b', '', case=False, regex=True)]; a missing
    name stays missing. *)
Definition base_job (r : row) : cell :=
  match job_name r with
  | Text s => Text (delete_all (spaces_then (word_token "PLA")) s)
  | NaN => NaN
  end.

(** Lines 58-66: in Utility mode [has_pla] holds the base names of the
    PLA rows and a row is kept when [(mask_pla & mask_is_pla) | ~mask_pla];
    in the other mode the PLA rows are dropped. *)
Definition pla_filter (mode : view_mode) (df : list row) : list row :=
  match mode with
  | Utility =>
      let has_pla := remove_dups (base_job <$> filter (λ r, is_pla r) df) in
      let mask_pla r := bool_decide (base_job r ∈ has_pla) in
      filter (λ r, (mask_pla r && is_pla r) || negb (mask_pla r)) df
  | MR => filter (λ r, negb (is_pla r)) df
  end.

(** [any(re.search(r'\bAT&T\b|\bCharter\b', cell, re.IGNORECASE) ...)] *)
Definition excluded_company (r : row) : bool :=
  existsb
    (λ c, search (alt (word_token "AT&T") (word_token "Charter"))
            (fillna_str c))
    (company_cells r).

(** Lines 68-74. *)
Definition company_filter (mode : view_mode) (df : list row) : list row :=
  match mode with
  | Utility => filter (λ r, negb (excluded_company r)) df
  | MR => df
  end.

(** The rows that [build_map] goes on with (lines 53-74). *)
Definition record_filter (mode : view_mode) (df : list row) : list row :=
  company_filter mode (pla_filter mode (basic_filter df)).

(** *** Company colours *)

(** [canon] (lines 85-89). *)
Definition canon (v : string) : string :=
  let v := strip v in
  if bool_decide (lower v ∈ ["magic valley elec coop";
                             "magic valley electric coop"])
  then "Magic Valley Electric Coop" else v.

(** The names collected by the double loop over rows and company
    columns (lines 90-95): a cell counts when its stripped text is not
    empty and is not "nan" in any letter case. *)
Definition row_comps (r : row) : list string :=
  flat_map
    (λ c, let v := strip (py_str c) in
          if nonempty v && negb (bool_decide (lower v = "nan"))
          then [canon v] else [])
    (company_cells r).

Definition comps (df : list row) : list string := flat_map row_comps df.

(** [sorted(set(comps))] (line 96) *)
Definition uniq (df : list row) : list string :=
  merge_sort String.le (elements (list_to_set (comps df) : gset string)).

(** The initial [comp_color] (lines 97-102). *)
Definition known_colors : gmap string string :=
  list_to_map
    [("Magic Valley Electric Coop", "#98ff98"); ("AEP", "orange");
     ("Brownsville Public Utilities", "aqua");
     ("Central Bradford PA", "yellow")].

(** [PALETTE[idx % len(PALETTE)]] *)
Definition palette_at (idx : nat) : string :=
  nth (idx mod length PALETTE) PALETTE "".

(** The body of [for comp in uniq] (lines 104-107), on the pair of
    [comp_color] and [idx]. *)
Definition assign_color (st : gmap string string * nat) (comp : string)
  : gmap string string * nat :=
  let '(comp_color, idx) := st in
  match comp_color !! comp with
  | Some _ => (comp_color, idx)
  | None => (<[comp := palette_at idx]> comp_color, S idx)
  end.

Definition build_comp_color (df : list row) : gmap string string :=
  (foldl assign_color (known_colors, 0%nat) (uniq df)).1.

(** *** Classifier (the marker loop) *)

(** [pd.notna(v) and str(v).strip()] *)
Definition present (c : cell) : bool :=
  notna c && nonempty (strip (py_str c)).

(** [first_val] (lines 109-114). *)
Definition first_val (cells : list cell) : string :=
  match filter (λ c, present c) cells with
  | c :: _ => py_str c
  | [] => ""
  end.

(** Line 120. *)
Definition raw_comps (r : row) : list string :=
  py_str <$> filter (λ c, present c) (company_cells r).

(** Lines 122-125. *)
Definition companies (mode : view_mode) (r : row) : list string :=
  match mode with
  | MR => take 1 (raw_comps r)
  | Utility => canon <$> raw_comps r
  end.

(** The branch of the marker loop taken for a row (lines 127-175), under
    the names the specification gives to the branches. *)
Inductive category : Type :=
| StyledLevel (level : string)
| MissingLevel
| Warning
| SingleCompany (name : string)
| MultiCompany
| NoCompany.

(** MR: [if warnings] (line 135), else the style of the level (line 143).
    Utility: [len(companies) > 1] (line 154), [len(companies) == 1] (line
    160), else (line 167). *)
Definition classify (mode : view_mode) (r : row) : category :=
  match mode with
  | MR =>
      if bool_decide (filter (λ c, present c) (warning_cells r) ≠ [])
      then Warning
      else
        let lvl := first_val (level_cells r) in
        match STYLE_COLORS !! lvl with
        | Some _ => StyledLevel lvl
        | None => MissingLevel
        end
  | Utility =>
      match companies Utility r with
      | _ :: _ :: _ => MultiCompany
      | [name] => SingleCompany name
      | [] => NoCompany
      end
  end.

(** The colour of a branch (lines 139, 143, 157, 161); the glyph of
    [NoCompany] has none. *)
Definition category_color (comp_color : gmap string string) (c : category)
  : option string :=
  match c with
  | StyledLevel lvl => Some (default MISSING_COLOR (STYLE_COLORS !! lvl))
  | MissingLevel => Some MISSING_COLOR
  | Warning => Some WARNING_COLOR
  | SingleCompany name => Some (default (palette_at 0) (comp_color !! name))
  | MultiCompany => Some MULTI_COMP_COLOR
  | NoCompany => None
  end.

Inductive shape : Type := Circle | Square | Glyph.

Definition category_shape (c : category) : shape :=
  match c with
  | Warning | MultiCompany => Square
  | NoCompany => Glyph
  | _ => Circle
  end.

Definition or_none (s : string) : string :=
  if nonempty s then s else "<i>None</i>".

Definition tooltip (mode : view_mode) (r : row) : string :=
  match mode with
  | MR =>
      let warnings := py_str <$> filter (λ c, present c) (warning_cells r) in
      "<b>SCID:</b> " +:+ py_str (scid r) +:+ "<br>"
      +:+ "<b>MR Level:</b> " +:+ or_none (first_val (level_cells r)) +:+ "<br>"
      +:+ "<b>Cost:</b> " +:+ or_none (first_val (cost_cells r))
      +:+ (match warnings with
           | [] => ""
           | _ => "<br><b>Warnings:</b> " +:+ join "; " warnings
           end)
  | Utility =>
      "<b>SCID:</b> " +:+ py_str (scid r) +:+ "<br>"
      +:+ "<b>Companies:</b> " +:+ or_none (join ", " (companies Utility r))
  end.

(** [(float(row['longitude']), float(row['latitude']))] (line 179) of
    a row that has both: [float] returns a binary64 number as it is.
    The rows that reach line 179 have both ([dropna], line 55). *)
Definition lon_lat (r : row) : point :=
  (default 0 (longitude r), default 0 (latitude r)).

Record marker : Type := {
  m_location : Z * Z;
  m_category : category;
  m_shape : shape;
  m_color : option string;
  m_tooltip : string;
  m_popup : option cell
}.

Definition make_marker (mode : view_mode) (comp_color : gmap string string)
    (r : row) : marker :=
  let c := classify mode r in
  {| m_location := (default 0 (latitude r), default 0 (longitude r));
     m_category := c;
     m_shape := category_shape c;
     m_color := category_color comp_color c;
     m_tooltip := tooltip mode r;
     m_popup := match mode with MR => Some (job_name r) | Utility => None end |}.

(** *** Job aggregator (the hull loop, lines 177-197) *)

Record hull_feature : Type := {
  label : string;
  ring : list point
}.

Definition job_text (r : row) : option string :=
  match job_name r with Text s => Some s | NaN => None end.

(** The keys of [df.groupby('job_name')]: the names present, ascending;
    rows without a name are in no group. *)
Definition job_names (df : list row) : list string :=
  merge_sort String.le (elements (list_to_set (omap job_text df) : gset string)).

Definition group (df : list row) (job : string) : list row :=
  filter (λ r, job_name r = Text job) df.

(** [hull.append(hull[0])]; [None] is the [IndexError] of an empty
    [hull]. *)
Definition close_ring (hull : list point) : option (list point) :=
  match hull with
  | [] => None
  | h0 :: _ => Some (hull ++ [h0])
  end.

(** The body of the loop for one group (lines 179-197): nothing
    ([if len(pts) < 3: continue]) or one feature. *)
Definition job_hull (df : list row) (job : string)
  : option (list hull_feature) :=
  let pts := lon_lat <$> group df job in
  if bool_decide (length pts < 3)%nat then Some []
  else
    ring ← close_ring (convex_hull pts);
    Some [ {| label := job; ring := ring |} ].

Definition hull_features (df : list row) : option (list hull_feature) :=
  mjoin <$> mapM (job_hull df) (job_names df).

(** *** Overlay merge and the scene *)

(** A feature of the imported document, as far as the code looks at it:
    its ['properties'] member, [None] when the feature has none or has
    [null] there, else the entries the style reads, as text. *)
Record overlay_feature : Type := {
  properties : option (gmap string string)
}.

(** The [style_function] of the imported layer (lines 252-257):
    [feat['properties'].get('color', 'blue')] and
    [feat['properties'].get('opacity', 0.95)]. [None] is the exception
    that [feat['properties']] or [.get] raises for a feature without
    properties. *)
Definition overlay_style (f : overlay_feature) : option (string * string) :=
  p ← properties f;
  Some (default "blue" (p !! "color"), default "0.95" (p !! "opacity")).

(** What the statements inside [try] yield (lines 246-269): an
    exception (of [open], of [json.load] or of the constructor of
    [GeoJson]), or the features of the layer that was added. *)
Inductive markup_result : Type :=
| MarkupError (e : string)
| MarkupLoaded (features : list overlay_feature).

Record scene : Type := {
  markers : list marker;
  hulls : list hull_feature;
  overlays : list overlay_feature;
  warnings_shown : list (string * string)
}.

(** [if markup_path: try: ... except Exception as e: showwarning(...)]
    (lines 245-271); an empty path counts as no path. *)
Definition merge_markup (read_markup : string → markup_result)
    (markup_path : option string) (s : scene) : scene :=
  match markup_path with
  | Some path =>
      if nonempty path then
        match read_markup path with
        | MarkupLoaded fs =>
            {| markers := markers s; hulls := hulls s;
               overlays := overlays s ++ fs;
               warnings_shown := warnings_shown s |}
        | MarkupError e =>
            {| markers := markers s; hulls := hulls s;
               overlays := overlays s;
               warnings_shown :=
                 warnings_shown s
                 ++ [("Markup Error",
                      "Could not load markup file:" +:+ String "010" "" +:+ e)] |}
        end
      else s
  | None => s
  end.

(** Where [build_map] raises. *)
Inductive raised : Type :=
| EmptyFrame
| EmptyHull
| OverlayStyle.

(** How [build_map] ends: with an exception, or with the scene that is
    saved. *)
Inductive built : Type :=
| Raised (e : raised)
| Saved (s : scene).

(** [m.save(out_html)] (line 421) renders the layers, and the imported
    layer calls its style function on each of its features then: the
    save goes through when every imported feature has a style. The
    style function of the hull layer (lines 203-208) reads the
    properties that lines 184-191 give every hull feature. *)
Definition renders (s : scene) : bool :=
  forallb (λ f, bool_decide (is_Some (overlay_style f))) (overlays s).

(** [build_map]. It raises [EmptyFrame] at line 78, where [folium.Map]
    refuses the centre of a frame without rows (the mean of no number
    is NaN); [EmptyHull] at line 183, should [hull[0]] meet an empty
    hull; [OverlayStyle] at line 421, outside the [try] of the overlay
    merge. In MR mode there is no colour table. *)
Definition build_map (read_markup : string → markup_result)
    (df : list row) (mode : view_mode) (markup_path : option string)
  : built :=
  let df := record_filter mode df in
  if bool_decide (df = []) then Raised EmptyFrame
  else
    let comp_color :=
      match mode with Utility => build_comp_color df | MR => ∅ end in
    let ms := make_marker mode comp_color <$> df in
    match hull_features df with
    | None => Raised EmptyHull
    | Some hs =>
        let s := merge_markup read_markup markup_path
                   {| markers := ms; hulls := hs; overlays := [];
                      warnings_shown := [] |} in
        if renders s then Saved s else Raised OverlayStyle
    end.

(** *** Column checks of [on_generate] (lines 441-457) *)

Definition base : gset string :=
  list_to_set ["job_name"; "latitude"; "longitude"; "node_type"; "scid"].

Record column_groups : Type := {
  level_cols : list string;
  cost_cols : list string;
  warning_cols : list string;
  company_cols : list string
}.

Inductive outcome : Type :=
| ShowError (title message : string)
| CallBuildMap (cols : column_groups).

(** The comprehensions that pick the column groups by name. *)
Definition find_level_cols (columns : list string) : list string :=
  filter (λ c, startswith "mr_level" (lower c)) columns.
Definition find_cost_cols (columns : list string) : list string :=
  filter (λ c, contains "mr_cost" (lower c)) columns.
Definition find_warning_cols (columns : list string) : list string :=
  filter (λ c, contains "warning" (lower c)) columns.
Definition find_company_cols (columns : list string) : list string :=
  filter (λ c, contains "company" (lower c)) columns.

(** [on_generate] once the sheet is read: the checks on its columns,
    then the call of [build_map]. *)
Definition on_generate (columns : list string) : outcome :=
  if bool_decide (base ⊆ list_to_set columns) then
    let level_cols := find_level_cols columns in
    let cost_cols := find_cost_cols columns in
    let warning_cols := find_warning_cols columns in
    let company_cols := find_company_cols columns in
    if bool_decide (level_cols = []) || bool_decide (cost_cols = []) then
      ShowError "Missing MR cols" "Need MR_level* and MR_cost* cols"
    else if bool_decide (company_cols = []) then
      ShowError "Missing Company cols" "No company columns found"
    else
      CallBuildMap {| level_cols := level_cols; cost_cols := cost_cols;
                      warning_cols := warning_cols;
                      company_cols := company_cols |}
  else
    ShowError "Missing Columns" ("Need: " +:+ join ", " (elements base)).

End Pipeline.

(** ** Specification predicates for the geometry kernel *)

Module GeometrySpec.

(** The coordinate of the whole number [k], and the point of two whole
    numbers. *)
Definition whole (k : Z) : Z := k * 2 ^ 1074.
Definition pt (x y : Z) : point := (whole x, whole y).

(** The cross product of the vectors from [o] to [a] and from [o] to
    [b] as a number, without rounding (in units of 2^-2148): positive
    when [o], [a], [b] turn left, zero when they are on one line. *)
Definition exact_cross (o a b : point) : Z :=
  (a.1 - o.1) * (b.2 - o.2) - (a.2 - o.2) * (b.1 - o.1).

(** On the points of the list the test [cross(o,a,b) <= 0] of the loop
    is decided as the exact cross product decides it: rounding changes
    no sign. *)
Definition exact_signs (points : list point) : Prop :=
  Forall (λ o,
    Forall (λ a,
      Forall (λ b, le0 (cross o a b) = bool_decide (exact_cross o a b ≤ 0))
        points) points) points.

#[global] Instance exact_signs_dec (points : list point) :
  Decision (exact_signs points).
Proof. unfold exact_signs. apply _. Defined.

(** [r] is on or to the left of every directed edge of the chain whose
    stack (top first) is [st]: the edges run from an element to the one
    pushed after it. *)
Fixpoint all_left (st : list point) (r : point) : Prop :=
  match st with
  | b :: ((a :: _) as st') => 0 ≤ exact_cross a b r ∧ all_left st' r
  | _ => True
  end.

(** Every three consecutive elements of the chain make a strict left
    turn. *)
Fixpoint convex_stack (st : list point) : Prop :=
  match st with
  | c :: ((b :: a :: _) as st') => 0 < exact_cross a b c ∧ convex_stack st'
  | _ => True
  end.

(** [b] follows [a] immediately in [l]. *)
Definition adjacent (l : list point) (a b : point) : Prop :=
  ∃ l1 l2, l = l1 ++ a :: b :: l2.

(** [p] is on or to the left of every directed edge of the closed
    polygon [h], the edge from the last vertex back to the first
    included. *)
Definition on_or_inside (h : list point) (p : point) : Prop :=
  ∀ (i : nat) (a b : point),
    h !! i = Some a → h !! (S i mod length h)%nat = Some b →
    0 ≤ exact_cross a b p.

(** What the loop maintains: [st] is the stack after the points [P]. *)
Record chain_inv (lt : relation point) (st P : list point) : Prop := {
  inv_sorted : StronglySorted (flip lt) st;
  inv_convex : convex_stack st;
  inv_left : ∀ r, r ∈ P → all_left st r;
  inv_top : ∀ r t, r ∈ P → head st = Some t → r = t ∨ lt r t;
  inv_bottom : ∀ r b, r ∈ P → last st = Some b → r = b ∨ lt b r;
  inv_sub : ∀ q, q ∈ st → q ∈ P;
  inv_nonempty : st = [] → P = []
}.

End GeometrySpec.

Import GeometrySpec.

(** ** Specification predicates for the pipeline *)

Module PipelineSpec.

Import Text Pipeline.

(** The distinct points of a list in the order of their first
    occurrence: "the deduplicated input, unchanged". *)
Fixpoint first_occurrences (seen : list point) (l : list point) : list point :=
  match l with
  | [] => []
  | p :: t =>
      if bool_decide (p ∈ seen) then first_occurrences seen t
      else p :: first_occurrences (p :: seen) t
  end.

Definition distinct_in_order (points : list point) : list point :=
  first_occurrences [] points.

(** The number of distinct points of a list. *)
Definition distinct_count (points : list point) : nat :=
  size (list_to_set points : gset point).

(** The distinct canonical company names of a row. *)
Definition distinct_companies (r : row) : gset string :=
  list_to_set (companies Utility r).

(** The colour table that handing out palette colours in first-seen
    order would give: the names are taken as the scan meets them, rows
    in row order and cells in column order. *)
Definition first_seen_colors (df : list row) : gmap string string :=
  (foldl assign_color (known_colors, 0%nat) (comps df)).1.

(** The names of the data that have no fixed colour, ascending. *)
Definition unknown_names (df : list row) : list string :=
  filter (λ c, known_colors !! c = None) (uniq df).

(** Strict order of strings by character code. *)
Definition str_lt (a b : string) : Prop := String.le a b ∧ a ≠ b.

(** The coordinate pairs of the rows of a job. *)
Definition job_points (df : list row) (job : string) : list point :=
  lon_lat <$> group df job.

(** The message of an error dialog names the column [c]. *)
Definition mentions (message c : string) : Prop :=
  contains c message = true.

(** The tests of the filter that look at one row only. *)
Definition row_ok (mode : view_mode) (r : row) : Prop :=
  ¬ is_copy r ∧ is_pole r ∧ has_position r ∧ scid_is_number r
  ∧ (mode = Utility → ¬ excluded_company r).

(** A job name that is no PLA variant and can have one: it has no
    standalone PLA token and no white space at its end. Its variant is
    the name followed by [" PLA"]. *)
Definition plain_name (n : string) : Prop :=
  search (word_token "PLA") n = false ∧ rstrip n = n.

(** A row that the filter keeps in every mode when it stands alone, at
    whole numbers of degrees. *)
Definition plain_row (job : string) (comps : list cell) (lon lat : Z) : row :=
  {| job_name := Text job; node_type := Text "pole"; scid := Text "1";
     latitude := Some (whole lat); longitude := Some (whole lon);
     level_cells := [Text "No MR"]; cost_cells := [Text "100"];
     warning_cells := []; company_cells := comps |}.

End PipelineSpec.

Import Text Pipeline PipelineSpec.

(** ** The legend of [build_map] (lines 224-243) *)

Module Legend.

Import Text Pipeline.

(** [STYLE_COLORS.items()]: the entries of the dictionary in the order of
    its literal (lines 15-22). *)
Definition STYLE_ITEMS : list (string * string) :=
  [("No MR", "green"); ("Comm MR", "yellow");
   ("Simple Power MR", "orange"); ("Complex Power MR", "red");
   ("Deferred", "gray"); ("Cannot Attach", "black")].

(** The literal of [comp_color], in its order (lines 97-102). *)
Definition known_items : list (string * string) :=
  [("Magic Valley Electric Coop", "#98ff98"); ("AEP", "orange");
   ("Brownsville Public Utilities", "aqua");
   ("Central Bradford PA", "yellow")].

(** The body of [for comp in uniq] (lines 104-107) on the dictionary as
    Python keeps it: the entries in the order of their insertion. *)
Definition assign_item (st : list (string * string) * nat) (comp : string)
  : list (string * string) * nat :=
  let '(items, idx) := st in
  if bool_decide (comp ∈ items.*1) then (items, idx)
  else (items ++ [(comp, palette_at idx)], S idx).

(** [comp_color.items()] after the loop. *)
Definition comp_color_items (df : list row) : list (string * string) :=
  (foldl assign_item (known_items, 0%nat) (uniq df)).1.

(** The entries of the MR legend (lines 225-228). *)
Definition MR_ENTRIES : list (string * string) :=
  STYLE_ITEMS ++ [("Missing MR", MISSING_COLOR); ("Warnings", WARNING_COLOR)].

(** One line of the legend with a round patch (lines 231 and 236). *)
Definition legend_dot (name col : string) : string :=
  "<div><span style='background:" +:+ col
  +:+ ";width:12px;height:12px;display:inline-block;border-radius:50%;margin-right:5px;'></span>"
  +:+ name +:+ "</div>".

Definition legend_head (width : string) : string :=
  "{% macro html(this,kwargs) %}<div style='position:fixed;bottom:50px;left:50px;width:"
  +:+ width
  +:+ ";padding:10px;background:white;border:2px solid grey;z-index:9999;font-size:14px;'><strong>Legend</strong><br>".

Definition MULTI_LINE : string :=
  "<div><span style='background:red;width:12px;height:12px;display:inline-block;margin-right:5px;'></span>Multiple Companies</div>".

Definition NONE_LINE : string :=
  "<div><span style='color:red;font-size:16px;font-weight:bold;display:inline-block;margin-right:5px;'>X</span>No Company</div>".

(** [for name,col in entries: legend_html += ...] *)
Definition add_dots (html : string) (entries : list (string * string)) : string :=
  foldl (λ html e, html +:+ legend_dot e.1 e.2) html entries.

(** [legend_html] (lines 224-239); [df] is the filtered frame. *)
Definition legend_html (mode : view_mode) (df : list row) : string :=
  match mode with
  | MR => add_dots (legend_head "180px") MR_ENTRIES +:+ "</div>{% endmacro %}"
  | Utility =>
      add_dots (legend_head "240px") (comp_color_items df)
      +:+ MULTI_LINE +:+ NONE_LINE +:+ "</div>{% endmacro %}"
  end.

End Legend.

(** ** The view port of [build_map] (lines 76-77 and 222) *)

Module Viewport.

Import Pipeline.

(** [df['latitude'].astype(float)] and [df['longitude'].astype(float)]
    of the filtered frame. *)
Definition lats (df : list row) : list Z := (λ r, default 0 (latitude r)) <$> df.
Definition lons (df : list row) : list Z := (λ r, default 0 (longitude r)) <$> df.

(** [Series.min()] and [Series.max()]; [None] is the NaN of an empty
    series. *)
Definition series_min (l : list Z) : option Z :=
  match l with
  | [] => None
  | x :: t => Some (foldl Z.min x t)
  end.

Definition series_max (l : list Z) : option Z :=
  match l with
  | [] => None
  | x :: t => Some (foldl Z.max x t)
  end.

(** The argument of [m.fit_bounds] (line 222):
    [[[lats.min(),lons.min()],[lats.max(),lons.max()]]]. *)
Definition fit_bounds (df : list row) : option ((Z * Z) * (Z * Z)) :=
  lat_min ← series_min (lats df);
  lon_min ← series_min (lons df);
  lat_max ← series_max (lats df);
  lon_max ← series_max (lons df);
  Some ((lat_min, lon_min), (lat_max, lon_max)).

End Viewport.

(** ** The toggles of the page script (lines 284-308) *)

Module Toggles.

(** A layer of the feature group: its Leaflet id and whether
    [layer.feature.properties.isJobLabel] is set (a layer without a
    feature or without the property has it unset). *)
Record layer : Type := {
  layer_id : nat;
  isJobLabel : bool
}.

(** The state the two toggles read and write: their flags, whether the
    map container has the class [hide-job-labels], and the layers that
    are on the map. *)
Record page : Type := {
  labelsHidden : bool;
  markupsHidden : bool;
  hide_job_labels : bool;
  on_map : gset nat
}.

(** The body of [eachLayer] in [toggleMarkups] for one layer (lines
    289-297), [hidden] being the new value of [markupsHidden]. *)
Definition toggle_layer (hidden : bool) (shown : gset nat) (l : layer) : gset nat :=
  if isJobLabel l then shown
  else if hidden then shown ∖ {[layer_id l]}
  else shown ∪ {[layer_id l]}.

(** [toggleMarkups] (lines 286-299) over the layers of the feature
    group. *)
Definition toggleMarkups (group : list layer) (p : page) : page :=
  let hidden := negb (markupsHidden p) in
  {| labelsHidden := labelsHidden p;
     markupsHidden := hidden;
     hide_job_labels := hide_job_labels p;
     on_map := foldl (toggle_layer hidden) (on_map p) group |}.

(** [toggleLabels] (lines 301-308). *)
Definition toggleLabels (p : page) : page :=
  {| labelsHidden := negb (labelsHidden p);
     markupsHidden := markupsHidden p;
     hide_job_labels := if labelsHidden p then false else true;
     on_map := on_map p |}.

(** The page as it is loaded (lines 284-285): nothing hidden. *)
Definition initial_page (shown : gset nat) : page :=
  {| labelsHidden := false; markupsHidden := false;
     hide_job_labels := false; on_map := shown |}.

End Toggles.

(** ** Specification predicates for the further properties *)

Module MoreSpec.

Import Text Pipeline PipelineSpec Toggles.

(** Every three consecutive vertices of the closed polygon [h] make a
    strict left turn. *)
Definition strictly_convex (h : list point) : Prop :=
  ∀ (i : nat) (a b c : point),
    h !! i = Some a → h !! (S i mod length h)%nat = Some b →
    h !! (S (S i) mod length h)%nat = Some c →
    0 < exact_cross a b c.

(** [a], [b], [c] follow one another immediately in [l]. *)
Definition adjacent3 (l : list point) (a b c : point) : Prop :=
  ∃ l1 l2, l = l1 ++ a :: b :: c :: l2.

(** What the finished chain [c], in the order of the Python list, is for
    the points [P] it was built from, met in the order [lt]: it ascends,
    turns left at every vertex, has every point on its left, and runs
    from the first point to the last. *)
Record chain_of (lt : relation point) (P c : list point) : Prop := {
  chain_sorted : StronglySorted lt c;
  chain_turns : ∀ a b d, adjacent3 c a b d → 0 < exact_cross a b d;
  chain_left : ∀ a b r, adjacent c a b → r ∈ P → 0 ≤ exact_cross a b r;
  chain_sub : ∀ q, q ∈ c → q ∈ P;
  chain_first : ∀ lo r, head c = Some lo → r ∈ P → r = lo ∨ lt lo r;
  chain_last : ∀ hi r, last c = Some hi → r ∈ P → r = hi ∨ lt r hi;
  chain_nonempty : c = [] → P = []
}.

(** All the points are on one line. *)
Definition collinear (points : list point) : Prop :=
  ∀ a b c, a ∈ points → b ∈ points → c ∈ points → exact_cross a b c = 0.

(** [id] is the id of a markup: of a layer of the feature group that is
    not a job label. *)
Definition is_markup (group : list layer) (id : nat) : Prop :=
  Exists (λ l, layer_id l = id ∧ isJobLabel l = false) group.

(** The flags of the page agree with what is shown: the class is set
    exactly when the labels are hidden, and the markups of the group are
    on the map exactly when they are not hidden. *)
Definition page_consistent (group : list layer) (p : page) : Prop :=
  hide_job_labels p = labelsHidden p
  ∧ ∀ l, l ∈ group → isJobLabel l = false →
         (layer_id l ∈ on_map p ↔ markupsHidden p = false).

End MoreSpec.

Import Legend Viewport Toggles MoreSpec.

(** ** The embedding on concrete inputs *)

Example cross_of_whole_numbers :
  cross (pt 0 0) (pt 3 0) (pt 0 2) = binary64 (whole 6)
  ∧ le0 (cross (pt 0 0) (pt 0 2) (pt 3 0)) = true.
Proof. by vm_compute. Qed.

Example convex_hull_square :
  convex_hull [pt 0 0; pt 2 2; pt 2 0; pt 0 2; pt 1 1; pt 2 2]
  = [pt 0 0; pt 2 0; pt 2 2; pt 0 2].
Proof. vm_compute. reflexivity. Qed.

Example convex_hull_collinear :
  convex_hull [pt 3 3; pt 0 0; pt 1 1; pt 2 2] = [pt 0 0; pt 3 3].
Proof. vm_compute. reflexivity. Qed.

(** Rounding at work: the three points are not on one line (the exact
    cross product is 1), the product [134217729 * 134217729] is rounded
    to [134217728 * 134217730], the computed cross product is [0.0] and
    the middle point is popped. *)
Example convex_hull_rounding :
  exact_cross (pt 0 0) (pt 134217729 134217728) (pt 134217730 134217729)
  = 1 * 2 ^ 2148
  ∧ cross (pt 0 0) (pt 134217729 134217728) (pt 134217730 134217729)
    = SpecFloat.S754_zero false
  ∧ convex_hull [pt 0 0; pt 134217729 134217728; pt 134217730 134217729]
    = [pt 0 0; pt 134217730 134217729].
Proof. by vm_compute. Qed.

(** Underflow at work: the products of the least positive numbers are
    rounded to zero, and a square of that size has a hull of two
    points. *)
Example convex_hull_underflow :
  convex_hull [(0, 0); (2, 0); (2, 2); (0, 2)] = [(0, 0); (2, 2)].
Proof. vm_compute. reflexivity. Qed.

Example strip_spaces : strip "  a b  " = "a b".
Proof. reflexivity. Qed.

Example canon_variant :
  canon " magic valley ELEC coop " = "Magic Valley Electric Coop".
Proof. reflexivity. Qed.

Example pla_token_found :
  search (word_token "PLA") "jobA pla" = true
  ∧ search (word_token "PLA") "jobA_PLA" = false
  ∧ search (word_token "PLA") "PLAN 7" = false.
Proof. by vm_compute. Qed.

Example pla_removed :
  delete_all (spaces_then (word_token "PLA")) "jobA  PLA (rev PLA)"
  = "jobA (rev)".
Proof. reflexivity. Qed.

Example scid_all_digits :
  all_digits "0042" = true ∧ all_digits "42a" = false
  ∧ all_digits "" = false ∧ all_digits "4.0" = false.
Proof. by vm_compute. Qed.

Example excluded_company_found :
  excluded_company (plain_row "J" [NaN; Text "at&t Texas"] 0 0) = true
  ∧ excluded_company (plain_row "J" [Text "Chartered"] 0 0) = false.
Proof. by vm_compute. Qed.

(** The end-to-end example: three poles of job J1 in MR mode give the
    markers green, red, green and one closed triangular hull. *)
Example end_to_end_mr :
  let pole scid lat lon lvl :=
    {| job_name := Text "J1"; node_type := Text "pole"; scid := Text scid;
       latitude := Some (whole lat); longitude := Some (whole lon);
       level_cells := [Text lvl]; cost_cells := [NaN];
       warning_cells := [NaN]; company_cells := [NaN] |} in
  let df := [pole "1" 10 10 "No MR"; pole "2" 10 11 "Complex Power MR";
             pole "3" 11 10 "No MR"] in
  ∃ s : scene,
    build_map (λ _, MarkupLoaded []) df MR None = Saved s
    ∧ m_color <$> markers s = [Some "green"; Some "red"; Some "green"]
    ∧ hulls s = [ {| label := "J1";
                     ring := [pt 10 10; pt 11 10; pt 10 11; pt 10 10] |} ].
Proof. eexists. vm_compute. done. Qed.

(** ** The geometry kernel: proofs *)

(** Vectors of the open right half plane are ordered by angle: turning
    left is transitive among them. *)
Lemma half_plane_turns (ux uy vx vy wx wy : Z) :
  (0 < ux ∨ (ux = 0 ∧ 0 < uy)) →
  (0 < vx ∨ (vx = 0 ∧ 0 < vy)) →
  (0 < wx ∨ (wx = 0 ∧ 0 < wy)) →
  0 ≤ vx * uy - vy * ux → 0 ≤ ux * wy - uy * wx → 0 ≤ vx * wy - vy * wx.
Proof.
  intros Hu Hv Hw H1 H2.
  assert (E : (vx * wy - vy * wx) * ux
              = (ux * wy - uy * wx) * vx + (vx * uy - vy * ux) * wx) by ring.
  destruct Hu as [Hu|[-> Hu]].
  - assert (0 ≤ (vx * wy - vy * wx) * ux).
    { rewrite E. destruct Hv as [?|[-> ?]], Hw as [?|[-> ?]]; nia. }
    nia.
  - destruct Hv as [?|[-> ?]], Hw as [?|[-> ?]]; nia.
Qed.

Lemma point_lt_vec (a b : point) :
  point_lt a b ↔ (0 < b.1 - a.1 ∨ (b.1 - a.1 = 0 ∧ 0 < b.2 - a.2)).
Proof. unfold point_lt. lia. Qed.

Lemma cross_same_l (a b : point) : exact_cross a a b = 0.
Proof. unfold exact_cross. ring. Qed.

Lemma cross_same_r (a b : point) : exact_cross a b b = 0.
Proof. unfold exact_cross. ring. Qed.

Lemma cross_same_lr (a b : point) : exact_cross a b a = 0.
Proof. unfold exact_cross. ring. Qed.

(** The three facts about turns that the chain loop relies on, for points
    met in ascending order ... *)
Lemma turn_pop_lt (a b p r : point) :
  point_lt a b → point_lt a p → point_lt a r →
  exact_cross a b p ≤ 0 → 0 ≤ exact_cross a b r → 0 ≤ exact_cross a p r.
Proof.
  rewrite !point_lt_vec. unfold exact_cross. intros Hb Hp Hr H1 H2.
  pose proof (half_plane_turns _ _ _ _ _ _ Hb Hp Hr). lia.
Qed.

Lemma turn_back_lt (a b c p : point) :
  point_lt a b → point_lt b c → point_lt b p →
  0 < exact_cross a b c → 0 ≤ exact_cross b c p → 0 ≤ exact_cross a b p.
Proof.
  rewrite !point_lt_vec. unfold exact_cross. intros Hab Hbc Hbp H1 H2.
  pose proof (half_plane_turns _ _ _ _ _ _ Hbc Hab Hbp). lia.
Qed.

Lemma turn_new_lt (a b p r : point) :
  point_lt a b → point_lt b p → point_lt r b →
  0 ≤ exact_cross a b r → 0 < exact_cross a b p → 0 ≤ exact_cross b p r.
Proof.
  rewrite !point_lt_vec. unfold exact_cross. intros Hab Hbp Hrb H1 H2.
  pose proof (half_plane_turns _ _ _ _ _ _ Hab Hrb Hbp). lia.
Qed.

(** ... and in descending order. *)
Lemma flip_lt_vec (a b : point) :
  flip point_lt a b ↔ (0 < a.1 - b.1 ∨ (a.1 - b.1 = 0 ∧ 0 < a.2 - b.2)).
Proof. unfold flip, point_lt. lia. Qed.

Lemma turn_pop_gt (a b p r : point) :
  flip point_lt a b → flip point_lt a p → flip point_lt a r →
  exact_cross a b p ≤ 0 → 0 ≤ exact_cross a b r → 0 ≤ exact_cross a p r.
Proof.
  rewrite !flip_lt_vec. unfold exact_cross. intros Hb Hp Hr H1 H2.
  pose proof (half_plane_turns _ _ _ _ _ _ Hb Hp Hr). lia.
Qed.

Lemma turn_back_gt (a b c p : point) :
  flip point_lt a b → flip point_lt b c → flip point_lt b p →
  0 < exact_cross a b c → 0 ≤ exact_cross b c p → 0 ≤ exact_cross a b p.
Proof.
  rewrite !flip_lt_vec. unfold exact_cross. intros Hab Hbc Hbp H1 H2.
  pose proof (half_plane_turns _ _ _ _ _ _ Hbc Hab Hbp). lia.
Qed.

Lemma turn_new_gt (a b p r : point) :
  flip point_lt a b → flip point_lt b p → flip point_lt r b →
  0 ≤ exact_cross a b r → 0 < exact_cross a b p → 0 ≤ exact_cross b p r.
Proof.
  rewrite !flip_lt_vec. unfold exact_cross. intros Hab Hbp Hrb H1 H2.
  pose proof (half_plane_turns _ _ _ _ _ _ Hab Hrb Hbp). lia.
Qed.

Lemma pop_while_cons (b a : point) (st : list point) (p : point) :
  pop_while (b :: a :: st) p
  = if le0 (cross a b p) then pop_while (a :: st) p
    else b :: a :: st.
Proof. done. Qed.

Lemma exact_signs_spec (points : list point) (o a b : point) :
  exact_signs points → o ∈ points → a ∈ points → b ∈ points →
  le0 (cross o a b) = bool_decide (exact_cross o a b ≤ 0).
Proof.
  unfold exact_signs. rewrite Forall_forall. intros H Ho Ha Hb.
  specialize (H o Ho). rewrite Forall_forall in H.
  specialize (H a Ha). rewrite Forall_forall in H. by apply H.
Qed.

(** Exact signs on a list are exact signs on every part of it. *)
Lemma exact_signs_subseteq (points points' : list point) :
  (∀ p, p ∈ points' → p ∈ points) → exact_signs points → exact_signs points'.
Proof.
  intros Hsub H. unfold exact_signs. apply Forall_forall. intros o Ho.
  apply Forall_forall. intros a Ha. apply Forall_forall. intros b Hb.
  apply (exact_signs_spec points); auto.
Qed.

(** *** The loop of [convex_hull], for either direction of travel *)

Section ChainLoop.

Variable lt : relation point.
Variable U : list point.
Hypothesis exact : exact_signs U.
Hypothesis lt_irrefl : ∀ a, ¬ lt a a.
Hypothesis lt_trans : ∀ a b c, lt a b → lt b c → lt a c.
Hypothesis lt_total : ∀ a b, lt a b ∨ a = b ∨ lt b a.
Hypothesis turn_pop : ∀ a b p r,
  lt a b → lt a p → lt a r →
  exact_cross a b p ≤ 0 → 0 ≤ exact_cross a b r → 0 ≤ exact_cross a p r.
Hypothesis turn_back : ∀ a b c p,
  lt a b → lt b c → lt b p →
  0 < exact_cross a b c → 0 ≤ exact_cross b c p → 0 ≤ exact_cross a b p.
Hypothesis turn_new : ∀ a b p r,
  lt a b → lt b p → lt r b →
  0 ≤ exact_cross a b r → 0 < exact_cross a b p → 0 ≤ exact_cross b p r.

Lemma all_left_tail (b : point) (st : list point) (r : point) :
  all_left (b :: st) r → all_left st r.
Proof. destruct st as [|a st]; simpl; tauto. Qed.

Lemma convex_stack_tail (b : point) (st : list point) :
  convex_stack (b :: st) → convex_stack st.
Proof. destruct st as [|a [|a0 st]]; simpl; tauto. Qed.

Lemma all_left_suffix (st' st : list point) (r : point) :
  st' `suffix_of` st → all_left st r → all_left st' r.
Proof.
  intros [k ->]. induction k as [|x k IH]; [done|].
  intros H. apply IH. exact (all_left_tail _ _ _ H).
Qed.

Lemma convex_stack_suffix (st' st : list point) :
  st' `suffix_of` st → convex_stack st → convex_stack st'.
Proof.
  intros [k ->]. induction k as [|x k IH]; [done|].
  intros H. apply IH. exact (convex_stack_tail _ _ H).
Qed.

Lemma sorted_suffix (st' st : list point) :
  st' `suffix_of` st →
  StronglySorted (flip lt) st → StronglySorted (flip lt) st'.
Proof. intros [k ->]. apply StronglySorted_app_1_r. Qed.

(** What the [while] loop leaves behind. *)
Lemma pop_while_spec (P : list point) (p : point) (st : list point) :
  p ∈ U → (∀ q, q ∈ st → q ∈ U) →
  StronglySorted (flip lt) st →
  (∀ r, r ∈ P → all_left st r) →
  (∀ q, q ∈ st → lt q p) →
  (∀ r t, r ∈ P → head st = Some t → lt t r → 0 ≤ exact_cross t p r) →
  pop_while st p `suffix_of` st
  ∧ last (pop_while st p) = last st
  ∧ (st ≠ [] → pop_while st p ≠ [])
  ∧ (∀ r t, r ∈ P → head (pop_while st p) = Some t → lt t r →
       0 ≤ exact_cross t p r)
  ∧ (∀ a b rest, pop_while st p = b :: a :: rest → 0 < exact_cross a b p).
Proof.
  intros HpU. induction st as [|b [|a st] IH]; intros HU Hs Hl Hp Hj.
  - simpl. split_and!; try done.
  - simpl. split_and!; try done.
  - rewrite pop_while_cons.
    rewrite (exact_signs_spec U a b p exact)
      by (try done; apply HU; rewrite !elem_of_cons; tauto).
    case_bool_decide as Hc.
    + destruct IH as (I1 & I2 & I3 & I4 & I5).
      * intros q Hq. apply HU. by right.
      * by inversion Hs.
      * intros r Hr. exact (all_left_tail _ _ _ (Hl r Hr)).
      * intros q Hq. apply Hp. by right.
      * intros r t Hr [= <-] Har.
        apply (turn_pop a b p r); try done.
        -- inversion Hs as [|? ? ? Hall]; subst.
           apply Forall_cons in Hall. apply Hall.
        -- apply Hp. right. left.
        -- destruct (Hl r Hr) as [? _]. done.
      * split_and!; [by apply suffix_cons_r| |by intros _; apply I3|done..].
        by rewrite last_cons_cons.
    + split_and!; try done.
      intros a' b' rest [= <- <- <-]. lia.
Qed.

(** A later point that is left of the newest edge of a convex chain is
    left of all its edges. *)
Lemma all_left_later (p b a : point) (st : list point) :
  StronglySorted (flip lt) (b :: a :: st) →
  convex_stack (b :: a :: st) →
  lt b p → 0 ≤ exact_cross a b p → all_left (b :: a :: st) p.
Proof.
  revert b a. induction st as [|a0 st IH]; intros b a Hs Hc Hbp Hl.
  - simpl. done.
  - assert (Hab : lt a b).
    { inversion Hs as [|? ? ? Hall]; subst.
      apply Forall_cons in Hall. apply Hall. }
    assert (Ha0a : lt a0 a).
    { inversion Hs as [|? ? Hs' _]; subst.
      inversion Hs' as [|? ? ? Hall]; subst.
      apply Forall_cons in Hall. apply Hall. }
    split; [done|]. apply IH.
    + by inversion Hs.
    + exact (convex_stack_tail _ _ Hc).
    + by eapply lt_trans.
    + destruct Hc as [Hc _].
      apply (turn_back a0 a b p); try done. by eapply lt_trans.
Qed.

(** One iteration of the [for] loop keeps the invariant. *)
Lemma push_point_inv (st P : list point) (p : point) :
  p ∈ U → (∀ q, q ∈ P → q ∈ U) →
  chain_inv lt st P → (∀ r, r ∈ P → lt r p) →
  chain_inv lt (push_point st p) (P ++ [p]).
Proof.
  intros HpU HPU [Hs Hc Hl Ht Hb Hsub Hne] Hp.
  destruct (pop_while_spec P p st) as (S1 & S2 & S3 & S4 & S5); try done.
  { intros q Hq. by apply HPU, Hsub. }
  { intros q Hq. apply Hp, Hsub, Hq. }
  { intros r t Hr Hh Htr. destruct (Ht r t Hr Hh) as [->|Hrt].
    - by apply lt_irrefl in Htr.
    - exfalso. apply (lt_irrefl r). by eapply lt_trans. }
  unfold push_point. remember (pop_while st p) as st' eqn:Est'. clear Est'.
  assert (Hs' : StronglySorted (flip lt) st') by by eapply sorted_suffix.
  assert (Hc' : convex_stack st') by by eapply convex_stack_suffix.
  assert (Hsub' : ∀ q, q ∈ st' → q ∈ st).
  { intros q Hq. destruct S1 as [k ->]. apply elem_of_app. by right. }
  assert (Hlp : all_left st' p).
  { destruct st' as [|b [|a rest]]; try done.
    apply all_left_later; try done.
    - apply Hp, Hsub, Hsub'. left.
    - specialize (S5 a b rest eq_refl). lia. }
  split.
  - constructor; [done|]. apply Forall_forall. intros q Hq.
    apply Hp, Hsub, Hsub', Hq.
  - destruct st' as [|b [|a rest]]; try done.
    split; [|done]. by apply (S5 a b rest).
  - intros r Hr. destruct st' as [|b rest]; [done|].
    split.
    + apply elem_of_app in Hr as [Hr|Hr].
      * destruct (lt_total b r) as [Hbr|[->|Hrb]].
        -- by apply (S4 r b).
        -- rewrite cross_same_lr. done.
        -- destruct rest as [|a rest].
           ++ exfalso. simpl in S2.
              destruct (Hb r b Hr (eq_sym S2)) as [->|Hbr].
              ** by apply lt_irrefl in Hrb.
              ** apply (lt_irrefl r). by eapply lt_trans.
           ++ apply (turn_new a b p r); try done.
              ** inversion Hs' as [|? ? ? Hall]; subst.
                 apply Forall_cons in Hall. apply Hall.
              ** apply Hp, Hsub, Hsub'. left.
              ** pose proof (all_left_suffix _ _ r S1 (Hl r Hr)) as [? _].
                 done.
              ** by apply (S5 a b rest).
      * apply list_elem_of_singleton in Hr as ->.
        rewrite cross_same_r. done.
    + apply elem_of_app in Hr as [Hr|Hr].
      * exact (all_left_suffix _ _ r S1 (Hl r Hr)).
      * apply list_elem_of_singleton in Hr as ->. done.
  - intros r t Hr [= <-]. apply elem_of_app in Hr as [Hr|Hr].
    + right. by apply Hp.
    + left. by apply list_elem_of_singleton in Hr.
  - intros r b Hr Hlast. destruct st' as [|b' rest].
    + assert (st = []) as -> by (destruct st; [done|]; by destruct S3).
      rewrite (Hne eq_refl) in Hr. simpl in Hlast.
      apply list_elem_of_singleton in Hr. left. congruence.
    + rewrite last_cons_cons in Hlast. rewrite S2 in Hlast.
      apply elem_of_app in Hr as [Hr|Hr]; [by apply Hb|].
      apply list_elem_of_singleton in Hr as ->.
      right. apply Hp, Hsub. by apply last_Some_elem_of.
  - intros q Hq. apply elem_of_cons in Hq as [->|Hq].
    + apply elem_of_app. right. left.
    + apply elem_of_app. left. apply Hsub, Hsub', Hq.
  - done.
Qed.

Lemma foldl_push_point_inv (rest st P : list point) :
  (∀ q, q ∈ P ++ rest → q ∈ U) →
  chain_inv lt st P → StronglySorted lt (P ++ rest) →
  chain_inv lt (foldl push_point st rest) (P ++ rest).
Proof.
  revert st P. induction rest as [|p rest IH]; intros st P HU Hinv Hsorted.
  - by rewrite app_nil_r.
  - simpl. replace (P ++ p :: rest) with ((P ++ [p]) ++ rest)
      by by rewrite <- app_assoc.
    apply IH.
    + intros q Hq. apply HU. by rewrite <- app_assoc in Hq.
    + apply push_point_inv.
      * apply HU. rewrite elem_of_app, elem_of_cons. tauto.
      * intros q Hq. apply HU. rewrite elem_of_app. tauto.
      * done.
      * intros r Hr.
        apply StronglySorted_app_1_elem_of with (x1 := r) (x2 := p) in Hsorted;
          [done|done|left].
    + by rewrite <- app_assoc.
Qed.

Lemma chain_inv_nil : chain_inv lt [] [].
Proof. split; try done. constructor. Qed.

Lemma chain_stack_inv (pts : list point) :
  (∀ q, q ∈ pts → q ∈ U) →
  StronglySorted lt pts → chain_inv lt (chain_stack pts) pts.
Proof.
  intros HU Hs. apply (foldl_push_point_inv pts [] []); [done| |done].
  apply chain_inv_nil.
Qed.

End ChainLoop.

(** *** [sorted(set(points))] *)

#[local] Instance point_le_total : Total point_le.
Proof. intros a b. unfold point_le. lia. Qed.

#[local] Instance point_le_trans : Transitive point_le.
Proof. intros a b c. unfold point_le. lia. Qed.

#[local] Instance point_le_antisymm : AntiSymm (=) point_le.
Proof.
  intros [a1 a2] [b1 b2]. unfold point_le. simpl. intros H1 H2.
  f_equal; lia.
Qed.

Lemma point_lt_irrefl (a : point) : ¬ point_lt a a.
Proof. unfold point_lt. lia. Qed.

Lemma point_lt_trans (a b c : point) :
  point_lt a b → point_lt b c → point_lt a c.
Proof. unfold point_lt. lia. Qed.

Lemma point_lt_total (a b : point) : point_lt a b ∨ a = b ∨ point_lt b a.
Proof.
  destruct a as [a1 a2], b as [b1 b2]. unfold point_lt. simpl.
  destruct (decide (a1 = b1)) as [->|]; [|lia].
  destruct (decide (a2 = b2)) as [->|]; [|lia]. by right; left.
Qed.

Lemma point_le_lt (a b : point) : point_le a b → a ≠ b → point_lt a b.
Proof.
  destruct a as [a1 a2], b as [b1 b2]. unfold point_le, point_lt. simpl.
  intros H Hne. destruct (decide (a2 = b2)) as [->|]; [|lia].
  destruct H as [?|[-> _]]; [lia|]. done.
Qed.

Lemma elem_of_sorted_set (points : list point) (p : point) :
  p ∈ sorted_set points ↔ p ∈ points.
Proof.
  unfold sorted_set. rewrite merge_sort_Permutation.
  rewrite elem_of_elements. apply elem_of_list_to_set.
Qed.

Lemma NoDup_sorted_set (points : list point) : NoDup (sorted_set points).
Proof.
  unfold sorted_set. rewrite merge_sort_Permutation. apply NoDup_elements.
Qed.

Lemma StronglySorted_le_lt (l : list point) :
  StronglySorted point_le l → NoDup l → StronglySorted point_lt l.
Proof.
  induction 1 as [|x l Hs IH Hall]; intros Hnd; constructor.
  - apply IH. by inversion Hnd.
  - apply Forall_forall. intros y Hy.
    rewrite Forall_forall in Hall. apply point_le_lt; [by apply Hall|].
    intros ->. by inversion Hnd.
Qed.

Lemma sorted_set_sorted (points : list point) :
  StronglySorted point_lt (sorted_set points).
Proof.
  apply StronglySorted_le_lt; [|apply NoDup_sorted_set].
  apply StronglySorted_merge_sort; apply _.
Qed.

(** The result of [sorted(set(points))] depends on the elements of
    [points] only. *)
Lemma sorted_set_ext (l1 l2 : list point) :
  (∀ p, p ∈ l1 ↔ p ∈ l2) → sorted_set l1 = sorted_set l2.
Proof.
  intros H. unfold sorted_set.
  replace (list_to_set l2 : gset point) with (list_to_set l1 : gset point);
    [done|].
  apply set_eq. intros p. rewrite !elem_of_list_to_set. apply H.
Qed.

(** It is the one strictly ascending list with these elements. *)
Lemma sorted_set_unique (points l : list point) :
  StronglySorted point_lt l → (∀ p, p ∈ l ↔ p ∈ points) →
  sorted_set points = l.
Proof.
  intros Hs Hl.
  assert (Hnd : NoDup l).
  { clear Hl. induction Hs as [|x l Hs IH Hall]; constructor; [|done].
    intros Hx. rewrite Forall_forall in Hall.
    by apply (point_lt_irrefl x), Hall. }
  apply (StronglySorted_unique point_le).
  - apply StronglySorted_merge_sort; apply _.
  - clear Hl Hnd. induction Hs as [|x l Hs IH Hall]; constructor; [done|].
    eapply Forall_impl; [exact Hall|]. unfold point_lt, point_le. lia.
  - apply NoDup_Permutation; [apply NoDup_sorted_set|done|].
    intros p. rewrite elem_of_sorted_set. by rewrite Hl.
Qed.

Lemma StronglySorted_reverse (l : list point) :
  StronglySorted point_lt l → StronglySorted (flip point_lt) (reverse l).
Proof.
  induction 1 as [|x l Hs IH Hall].
  - constructor.
  - rewrite reverse_cons. apply StronglySorted_app_2; [|done|repeat constructor].
    intros y z Hy Hz. apply list_elem_of_singleton in Hz as ->.
    rewrite Forall_forall in Hall. apply Hall. by apply elem_of_reverse.
Qed.

(** *** The shape of the two chains *)

Lemma pop_while_suffix (st : list point) (p : point) :
  pop_while st p `suffix_of` st.
Proof.
  induction st as [|b [|a st] IH]; [done..|].
  rewrite pop_while_cons. destruct (le0 _); [|done]. by apply suffix_cons_r.
Qed.

Lemma pop_while_last (st : list point) (p : point) :
  last (pop_while st p) = last st.
Proof.
  induction st as [|b [|a st] IH]; [done..|].
  rewrite pop_while_cons. destruct (le0 _); [|done]. by rewrite last_cons_cons.
Qed.

Lemma pop_while_nonempty (st : list point) (p : point) :
  st ≠ [] → pop_while st p ≠ [].
Proof.
  intros Hne Hnil. pose proof (pop_while_last st p) as Hl.
  rewrite Hnil in Hl. destruct st as [|x st]; [done|].
  simpl in Hl. symmetry in Hl. by apply last_None in Hl.
Qed.

Lemma foldl_push_point_last (rest st : list point) :
  st ≠ [] → last (foldl push_point st rest) = last st.
Proof.
  revert st. induction rest as [|p rest IH]; intros st Hne; [done|].
  simpl. rewrite IH; [|done]. unfold push_point.
  pose proof (pop_while_nonempty st p Hne) as Hne'.
  destruct (pop_while st p) as [|x l] eqn:E; [done|].
  rewrite last_cons_cons, <- E. apply pop_while_last.
Qed.

Lemma chain_stack_last (pts : list point) : last (chain_stack pts) = head pts.
Proof.
  destruct pts as [|p rest]; [done|].
  unfold chain_stack. simpl. by rewrite foldl_push_point_last.
Qed.

Lemma chain_stack_head (pts : list point) : head (chain_stack pts) = last pts.
Proof.
  destruct pts as [|p rest] using rev_ind; [done|].
  unfold chain_stack. rewrite foldl_app. simpl. by rewrite last_snoc.
Qed.

Lemma drop_last_snoc {A} (l : list A) (x : A) : drop_last (l ++ [x]) = l.
Proof.
  unfold drop_last. rewrite length_app. simpl.
  replace (length l + 1 - 1)%nat with (length l) by lia.
  apply take_app_length.
Qed.

Lemma drop_last_chain (pts : list point) (x : point) (t : list point) :
  chain_stack pts = x :: t → drop_last (chain pts) = reverse t.
Proof.
  intros E. unfold chain. rewrite E, reverse_cons. apply drop_last_snoc.
Qed.

(** *** Consecutive vertices *)

Lemma adjacent_cyclic (h : list point) (i : nat) (a b h0 : point) :
  h !! i = Some a → h !! (S i mod length h)%nat = Some b →
  head h = Some h0 → adjacent (h ++ [h0]) a b.
Proof.
  intros Ha Hb H0. pose proof (lookup_lt_Some _ _ _ Ha) as Hi.
  pose proof (take_drop_middle _ _ _ Ha) as Hsplit.
  destruct (drop (S i) h) as [|c rest] eqn:Ed.
  - assert (S i = length h) as Hlen.
    { apply (f_equal length) in Ed. rewrite length_drop in Ed.
      simpl in Ed. lia. }
    rewrite Hlen, Nat.Div0.mod_same in Hb.
    rewrite <- head_lookup, H0 in Hb. injection Hb as ->.
    exists (take i h), []. rewrite <- Hsplit at 1. by rewrite <- app_assoc.
  - assert (S i < length h)%nat as Hlen.
    { apply (f_equal length) in Ed. rewrite length_drop in Ed.
      simpl in Ed. lia. }
    rewrite Nat.mod_small in Hb by done.
    assert (h !! S i = Some c) as Hc.
    { rewrite <- (Nat.add_0_r (S i)), <- lookup_drop, Ed. done. }
    rewrite Hc in Hb. injection Hb as ->.
    exists (take i h), (rest ++ [h0]). rewrite <- Hsplit at 1.
    by rewrite <- app_assoc.
Qed.

Lemma adjacent_cons (x : point) (l : list point) (a b : point) :
  adjacent l a b → adjacent (x :: l) a b.
Proof. intros (l1 & l2 & ->). by exists (x :: l1), l2. Qed.

Lemma adjacent_split (A X : list point) (x a b : point) :
  adjacent (A ++ x :: X) a b →
  adjacent (A ++ [x]) a b ∨ adjacent (x :: X) a b.
Proof.
  induction A as [|y A IH]; intros (l1 & l2 & E).
  - right. by exists l1, l2.
  - destruct l1 as [|z l1].
    + simpl in E. injection E as -> E. left.
      destruct A as [|y' A]; simpl in E.
      * injection E as -> _. by exists [], [].
      * injection E as -> _. by exists [], (A ++ [x]).
    + simpl in E. injection E as -> E.
      destruct IH as [IH|IH]; [by exists l1, l2| |by right].
      left. by apply adjacent_cons.
Qed.

Lemma adjacent_reverse (l : list point) (a b : point) :
  adjacent (reverse l) a b → adjacent l b a.
Proof.
  intros (l1 & l2 & E). apply (f_equal reverse) in E.
  rewrite reverse_involutive in E. subst l.
  exists (reverse l2), (reverse l1).
  rewrite reverse_app, !reverse_cons, <- !app_assoc. done.
Qed.

Lemma all_left_adjacent (st : list point) (r a b : point) :
  all_left st r → adjacent st b a → 0 ≤ exact_cross a b r.
Proof.
  intros Hl (l1 & l2 & ->). induction l1 as [|x l1 IH].
  - by destruct Hl.
  - apply IH. exact (all_left_tail _ _ _ Hl).
Qed.

(** *** The hull *)

(** The invariant of the two loops, for points on which rounding
    changes no sign. *)
Lemma chain_lower_inv (points : list point) :
  exact_signs points →
  chain_inv point_lt (chain_stack (sorted_set points)) (sorted_set points).
Proof.
  intros Hex. apply (chain_stack_inv point_lt points Hex);
    eauto using point_lt_irrefl, point_lt_trans, point_lt_total,
      turn_pop_lt, turn_back_lt, turn_new_lt, sorted_set_sorted.
  intros q. apply elem_of_sorted_set.
Qed.

Lemma chain_upper_inv (points : list point) :
  exact_signs points →
  chain_inv (flip point_lt) (chain_stack (reverse (sorted_set points)))
    (reverse (sorted_set points)).
Proof.
  intros Hex. apply (chain_stack_inv (flip point_lt) points Hex);
    eauto using turn_pop_gt, turn_back_gt, turn_new_gt.
  - intros a. apply point_lt_irrefl.
  - intros a b c H1 H2. exact (point_lt_trans _ _ _ H2 H1).
  - intros a b. destruct (point_lt_total a b) as [?|[?|?]]; eauto.
  - intros q Hq. by apply elem_of_sorted_set, elem_of_reverse.
  - apply StronglySorted_reverse, sorted_set_sorted.
Qed.

(** Whatever the tests of the loop answer, the chain is made of the
    points it was given. *)
Lemma foldl_push_point_subset (rest st : list point) (q : point) :
  q ∈ foldl push_point st rest → q ∈ st ∨ q ∈ rest.
Proof.
  revert st. induction rest as [|p rest IH]; intros st Hq; [by left|].
  simpl in Hq. apply IH in Hq as [Hq|Hq]; [|right; by right].
  unfold push_point in Hq. apply elem_of_cons in Hq as [->|Hq].
  - right. left.
  - left. destruct (pop_while_suffix st p) as [k ->].
    apply elem_of_app. by right.
Qed.

Lemma chain_stack_subset (pts : list point) (q : point) :
  q ∈ chain_stack pts → q ∈ pts.
Proof.
  intros Hq. apply foldl_push_point_subset in Hq as [Hq|Hq]; [|done].
  by apply elem_of_nil in Hq.
Qed.

Lemma sorted_head_least (l : list point) (h r : point) :
  StronglySorted point_lt l → head l = Some h → r ∈ l → point_le h r.
Proof.
  intros Hs Hh Hr. destruct l as [|x l]; [done|]. injection Hh as ->.
  inversion Hs as [|? ? _ Hall]; subst. rewrite Forall_forall in Hall.
  apply elem_of_cons in Hr as [->|Hr].
  - unfold point_le. lia.
  - specialize (Hall r Hr). unfold point_lt, point_le in *. lia.
Qed.

Lemma sorted_last_greatest (l : list point) (h r : point) :
  StronglySorted point_lt l → last l = Some h → r ∈ l → point_le r h.
Proof.
  intros Hs Hl Hr. apply last_Some in Hl as [l' ->].
  apply elem_of_app in Hr as [Hr|Hr].
  - apply (StronglySorted_app_1_elem_of _ _ _ r h) in Hs; [|done|left].
    unfold point_lt, point_le in *. lia.
  - apply list_elem_of_singleton in Hr as ->. unfold point_le. lia.
Qed.

Lemma elem_of_drop_last {A} (l : list A) (x : A) : x ∈ drop_last l → x ∈ l.
Proof. unfold drop_last. apply subseteq_take. Qed.

Lemma elem_of_chain_sorted (points : list point) (p : point) :
  p ∈ chain (sorted_set points) → p ∈ points.
Proof.
  unfold chain. rewrite elem_of_reverse. intros Hp.
  by apply elem_of_sorted_set, chain_stack_subset.
Qed.

Lemma elem_of_chain_reverse_sorted (points : list point) (p : point) :
  p ∈ chain (reverse (sorted_set points)) → p ∈ points.
Proof.
  unfold chain. rewrite elem_of_reverse. intros Hp.
  by apply elem_of_sorted_set, elem_of_reverse, chain_stack_subset.
Qed.

(** The hull is made of input points. *)
Lemma convex_hull_subset (points : list point) (p : point) :
  p ∈ convex_hull points → p ∈ points.
Proof.
  unfold convex_hull. case_bool_decide.
  - apply elem_of_sorted_set.
  - rewrite elem_of_app. intros [Hp|Hp]; apply elem_of_drop_last in Hp.
    + by apply elem_of_chain_sorted.
    + by apply elem_of_chain_reverse_sorted.
Qed.

(** The two chains share their end points, so the hull is the lower chain
    without its last point followed by the upper chain without its last
    point, and closing it gives the lower chain followed by the upper. *)
Lemma convex_hull_chains (points : list point) :
  (2 ≤ length (sorted_set points))%nat →
  ∃ p1 pn tL tU,
    chain_stack (sorted_set points) = pn :: tL
    ∧ chain_stack (reverse (sorted_set points)) = p1 :: tU
    ∧ last tL = Some p1 ∧ last tU = Some pn
    ∧ drop_last (chain (sorted_set points))
      ++ drop_last (chain (reverse (sorted_set points)))
      = reverse tL ++ reverse tU.
Proof.
  intros Hlen. set (pts := sorted_set points) in *.
  pose proof (sorted_set_sorted points) as Hs. fold pts in Hs.
  destruct pts as [|p1 rest] eqn:Epts; [simpl in Hlen; lia|].
  destruct (last rest) as [pn|] eqn:Elast; last first.
  { apply last_None in Elast. subst rest. simpl in Hlen. lia. }
  assert (Hne : p1 ≠ pn).
  { intros ->. inversion Hs as [|? ? _ Hall]; subst.
    rewrite Forall_forall in Hall.
    apply (point_lt_irrefl pn), Hall. by apply last_Some_elem_of. }
  assert (HlastP : last (p1 :: rest) = Some pn).
  { destruct rest; [done|]. by rewrite last_cons_cons. }
  pose proof (chain_stack_head (p1 :: rest)) as HhL. rewrite HlastP in HhL.
  pose proof (chain_stack_last (p1 :: rest)) as HlL. simpl in HlL.
  pose proof (chain_stack_head (reverse (p1 :: rest))) as HhU.
  rewrite last_reverse in HhU. simpl in HhU.
  pose proof (chain_stack_last (reverse (p1 :: rest))) as HlU.
  rewrite head_reverse, HlastP in HlU.
  destruct (chain_stack (p1 :: rest)) as [|x tL] eqn:EL; [done|].
  destruct (chain_stack (reverse (p1 :: rest))) as [|y tU] eqn:EU; [done|].
  simpl in HhL, HhU. injection HhL as ->. injection HhU as ->.
  exists p1, pn, tL, tU. split_and!; try done.
  - destruct tL as [|z tL]; [simpl in HlL; congruence|].
    by rewrite last_cons_cons in HlL.
  - destruct tU as [|z tU]; [simpl in HlU; congruence|].
    by rewrite last_cons_cons in HlU.
  - by rewrite (drop_last_chain _ _ _ EL), (drop_last_chain _ _ _ EU).
Qed.

(** Where rounding changes no sign, every input point is on or to the
    left of every edge of the hull. *)
Lemma convex_hull_contains (points : list point) (r : point) :
  exact_signs points → r ∈ points → on_or_inside (convex_hull points) r.
Proof.
  intros Hex Hr. apply elem_of_sorted_set in Hr.
  unfold convex_hull. case_bool_decide as Hlen.
  - destruct (sorted_set points) as [|p [|q [|? ?]]]; [..|simpl in Hlen; lia].
    + intros i a b Ha. done.
    + apply list_elem_of_singleton in Hr as ->.
      intros [|i] a b [= <-] Hb. apply (inj Some) in Hb as <-.
      by rewrite cross_same_l.
    + intros [|[|i]] a b Ha Hb; [| |done]; simpl in Ha, Hb;
        injection Ha as <-; injection Hb as <-;
        apply elem_of_cons in Hr as [->|Hr];
        try (apply list_elem_of_singleton in Hr as ->);
        by rewrite ?cross_same_lr, ?cross_same_r.
  - destruct (convex_hull_chains points) as (p1 & pn & tL & tU & EL & EU & HL & HU & ->);
      [lia|].
    pose proof (chain_lower_inv points Hex) as IL.
    pose proof (chain_upper_inv points Hex) as IU.
    rewrite EL in IL. rewrite EU in IU.
    intros i a b Ha Hb.
    assert (Hh : head (reverse tL ++ reverse tU) = Some p1).
    { destruct tL as [|z tL] using rev_ind; [done|].
      rewrite last_snoc in HL. injection HL as ->.
      by rewrite reverse_app. }
    pose proof (adjacent_cyclic _ _ _ _ _ Ha Hb Hh) as Hadj.
    rewrite <- app_assoc, <- reverse_cons in Hadj.
    destruct tU as [|z tU _] using rev_ind; [done|].
    rewrite last_snoc in HU. injection HU as ->.
    rewrite app_comm_cons, reverse_app in Hadj. simpl in Hadj.
    apply adjacent_split in Hadj as [Hadj|Hadj].
    + rewrite <- reverse_cons in Hadj. apply adjacent_reverse in Hadj.
      eapply all_left_adjacent; [|exact Hadj].
      by apply (inv_left _ _ _ IL).
    + change (pn :: reverse (p1 :: tU)) with ([pn] ++ reverse (p1 :: tU)) in Hadj.
      rewrite <- (reverse_singleton pn), <- reverse_app in Hadj.
      apply adjacent_reverse in Hadj.
      rewrite <- app_comm_cons in Hadj.
      eapply all_left_adjacent; [|exact Hadj].
      apply (inv_left _ _ _ IU). by apply elem_of_reverse.
Qed.

(** The least and the greatest input point are vertices of the hull: every
    input point is between two vertices in the lexicographic order. *)
Lemma convex_hull_extremes (points : list point) (p : point) :
  p ∈ points →
  ∃ a b, a ∈ convex_hull points ∧ b ∈ convex_hull points
         ∧ point_le a p ∧ point_le p b.
Proof.
  intros Hp. apply elem_of_sorted_set in Hp.
  assert (Hrefl : point_le p p) by (unfold point_le; lia).
  unfold convex_hull. case_bool_decide as Hlen; [by exists p, p|].
  destruct (convex_hull_chains points)
    as (p1 & pn & tL & tU & EL & EU & HL & HU & ->); [lia|].
  pose proof (chain_stack_head (sorted_set points)) as Hhead.
  pose proof (chain_stack_last (sorted_set points)) as Hlast.
  rewrite EL in Hhead, Hlast. simpl in Hhead.
  assert (last (pn :: tL) = Some p1) as E1.
  { destruct tL as [|z tL]; [done|]. by rewrite last_cons_cons. }
  rewrite E1 in Hlast.
  exists p1, pn. split_and!.
  - apply elem_of_app. left. apply elem_of_reverse.
    by apply last_Some_elem_of.
  - apply elem_of_app. right. apply elem_of_reverse.
    by apply last_Some_elem_of.
  - by apply (sorted_head_least (sorted_set points));
      [apply sorted_set_sorted|..].
  - by apply (sorted_last_greatest (sorted_set points));
      [apply sorted_set_sorted|..].
Qed.

(** The hull does not depend on the order or the multiplicity of the
    input points. *)
Lemma convex_hull_ext (l1 l2 : list point) :
  (∀ p, p ∈ l1 ↔ p ∈ l2) → convex_hull l1 = convex_hull l2.
Proof. intros H. unfold convex_hull. by rewrite (sorted_set_ext l1 l2 H). Qed.

(** ** Claims about the geometry kernel *)

Lemma length_sorted_set (points : list point) :
  length (sorted_set points) = distinct_count points.
Proof.
  unfold sorted_set, distinct_count. by rewrite merge_sort_Permutation.
Qed.

(** C5 as stated fails: the cross product is computed in binary64 and
    its rounding can turn a left turn into no turn. The three points
    (0,0), (134217729,134217728), (134217730,134217729) are distinct and
    not on one line; for them [convex_hull] returns the first and the
    last only, and the middle one, an input point, is to the right of
    the edge from the first to the last: it is not on or inside what is
    returned. *)
Lemma C5_counterexample :
  ¬ (∀ points : list point,
       (3 ≤ distinct_count points)%nat →
       (∀ p, p ∈ convex_hull points → p ∈ points)
       ∧ (∀ p, p ∈ points → on_or_inside (convex_hull points) p)
       ∧ (∀ points', points' ≡ₚ points →
            convex_hull points' = convex_hull points)
       ∧ (∀ dups, dups ⊆ points →
            convex_hull (points ++ dups) = convex_hull points)).
Proof.
  intros H.
  specialize (H [pt 0 0; pt 134217729 134217728; pt 134217730 134217729]).
  destruct H as (_ & Hin & _); [vm_compute; lia|].
  specialize (Hin (pt 134217729 134217728)).
  assert (0 ≤ exact_cross (pt 0 0) (pt 134217730 134217729)
                (pt 134217729 134217728)) as Hc.
  { apply (Hin ltac:(rewrite !elem_of_cons; tauto) 0%nat); reflexivity. }
  vm_compute in Hc. by apply Hc.
Qed.

(** C5, amended. For an input with at least 3 distinct points,
    [convex_hull] returns input points only; every input point is
    between two returned points in the lexicographic order; the result
    is the same for every permutation of the input and for every input
    with the same points repeated; and, provided that for every three
    input points the rounded cross product has the sign of the exact
    one ([exact_signs]), every input point is on or inside the returned
    polygon, that is, on or to the left of each of its directed edges,
    the closing edge included. *)
Theorem C5_convex_hull_correct (points : list point) :
  (3 ≤ distinct_count points)%nat →
  (∀ p, p ∈ convex_hull points → p ∈ points)
  ∧ (exact_signs points →
     ∀ p, p ∈ points → on_or_inside (convex_hull points) p)
  ∧ (∀ p, p ∈ points →
       ∃ a b, a ∈ convex_hull points ∧ b ∈ convex_hull points
              ∧ point_le a p ∧ point_le p b)
  ∧ (∀ points', points' ≡ₚ points → convex_hull points' = convex_hull points)
  ∧ (∀ dups, dups ⊆ points →
       convex_hull (points ++ dups) = convex_hull points)
  ∧ (∀ points', (∀ p, p ∈ points' ↔ p ∈ points) →
       convex_hull points' = convex_hull points).
Proof.
  intros _. split_and!.
  - apply convex_hull_subset.
  - intros Hex p. by apply convex_hull_contains.
  - apply convex_hull_extremes.
  - intros points' HP. apply convex_hull_ext. intros p. by rewrite HP.
  - intros dups Hd. apply convex_hull_ext. intros p.
    rewrite elem_of_app. split; [|by left]. intros [?|?]; [done|by apply Hd].
  - intros points' H. by apply convex_hull_ext.
Qed.

Lemma C5_witness :
  (3 ≤ distinct_count [pt 0 0; pt 4 0; pt 4 3; pt 0 3; pt 2 1; pt 4 0])%nat
  ∧ on_or_inside
      (convex_hull [pt 0 0; pt 4 0; pt 4 3; pt 0 3; pt 2 1; pt 4 0]) (pt 2 1)
  ∧ convex_hull [pt 4 0; pt 2 1; pt 0 3; pt 4 3; pt 0 0]
    = convex_hull [pt 0 0; pt 4 0; pt 4 3; pt 0 3; pt 2 1; pt 4 0].
Proof.
  assert (H : (3 ≤ distinct_count
                     [pt 0 0; pt 4 0; pt 4 3; pt 0 3; pt 2 1; pt 4 0])%nat)
    by (vm_compute; lia).
  destruct (C5_convex_hull_correct _ H) as (_ & Hin & _ & _ & _ & Hext).
  split_and!; [exact H| |].
  - apply Hin.
    + apply (bool_decide_unpack _). vm_compute. exact I.
    + rewrite !elem_of_cons. tauto.
  - apply Hext. intros p. rewrite !elem_of_cons, !elem_of_nil. tauto.
Defined.

(** C9 as stated fails: for fewer than 3 distinct points the result is
    not the distinct input points in their original order. For the input
    [(1,0); (0,0)] the result is [(0,0); (1,0)]. *)
Lemma C9_counterexample :
  ¬ (∀ points : list point,
       (distinct_count points < 3)%nat →
       convex_hull points = distinct_in_order points).
Proof.
  intros H. specialize (H [(1,0); (0,0)]).
  assert (Hc : (distinct_count [(1,0); (0,0)]%Z < 3)%nat) by (vm_compute; lia).
  specialize (H Hc). vm_compute in H. discriminate H.
Qed.

(** C9, amended. For an input with fewer than 3 distinct points,
    [convex_hull] returns the distinct input points in ascending
    lexicographic order: the result is [sorted(set(points))], it is
    strictly ascending, and its elements are exactly the input points. *)
Theorem C9_degenerate_sorted (points : list point) :
  (distinct_count points < 3)%nat →
  convex_hull points = sorted_set points
  ∧ StronglySorted point_lt (convex_hull points)
  ∧ (∀ p, p ∈ convex_hull points ↔ p ∈ points)
  ∧ length (convex_hull points) = distinct_count points.
Proof.
  intros Hlt. rewrite <- length_sorted_set in Hlt.
  assert (E : convex_hull points = sorted_set points).
  { unfold convex_hull. by rewrite bool_decide_true. }
  rewrite E. split_and!; [done| | |].
  - apply sorted_set_sorted.
  - apply elem_of_sorted_set.
  - apply length_sorted_set.
Qed.

Lemma C9_witness :
  (distinct_count [(1,0); (0,0); (1,0)]%Z < 3)%nat
  ∧ convex_hull [(1,0); (0,0); (1,0)] = [(0,0); (1,0)].
Proof.
  assert (Hc : (distinct_count [(1,0); (0,0); (1,0)]%Z < 3)%nat)
    by (vm_compute; lia).
  split; [exact Hc|].
  destruct (C9_degenerate_sorted _ Hc) as (E & _). rewrite E.
  vm_compute. reflexivity.
Defined.

(** ** Claims about the job aggregator *)

Lemma sorted_set_nonempty (points : list point) :
  points ≠ [] → sorted_set points ≠ [].
Proof.
  intros Hne Hnil. destruct points as [|p points]; [done|].
  assert (p ∈ sorted_set (p :: points)) as Hp
    by (apply elem_of_sorted_set; left).
  rewrite Hnil in Hp. by apply elem_of_nil in Hp.
Qed.

Lemma convex_hull_nonempty (points : list point) :
  points ≠ [] → convex_hull points ≠ [].
Proof.
  intros Hne. apply sorted_set_nonempty in Hne.
  unfold convex_hull. case_bool_decide as Hlen; [done|].
  destruct (convex_hull_chains points) as (p1 & pn & tL & tU & _ & _ & HL & _ & ->);
    [lia|].
  destruct tL as [|z tL _] using rev_ind; [done|].
  rewrite reverse_app. done.
Qed.

Lemma distinct_count_le_length (points : list point) :
  (distinct_count points ≤ length points)%nat.
Proof.
  unfold distinct_count, size, set_size. simpl.
  apply submseteq_length, NoDup_submseteq; [apply NoDup_elements|].
  intros p. rewrite elem_of_elements. apply elem_of_list_to_set.
Qed.

Lemma elem_of_job_names (df : list row) (job : string) :
  job ∈ job_names df ↔ ∃ r, r ∈ df ∧ job_name r = Text job.
Proof.
  unfold job_names. rewrite merge_sort_Permutation, elem_of_elements.
  rewrite elem_of_list_to_set, list_elem_of_omap. unfold job_text.
  split; intros (r & Hr & Hj); exists r; split; try done.
  - destruct (job_name r); congruence.
  - by rewrite Hj.
Qed.

Lemma NoDup_job_names (df : list row) : NoDup (job_names df).
Proof.
  unfold job_names. rewrite merge_sort_Permutation. apply NoDup_elements.
Qed.

(** What the body of the hull loop does for one job. *)
Lemma job_hull_spec (df : list row) (job : string) :
  ((length (group df job) < 3)%nat ∧ job_hull df job = Some [])
  ∨ ((3 ≤ length (group df job))%nat
     ∧ ∃ h0, head (convex_hull (job_points df job)) = Some h0
         ∧ job_hull df job
           = Some [ {| label := job;
                       ring := convex_hull (job_points df job) ++ [h0] |} ]).
Proof.
  unfold job_hull, job_points. rewrite length_fmap.
  case_bool_decide as Hlen; [by left|]. right. split; [lia|].
  destruct (convex_hull (lon_lat <$> group df job)) as [|h0 hull] eqn:E.
  - exfalso. revert E. apply convex_hull_nonempty.
    destruct (group df job); [simpl in Hlen; lia|done].
  - by exists h0.
Qed.

Lemma job_hull_total (df : list row) (job : string) :
  is_Some (job_hull df job).
Proof.
  destruct (job_hull_spec df job) as [[_ ->]|[_ (h0 & _ & ->)]]; by eexists.
Qed.

Lemma hull_features_total (df : list row) : is_Some (hull_features df).
Proof.
  unfold hull_features. apply fmap_is_Some, mapM_is_Some, Forall_forall.
  intros job _. apply job_hull_total.
Qed.

Lemma elem_of_hull_features (df : list row) (feats : list hull_feature)
    (f : hull_feature) :
  hull_features df = Some feats →
  f ∈ feats ↔ ∃ job fs, job ∈ job_names df ∧ job_hull df job = Some fs ∧ f ∈ fs.
Proof.
  unfold hull_features. intros H.
  apply fmap_Some in H as (ks & Hks & ->). apply mapM_Some in Hks.
  rewrite list_elem_of_join. split.
  - intros (fs & Hf & Hfs).
    apply list_elem_of_lookup in Hfs as (i & Hi).
    destruct (Forall2_lookup_r _ _ _ _ _ Hks Hi) as (job & Hjob & Hjh).
    exists job, fs. split_and!; try done. by eapply list_elem_of_lookup_2.
  - intros (job & fs & Hjob & Hjh & Hf).
    apply list_elem_of_lookup in Hjob as (i & Hi).
    destruct (Forall2_lookup_l _ _ _ _ _ Hks Hi) as (fs' & Hfs' & Hjh').
    rewrite Hjh in Hjh'. injection Hjh' as <-.
    exists fs. split; [done|]. by eapply list_elem_of_lookup_2.
Qed.

(** The features are those of the jobs with at least 3 rows, one each. *)
Lemma hull_features_spec (df : list row) (feats : list hull_feature)
    (f : hull_feature) :
  hull_features df = Some feats →
  f ∈ feats ↔
    (3 ≤ length (group df (label f)))%nat
    ∧ ∃ h0, head (convex_hull (job_points df (label f))) = Some h0
        ∧ ring f = convex_hull (job_points df (label f)) ++ [h0].
Proof.
  intros H. rewrite (elem_of_hull_features df feats f H). split.
  - intros (job & fs & Hjob & Hjh & Hf).
    destruct (job_hull_spec df job) as [[_ E]|[Hlen (h0 & Hh & E)]];
      rewrite E in Hjh; injection Hjh as <-.
    + by apply elem_of_nil in Hf.
    + apply list_elem_of_singleton in Hf as ->. simpl. eauto.
  - intros (Hlen & h0 & Hh & Hring).
    destruct (job_hull_spec df (label f)) as [[Hlt _]|[_ (h0' & Hh' & E)]];
      [lia|].
    exists (label f), [{| label := label f;
                          ring := convex_hull (job_points df (label f)) ++ [h0'] |}].
    split_and!; [|done|].
    + apply elem_of_job_names.
      destruct (group df (label f)) as [|r g] eqn:Eg; [simpl in Hlen; lia|].
      assert (r ∈ group df (label f)) as Hr by (rewrite Eg; left).
      unfold group in Hr. apply list_elem_of_filter in Hr as [? ?]. eauto.
    + rewrite Hh in Hh'. injection Hh' as <-.
      destruct f as [l rg]. simpl in *. subst rg. left.
Qed.

(** Each job has at most one feature. *)
Lemma hull_features_labels (df : list row) (feats : list hull_feature) :
  hull_features df = Some feats → NoDup (label <$> feats).
Proof.
  unfold hull_features. intros H.
  apply fmap_Some in H as (ks & Hks & ->). apply mapM_Some in Hks.
  assert (Hsub : label <$> mjoin ks `sublist_of` job_names df); last first.
  { eapply sublist_NoDup; [apply NoDup_job_names|exact Hsub]. }
  induction Hks as [|job k jobs ks Hjob _ IH]; [done|].
  simpl. rewrite fmap_app.
  destruct (job_hull_spec df job) as [[_ E]|[_ (h0 & _ & E)]];
    rewrite E in Hjob; injection Hjob as <-; simpl.
  - by apply sublist_cons.
  - by apply sublist_skip.
Qed.

(** C2. The code breaks the claim at a job whose rows share one
    coordinate pair: the guard of the loop counts the rows of the group
    ([len(pts) < 3] on the list of all rows), not its distinct pairs.
    Three rows of job J at longitude 5 and latitude 7 have one distinct
    pair, yet the loop emits a feature for J, with the ring
    [(5,7); (5,7)]: two positions, no polygon. *)
Theorem C2_three_rows_one_point :
  distinct_count
    (job_points
       (record_filter MR
          [plain_row "J" [Text "AEP"] 5 7; plain_row "J" [Text "AEP"] 5 7;
           plain_row "J" [Text "AEP"] 5 7]) "J") = 1%nat
  ∧ hull_features
      (record_filter MR
         [plain_row "J" [Text "AEP"] 5 7; plain_row "J" [Text "AEP"] 5 7;
          plain_row "J" [Text "AEP"] 5 7])
    = Some [ {| label := "J"; ring := [pt 5 7; pt 5 7] |} ].
Proof. by vm_compute. Qed.

(** ** Filtering lists *)

Section Filter.

Context {A : Type}.
Implicit Types (P Q : A → Prop) (l : list A).

Lemma filter_ext_elem_of P Q `{!∀ x, Decision (P x), !∀ x, Decision (Q x)} l :
  (∀ x, x ∈ l → (P x ↔ Q x)) → filter P l = filter Q l.
Proof.
  induction l as [|a l IH]; intros Hl; [done|].
  assert (filter P l = filter Q l) as IH'.
  { apply IH. intros x Hx. apply Hl. by right. }
  destruct (decide (P a)) as [Ha|Ha].
  - rewrite !filter_cons_True; [by rewrite IH'|by apply Hl; [left|]|done].
  - rewrite !filter_cons_False; [done| |done].
    intros Hq. apply Ha, Hl; [left|done].
Qed.

Lemma filter_all P `{!∀ x, Decision (P x)} l :
  (∀ x, x ∈ l → P x) → filter P l = l.
Proof.
  induction l as [|a l IH]; intros Hl; [done|].
  rewrite filter_cons_True by (apply Hl; left).
  f_equal. apply IH. intros x Hx. apply Hl. by right.
Qed.

Lemma filter_idemp P `{!∀ x, Decision (P x)} l :
  filter P (filter P l) = filter P l.
Proof.
  apply filter_all. intros x Hx. by apply list_elem_of_filter in Hx as [? _].
Qed.

Lemma StronglySorted_filter (R : relation A) P `{!∀ x, Decision (P x)} l :
  StronglySorted R l → StronglySorted R (filter P l).
Proof.
  induction 1 as [|a l Hs IH Hall]; [constructor|].
  rewrite filter_cons. case_decide; [|done].
  constructor; [done|]. apply Forall_forall. intros x Hx.
  apply list_elem_of_filter in Hx as [_ Hx].
  rewrite Forall_forall in Hall. by apply Hall.
Qed.

End Filter.

(** ** Claims about the classifier and the colour table *)

(** *** [str.strip] *)

Lemma lstrip_fixed (s : string) :
  (∀ c t, s = String c t → is_space c = false) → lstrip s = s.
Proof.
  destruct s as [|c t]; [done|]. intros H. simpl. by rewrite (H c t).
Qed.

Lemma lstrip_head (s : string) (c : ascii) (t : string) :
  lstrip s = String c t → is_space c = false.
Proof.
  induction s as [|d s IH]; [done|]. simpl.
  destruct (is_space d) eqn:E; [done|]. by intros [= <- _].
Qed.

Lemma rstrip_head (s : string) (c : ascii) (t : string) :
  (∀ d u, s = String d u → is_space d = false) →
  rstrip s = String c t → is_space c = false.
Proof.
  destruct s as [|d u]; [done|]. intros H. simpl.
  pose proof (H d u eq_refl) as Hd. rewrite Hd.
  destruct (rstrip u); by intros [= <- _].
Qed.

Lemma rstrip_idemp (s : string) : rstrip (rstrip s) = rstrip s.
Proof.
  induction s as [|c s IH]; [done|]. simpl.
  destruct (rstrip s) as [|d u] eqn:E.
  - destruct (is_space c) eqn:Ec; [done|]. simpl. by rewrite Ec.
  - simpl in *. by rewrite IH.
Qed.

Lemma strip_idemp (s : string) : strip (strip s) = strip s.
Proof.
  unfold strip. rewrite (lstrip_fixed (rstrip (lstrip s))).
  - apply rstrip_idemp.
  - intros c t E. eapply rstrip_head; [|exact E].
    intros d u. apply lstrip_head.
Qed.

Lemma canon_strip (s : string) : canon (strip s) = canon s.
Proof. unfold canon. by rewrite strip_idemp. Qed.

Lemma lower_canon_not_nan (s : string) :
  lower (canon s) ≠ "nan" → lower (strip s) ≠ "nan".
Proof.
  unfold canon. case_bool_decide as Hm; [|done].
  intros _ E. rewrite E in Hm. revert Hm. rewrite !elem_of_cons, elem_of_nil.
  intros [?|[?|[]]]; discriminate.
Qed.

(** *** The classifier *)

Lemma classify_utility (r : row) :
  classify Utility r
  = match filter (λ c, present c) (company_cells r) with
    | [] => NoCompany
    | [c] => SingleCompany (canon (py_str c))
    | _ :: _ :: _ => MultiCompany
    end.
Proof.
  unfold classify, companies, raw_comps.
  by destruct (filter (λ c, present c) (company_cells r)) as [|c [|c' l]].
Qed.

(** C1 as stated fails: a row whose two company cells hold the same
    company has one distinct canonical company, yet it is classified
    [MultiCompany]. The row has the company cells AEP and AEP. *)
Lemma C1_counterexample :
  ¬ (∀ r : row,
       classify Utility r = MultiCompany
       ↔ (1 < size (distinct_companies r))%nat).
Proof.
  intros H.
  destruct (H (plain_row "J" [Text "AEP"; Text "AEP"] 0 0)) as [H1 _].
  specialize (H1 eq_refl). vm_compute in H1. lia.
Qed.

(** C1, amended. In Utility mode the category of a row is decided by the
    number of its non-empty company cells, repeated names counted as often
    as they occur: [MultiCompany] exactly when there is more than one such
    cell, [SingleCompany name] exactly when there is one, [name] being
    its canonical name, and [NoCompany] exactly when there is none. *)
Theorem C1_classify_by_cell_count (r : row) :
  (classify Utility r = MultiCompany
   ↔ (1 < length (filter (λ c, present c) (company_cells r)))%nat)
  ∧ (∀ name, classify Utility r = SingleCompany name
             ↔ ∃ c, filter (λ c, present c) (company_cells r) = [c]
                    ∧ name = canon (py_str c))
  ∧ (classify Utility r = NoCompany
     ↔ filter (λ c, present c) (company_cells r) = []).
Proof.
  rewrite classify_utility.
  destruct (filter (λ c, present c) (company_cells r)) as [|c [|c' l]];
    simpl; split_and!; try (split; (done || lia)).
  - intros name. split; [intros [= <-]|]; eauto.
    by intros (c & [=] & _).
  - intros name. split; [intros [= <-]; eauto|].
    by intros (c0 & [= <-] & ->).
  - intros name. split; [done|]. by intros (c0 & [=] & _).
Qed.

(** *** The colour table *)

Lemma elem_of_uniq (df : list row) (c : string) : c ∈ uniq df ↔ c ∈ comps df.
Proof.
  unfold uniq. rewrite merge_sort_Permutation, elem_of_elements.
  apply elem_of_list_to_set.
Qed.

Lemma NoDup_uniq (df : list row) : NoDup (uniq df).
Proof. unfold uniq. rewrite merge_sort_Permutation. apply NoDup_elements. Qed.

Lemma uniq_sorted (df : list row) : StronglySorted str_lt (uniq df).
Proof.
  assert (H : ∀ l, StronglySorted String.le l → NoDup l →
                   StronglySorted str_lt l).
  { induction 1 as [|x l Hs IH Hall]; intros Hnd; constructor.
    - apply IH. by inversion Hnd.
    - apply Forall_forall. intros y Hy. rewrite Forall_forall in Hall.
      split; [by apply Hall|]. intros ->. by inversion Hnd. }
  apply H; [|apply NoDup_uniq].
  unfold uniq. apply StronglySorted_merge_sort; apply _.
Qed.

(** The loop over a list without repetitions gives the names that are
    not yet in the table the palette colours in the order of the list,
    and leaves the other keys alone. *)
Lemma foldl_assign_color (l : list string) (m : gmap string string) (idx : nat) :
  NoDup l →
  (∀ i name, filter (λ c, m !! c = None) l !! i = Some name →
     (foldl assign_color (m, idx) l).1 !! name = Some (palette_at (idx + i)))
  ∧ (∀ k, k ∉ filter (λ c, m !! c = None) l →
       (foldl assign_color (m, idx) l).1 !! k = m !! k).
Proof.
  revert m idx. induction l as [|c l IH]; intros m idx Hnd.
  - split; [by intros i name|done].
  - apply NoDup_cons in Hnd as [Hc Hnd]. simpl.
    destruct (m !! c) as [v|] eqn:E.
    + rewrite filter_cons_False by (rewrite E; done).
      apply IH, Hnd.
    + rewrite filter_cons_True by done.
      assert (Hf : filter (λ c0, <[c:=palette_at idx]> m !! c0 = None) l
                   = filter (λ c0, m !! c0 = None) l).
      { apply filter_ext_elem_of. intros x Hx.
        rewrite lookup_insert_ne; [done|]. by intros ->. }
      destruct (IH (<[c:=palette_at idx]> m) (S idx) Hnd) as [IH1 IH2].
      rewrite Hf in IH1, IH2. split.
      * intros [|i] name Hi.
        -- injection Hi as <-. rewrite IH2.
           ++ rewrite lookup_insert_eq. by rewrite Nat.add_0_r.
           ++ intros Hin. apply list_elem_of_filter in Hin as [_ Hin]. done.
        -- simpl in Hi. rewrite (IH1 i name Hi). f_equal. f_equal. lia.
      * intros k Hk. rewrite not_elem_of_cons in Hk. destruct Hk as [Hkc Hk].
        rewrite (IH2 k Hk). by rewrite lookup_insert_ne.
Qed.

Lemma build_comp_color_unknown (df : list row) (i : nat) (name : string) :
  unknown_names df !! i = Some name →
  build_comp_color df !! name = Some (palette_at i).
Proof.
  intros Hi. unfold build_comp_color.
  destruct (foldl_assign_color (uniq df) known_colors 0 (NoDup_uniq df))
    as [H _].
  by apply (H i name).
Qed.

Lemma build_comp_color_known (df : list row) (k v : string) :
  known_colors !! k = Some v → build_comp_color df !! k = Some v.
Proof.
  intros Hk. unfold build_comp_color.
  destruct (foldl_assign_color (uniq df) known_colors 0 (NoDup_uniq df))
    as [_ H].
  rewrite H; [done|]. intros Hin.
  apply list_elem_of_filter in Hin as [Hin _]. congruence.
Qed.

Lemma elem_of_unknown_names (df : list row) (name : string) :
  name ∈ unknown_names df ↔ name ∈ comps df ∧ known_colors !! name = None.
Proof.
  unfold unknown_names. rewrite list_elem_of_filter, elem_of_uniq. tauto.
Qed.

Lemma build_comp_color_keys (df : list row) (name : string) :
  is_Some (build_comp_color df !! name)
  ↔ is_Some (known_colors !! name) ∨ name ∈ comps df.
Proof.
  destruct (known_colors !! name) as [v|] eqn:Ek.
  - rewrite (build_comp_color_known df name v Ek). split; eauto.
  - split.
    + intros Hs. right. destruct (decide (name ∈ comps df)) as [|Hn]; [done|].
      exfalso. unfold build_comp_color in Hs.
      destruct (foldl_assign_color (uniq df) known_colors 0 (NoDup_uniq df))
        as [_ H].
      rewrite H, Ek in Hs; [by destruct Hs|].
      intros Hin. apply elem_of_unknown_names in Hin as [? _]. done.
    + intros [[? [=]]|Hin].
      assert (name ∈ unknown_names df) as Hu
        by by apply elem_of_unknown_names.
      apply list_elem_of_lookup in Hu as (i & Hi).
      rewrite (build_comp_color_unknown df i name Hi). eauto.
Qed.

(** C3 as stated fails: with "Zeta" met before "Alpha" the table is not
    the one that first-seen order gives; "Zeta" gets the second palette
    colour (darkblue), not the first (blue), which goes to "Alpha". *)
Lemma C3_counterexample :
  ¬ (∀ df0 : list row,
       build_comp_color (record_filter Utility df0)
       = first_seen_colors (record_filter Utility df0)).
Proof.
  intros H.
  specialize (H [plain_row "J" [Text "Zeta"] 0 0;
                 plain_row "J" [Text "Alpha"] 0 1]).
  apply (f_equal (λ m : gmap string string, m !! "Zeta")) in H.
  vm_compute in H. discriminate H.
Qed.

(** C3, amended. In the colour table of a Utility run the four known
    companies keep their fixed colours, and the other canonical names of
    the data receive the palette colours, cyclically, in ascending order
    of the names by character code (the order of [sorted]), whatever the
    order in which the scan met them: the name at position [i] of the
    ascending list of unknown names gets [PALETTE[i % len(PALETTE)]]. The
    table has no other keys. *)
Theorem C3_colors_in_sorted_order (df : list row) :
  build_comp_color df !! "Magic Valley Electric Coop" = Some "#98ff98"
  ∧ build_comp_color df !! "AEP" = Some "orange"
  ∧ build_comp_color df !! "Brownsville Public Utilities" = Some "aqua"
  ∧ build_comp_color df !! "Central Bradford PA" = Some "yellow"
  ∧ (∀ i name, unknown_names df !! i = Some name →
       build_comp_color df !! name = Some (palette_at i))
  ∧ StronglySorted str_lt (unknown_names df)
  ∧ (∀ name, name ∈ unknown_names df
             ↔ name ∈ comps df ∧ known_colors !! name = None)
  ∧ (∀ name, is_Some (build_comp_color df !! name)
             ↔ is_Some (known_colors !! name) ∨ name ∈ comps df).
Proof.
  split_and!; try (by apply build_comp_color_known).
  - apply build_comp_color_unknown.
  - unfold unknown_names. apply StronglySorted_filter, uniq_sorted.
  - apply elem_of_unknown_names.
  - apply build_comp_color_keys.
Qed.

Lemma C3_witness :
  unknown_names [plain_row "J" [Text "Zeta"] 0 0;
                 plain_row "J" [Text "Alpha"; Text "AEP"] 0 1] !! 1%nat
  = Some "Zeta"
  ∧ build_comp_color [plain_row "J" [Text "Zeta"] 0 0;
                      plain_row "J" [Text "Alpha"; Text "AEP"] 0 1] !! "Zeta"
    = Some "darkblue".
Proof.
  assert (H : unknown_names [plain_row "J" [Text "Zeta"] 0 0;
                 plain_row "J" [Text "Alpha"; Text "AEP"] 0 1] !! 1%nat
              = Some "Zeta") by (vm_compute; reflexivity).
  split; [exact H|].
  destruct (C3_colors_in_sorted_order
              [plain_row "J" [Text "Zeta"] 0 0;
               plain_row "J" [Text "Alpha"; Text "AEP"] 0 1])
    as (_ & _ & _ & _ & Hu & _).
  exact (Hu 1%nat "Zeta" H).
Defined.

(** *** The colour of a single company *)

Lemma single_company_in_comps (df : list row) (r : row) (name : string) :
  r ∈ df → classify Utility r = SingleCompany name →
  lower name ≠ "nan" → name ∈ comps df.
Proof.
  intros Hr Hc Hn. rewrite classify_utility in Hc.
  destruct (filter (λ c, present c) (company_cells r)) as [|c [|c' l]] eqn:E;
    try done.
  injection Hc as <-.
  assert (c ∈ filter (λ c, present c) (company_cells r)) as Hin
    by (rewrite E; left).
  apply list_elem_of_filter in Hin as [Hp Hin].
  unfold present in Hp. apply andb_prop_elim in Hp as [_ Hne].
  unfold comps. apply list_elem_of_In, in_flat_map. exists r.
  split; [by apply list_elem_of_In|].
  unfold row_comps. apply in_flat_map. exists c.
  split; [by apply list_elem_of_In|].
  apply Is_true_true in Hne. rewrite Hne. simpl.
  rewrite bool_decide_false by by apply lower_canon_not_nan.
  simpl. left. apply canon_strip.
Qed.

(** C10 as stated fails: a row whose only company cell reads "NAN" is
    classified [SingleCompany "NAN"], and the table has no such key. *)
Lemma C10_counterexample :
  ¬ (∀ (df0 : list row) (r : row) (name : string),
       r ∈ record_filter Utility df0 →
       classify Utility r = SingleCompany name →
       is_Some (build_comp_color (record_filter Utility df0) !! name)).
Proof.
  intros H.
  specialize (H [plain_row "J" [Text "NAN"] 0 0]
                (plain_row "J" [Text "NAN"] 0 0) "NAN").
  destruct H as [c Hc].
  - vm_compute. left.
  - reflexivity.
  - vm_compute in Hc. discriminate Hc.
Qed.

Lemma lower_canon_nan (s : string) :
  lower (canon s) = "nan" → lower (strip s) = "nan".
Proof. unfold canon. by case_bool_decide. Qed.

Lemma lower_strip_nan_canon (s : string) :
  lower (strip s) = "nan" → canon s = strip s.
Proof.
  intros E. unfold canon. rewrite E. by rewrite bool_decide_false
    by (rewrite !elem_of_cons, elem_of_nil; intros [?|[?|[]]]; discriminate).
Qed.

(** No key of the colour table reads "nan" in any letter case: the four
    fixed names do not, and the scan of lines 90-95 skips such cells. *)
Lemma build_comp_color_no_nan (df : list row) (name : string) :
  lower name = "nan" → build_comp_color df !! name = None.
Proof.
  intros Hn. apply eq_None_not_Some. rewrite build_comp_color_keys.
  intros [[c Hk]|Hc].
  - unfold known_colors in Hk. apply elem_of_list_to_map_2 in Hk.
    revert Hk. rewrite !elem_of_cons, elem_of_nil.
    intros [E|[E|[E|[E|[]]]]]; injection E as -> _; discriminate Hn.
  - unfold comps in Hc. apply list_elem_of_In, in_flat_map in Hc.
    destruct Hc as (r & _ & Hc). unfold row_comps in Hc.
    apply in_flat_map in Hc.
    destruct Hc as (c & _ & Hc). cbv zeta in Hc.
    destruct (nonempty (strip (py_str c))); simpl in Hc; [|done].
    case_bool_decide as Hl; simpl in Hc; [done|].
    destruct Hc as [<-|[]].
    rewrite canon_strip in Hn. by apply lower_canon_nan in Hn.
Qed.

(** C10, amended. In Utility mode, for every record classified
    [SingleCompany name] whose name is not "nan" in any letter case, the
    name is a key of the colour table built from the same filtered rows,
    and the marker gets the colour of that entry, not the default. A cell
    that reads "nan" is skipped when the table is built but counted when
    the record is classified: a record whose only non-empty company cell
    reads "nan" in some letter case is classified [SingleCompany] with
    that text as its name, the name is not a key of the table, and the
    marker gets the default colour [PALETTE[0]]; the same holds of every
    record classified [SingleCompany name] with such a name. *)
Theorem C10_single_company_has_color (df0 : list row) (r : row) :
  r ∈ record_filter Utility df0 →
  (∀ name, classify Utility r = SingleCompany name → lower name ≠ "nan" →
     ∃ color,
       build_comp_color (record_filter Utility df0) !! name = Some color
       ∧ m_color (make_marker Utility
                    (build_comp_color (record_filter Utility df0)) r)
         = Some color)
  ∧ (∀ c, filter (λ c, present c) (company_cells r) = [c] →
       lower (strip (py_str c)) = "nan" →
       classify Utility r = SingleCompany (strip (py_str c)))
  ∧ (∀ name, classify Utility r = SingleCompany name → lower name = "nan" →
       build_comp_color (record_filter Utility df0) !! name = None
       ∧ m_color (make_marker Utility
                    (build_comp_color (record_filter Utility df0)) r)
         = Some (palette_at 0)).
Proof.
  intros Hr. split; [|split].
  - intros name Hc Hn.
    pose proof (single_company_in_comps _ r name Hr Hc Hn) as Hin.
    destruct (proj2 (build_comp_color_keys (record_filter Utility df0) name))
      as [color Hcolor]; [by right|].
    exists color. split; [done|].
    unfold make_marker. cbn [m_color]. rewrite Hc.
    cbn [category_color]. by rewrite Hcolor.
  - intros c Hc Hn. rewrite classify_utility, Hc.
    by rewrite lower_strip_nan_canon.
  - intros name Hc Hn.
    pose proof (build_comp_color_no_nan (record_filter Utility df0) name Hn)
      as Hk.
    split; [done|].
    unfold make_marker. cbn [m_color]. rewrite Hc.
    cbn [category_color]. by rewrite Hk.
Qed.

Lemma C10_witness :
  (∃ color,
     build_comp_color
       (record_filter Utility
          [plain_row "J" [Text " Acme "] 0 0; plain_row "K" [Text " NaN "] 1 1])
       !! "Acme" = Some color
     ∧ m_color (make_marker Utility
                  (build_comp_color
                     (record_filter Utility
                        [plain_row "J" [Text " Acme "] 0 0;
                         plain_row "K" [Text " NaN "] 1 1]))
                  (plain_row "J" [Text " Acme "] 0 0))
       = Some color)
  ∧ classify Utility (plain_row "K" [Text " NaN "] 1 1) = SingleCompany "NaN"
  ∧ build_comp_color
      (record_filter Utility
         [plain_row "J" [Text " Acme "] 0 0; plain_row "K" [Text " NaN "] 1 1])
      !! "NaN" = None
  ∧ m_color (make_marker Utility
               (build_comp_color
                  (record_filter Utility
                     [plain_row "J" [Text " Acme "] 0 0;
                      plain_row "K" [Text " NaN "] 1 1]))
               (plain_row "K" [Text " NaN "] 1 1))
    = Some (palette_at 0).
Proof.
  assert (plain_row "J" [Text " Acme "] 0 0
          ∈ record_filter Utility
              [plain_row "J" [Text " Acme "] 0 0;
               plain_row "K" [Text " NaN "] 1 1]) as Hj
    by (vm_compute; left).
  assert (plain_row "K" [Text " NaN "] 1 1
          ∈ record_filter Utility
              [plain_row "J" [Text " Acme "] 0 0;
               plain_row "K" [Text " NaN "] 1 1]) as Hk
    by (vm_compute; right; left).
  destruct (C10_single_company_has_color _ _ Hj) as (A & _ & _).
  destruct (C10_single_company_has_color _ _ Hk) as (_ & B & C).
  split; [apply (A "Acme"); [reflexivity|vm_compute; discriminate]|].
  split; [apply (B (Text " NaN ")); reflexivity|].
  apply (C "NaN"); reflexivity.
Defined.

(** ** Claims about the record filter *)

Lemma elem_of_basic_filter (df : list row) (r : row) :
  r ∈ basic_filter df
  ↔ r ∈ df ∧ ¬ is_copy r ∧ is_pole r ∧ has_position r ∧ scid_is_number r.
Proof.
  unfold basic_filter. rewrite !list_elem_of_filter.
  destruct (is_copy r); simpl; tauto.
Qed.

Lemma basic_filter_all (df : list row) :
  (∀ r, r ∈ df → ¬ is_copy r ∧ is_pole r ∧ has_position r ∧ scid_is_number r) →
  basic_filter df = df.
Proof.
  intros H. unfold basic_filter.
  rewrite (filter_all (λ r, negb (is_copy r)) df).
  - rewrite (filter_all (λ r, is_pole r) df) by (intros r Hr; by apply H).
    rewrite (filter_all (λ r, has_position r) df) by (intros r Hr; by apply H).
    apply filter_all. intros r Hr. by apply H.
  - intros r Hr. destruct (H r Hr) as [Hc _]. by destruct (is_copy r).
Qed.

(** The test of the Utility branch, row by row: a row is kept when it is
    a PLA row, or when no PLA row of the frame has its base name. *)
Lemma pla_keep_iff (df : list row) (r : row) :
  (bool_decide (base_job r ∈ remove_dups (base_job <$> filter (λ r, is_pla r) df))
   && is_pla r)
  || negb (bool_decide
             (base_job r ∈ remove_dups (base_job <$> filter (λ r, is_pla r) df)))
  ↔ is_pla r ∨ ¬ ∃ r', r' ∈ df ∧ is_pla r' ∧ base_job r' = base_job r.
Proof.
  assert (Hin : base_job r ∈ remove_dups (base_job <$> filter (λ r, is_pla r) df)
                ↔ ∃ r', r' ∈ df ∧ is_pla r' ∧ base_job r' = base_job r).
  { rewrite elem_of_remove_dups, list_elem_of_fmap.
    split.
    - intros (r' & E & Hr'). apply list_elem_of_filter in Hr' as [? ?].
      exists r'. by split_and!.
    - intros (r' & Hr' & Hp & E). exists r'. split; [done|].
      by apply list_elem_of_filter. }
  case_bool_decide as Hm; simpl.
  - rewrite Hin in Hm. destruct (is_pla r); simpl; [tauto|].
    split; [done|]. intros [[]|Hn]. by apply Hn.
  - rewrite Hin in Hm. tauto.
Qed.

Lemma elem_of_pla_filter_utility (df : list row) (r : row) :
  r ∈ pla_filter Utility df
  ↔ r ∈ df
    ∧ (is_pla r ∨ ¬ ∃ r', r' ∈ df ∧ is_pla r' ∧ base_job r' = base_job r).
Proof.
  unfold pla_filter. rewrite list_elem_of_filter, pla_keep_iff. tauto.
Qed.

Lemma pla_filter_utility_all (df : list row) :
  (∀ r, r ∈ df →
     is_pla r ∨ ¬ ∃ r', r' ∈ df ∧ is_pla r' ∧ base_job r' = base_job r) →
  pla_filter Utility df = df.
Proof.
  intros H. unfold pla_filter. apply filter_all.
  intros r Hr. apply pla_keep_iff. by apply H.
Qed.

Lemma elem_of_pla_filter_mr (df : list row) (r : row) :
  r ∈ pla_filter MR df ↔ r ∈ df ∧ ¬ is_pla r.
Proof.
  unfold pla_filter. rewrite list_elem_of_filter.
  destruct (is_pla r); simpl; tauto.
Qed.

Lemma elem_of_company_filter (mode : view_mode) (df : list row) (r : row) :
  r ∈ company_filter mode df
  ↔ r ∈ df ∧ (mode = Utility → ¬ excluded_company r).
Proof.
  destruct mode; simpl.
  - split; [by intros ?; split|tauto].
  - rewrite list_elem_of_filter. destruct (excluded_company r); simpl.
    + split; [tauto|]. intros [_ H]. by destruct H.
    + split; [|tauto]. intros [_ ?]. split; [done|tauto].
Qed.

Lemma company_filter_all (mode : view_mode) (df : list row) :
  (∀ r, r ∈ df → mode = Utility → ¬ excluded_company r) →
  company_filter mode df = df.
Proof.
  intros H. destruct mode; [done|]. simpl. apply filter_all.
  intros r Hr. specialize (H r Hr eq_refl). by destruct (excluded_company r).
Qed.

(** When every row passes the tests that look at one row only, what is
    left of the filter is the PLA rule. *)
Lemma record_filter_row_ok (mode : view_mode) (df : list row) :
  (∀ r, r ∈ df → row_ok mode r) →
  record_filter mode df = pla_filter mode df.
Proof.
  intros H. unfold record_filter. rewrite basic_filter_all.
  - apply company_filter_all. intros r Hr.
    assert (r ∈ df) as Hdf.
    { destruct mode.
      - by apply elem_of_pla_filter_mr in Hr as [? _].
      - by apply elem_of_pla_filter_utility in Hr as [? _]. }
    apply (H r Hdf).
  - intros r Hr. destruct (H r Hr) as (? & ? & ? & ? & _). done.
Qed.

(** C6. The record filter is idempotent in both view modes: applied to
    its own output it returns that output, row for row. *)
Theorem C6_record_filter_idempotent (mode : view_mode) (df : list row) :
  record_filter mode (record_filter mode df) = record_filter mode df.
Proof.
  set (X := record_filter mode df).
  assert (HX : ∀ r, r ∈ X →
            r ∈ pla_filter mode (basic_filter df)
            ∧ (mode = Utility → ¬ excluded_company r)).
  { intros r Hr. by apply elem_of_company_filter in Hr. }
  assert (Hbasic : basic_filter X = X).
  { apply basic_filter_all. intros r Hr. apply HX in Hr as [Hr _].
    assert (r ∈ basic_filter df) as Hb.
    { destruct mode.
      - by apply elem_of_pla_filter_mr in Hr as [? _].
      - by apply elem_of_pla_filter_utility in Hr as [? _]. }
    apply elem_of_basic_filter in Hb. tauto. }
  assert (Hpla : pla_filter mode X = X).
  { destruct mode.
    - apply filter_all. intros r Hr. apply HX in Hr as [Hr _].
      apply elem_of_pla_filter_mr in Hr as [_ Hr]. by destruct (is_pla r).
    - apply pla_filter_utility_all. intros r Hr.
      destruct (HX r Hr) as [Hr' _].
      apply elem_of_pla_filter_utility in Hr' as [_ [Hp|Hn]]; [by left|].
      right. intros (r' & Hr' & Hp & E). apply Hn. exists r'.
      split_and!; try done. apply HX in Hr' as [Hr' _].
      by apply elem_of_pla_filter_utility in Hr' as [? _]. }
  unfold record_filter at 1. fold X. rewrite Hbasic, Hpla.
  apply company_filter_all. intros r Hr. by apply HX.
Qed.

(** *** Names and their PLA variants *)

Lemma append_String (c : ascii) (s t : string) :
  String c s +:+ t = String c (s +:+ t).
Proof. reflexivity. Qed.

Lemma search_from_cons (m : matcher) (prev : option ascii) (c : ascii)
    (t : string) :
  search_from m prev (String c t)
  = bool_decide (is_Some (m prev (String c t))) || search_from m (Some c) t.
Proof. reflexivity. Qed.

Lemma spaces_then_cons (m : matcher) (prev : option ascii) (c : ascii)
    (t : string) :
  spaces_then m prev (String c t)
  = if is_space c then
      match spaces_then m (Some c) t with
      | Some rest => Some rest
      | None => m prev (String c t)
      end
    else m prev (String c t).
Proof. reflexivity. Qed.

Lemma delete_from_cons (m : matcher) (prev : option ascii) (c : ascii)
    (t : string) :
  delete_from m 0 prev (String c t)
  = match m prev (String c t) with
    | Some rest =>
        delete_from m (String.length (String c t) - String.length rest - 1)
          (Some c) t
    | None => String c (delete_from m 0 (Some c) t)
    end.
Proof. reflexivity. Qed.

(** Every name followed by [" PLA"] has the token. *)
Lemma search_pla_suffix (n : string) (prev : option ascii) :
  search_from (word_token "PLA") prev (n +:+ " PLA") = true.
Proof.
  revert prev. induction n as [|c n IH]; intros prev.
  - change ("" +:+ " PLA") with " PLA". rewrite search_from_cons.
    apply orb_true_iff. right. reflexivity.
  - rewrite append_String, search_from_cons, IH. apply orb_true_r.
Qed.

(** Where [\s*\bPLA\b] matches, [\bPLA\b] matches there or further on. *)
Lemma spaces_then_search (m : matcher) (s : string) (prev : option ascii) :
  is_Some (spaces_then m prev s) → search_from m prev s = true.
Proof.
  revert prev. induction s as [|c t IH]; intros prev H.
  - simpl in *. rewrite bool_decide_true by done. done.
  - rewrite spaces_then_cons in H. rewrite search_from_cons.
    apply orb_true_iff. destruct (is_space c).
    + destruct (spaces_then m (Some c) t) as [r|] eqn:E.
      * right. apply IH. rewrite E. by eexists.
      * left. by apply bool_decide_eq_true.
    + left. by apply bool_decide_eq_true.
Qed.

Lemma search_from_false (m : matcher) (c : ascii) (t : string)
    (prev : option ascii) :
  search_from m prev (String c t) = false →
  m prev (String c t) = None ∧ search_from m (Some c) t = false.
Proof.
  rewrite search_from_cons. intros H. apply orb_false_iff in H as [H1 H2].
  split; [|done]. apply bool_decide_eq_false in H1.
  destruct (m prev (String c t)); [|done]. exfalso. apply H1. by eexists.
Qed.

(** Nothing is deleted from a name without the token. *)
Lemma delete_from_plain (m : matcher) (s : string) (prev : option ascii) :
  search_from m prev s = false → delete_from (spaces_then m) 0 prev s = s.
Proof.
  revert prev. induction s as [|c t IH]; intros prev H; [done|].
  pose proof H as H'. apply search_from_false in H' as [_ Ht].
  rewrite delete_from_cons.
  destruct (spaces_then m prev (String c t)) as [r|] eqn:E.
  - assert (search_from m prev (String c t) = true) as Hs.
    { apply spaces_then_search. rewrite E. by eexists. }
    congruence.
  - f_equal. by apply IH.
Qed.

Lemma rstrip_tail (c : ascii) (t : string) :
  rstrip (String c t) = String c t →
  rstrip t = t ∧ (t = "" → is_space c = false).
Proof.
  cbn [rstrip]. destruct (rstrip t) as [|c' t'] eqn:E.
  - destruct (is_space c) eqn:Ec; [done|]. intros [= <-]. done.
  - intros [= <-]. split; [done|]. intros Hn. by rewrite Hn in E.
Qed.

(** The token does not match at a place of a name where it does not
    match once [" PLA"] is put after the name. *)
Lemma word_token_suffix (s : string) (prev : option ascii) :
  s ≠ "" → word_token "PLA" prev s = None →
  word_token "PLA" prev (s +:+ " PLA") = None.
Proof.
  intros Hne. unfold word_token.
  assert (head_char (s +:+ " PLA") = head_char s) as ->
    by (by destruct s).
  destruct (boundary prev (head_char s)); [|done].
  destruct s as [|c1 [|c2 [|c3 s3]]]; [done|..];
    rewrite ?append_String; cbn [literal_ci].
  - destruct (bool_decide (lower_ascii "P" = lower_ascii c1)); done.
  - destruct (bool_decide (lower_ascii "P" = lower_ascii c1)); [|done].
    destruct (bool_decide (lower_ascii "L" = lower_ascii c2)); done.
  - destruct (bool_decide (lower_ascii "P" = lower_ascii c1)); [|done].
    destruct (bool_decide (lower_ascii "L" = lower_ascii c2)); [|done].
    destruct (bool_decide (lower_ascii "A" = lower_ascii c3)); [|done].
    assert (boundary (Some c3) (head_char (s3 +:+ " PLA"))
            = boundary (Some c3) (head_char s3)) as ->
      by (by destruct s3).
    by destruct (boundary (Some c3) (head_char s3)).
Qed.

Lemma spaces_then_suffix (s : string) (prev : option ascii) :
  s ≠ "" → rstrip s = s → search_from (word_token "PLA") prev s = false →
  spaces_then (word_token "PLA") prev (s +:+ " PLA") = None.
Proof.
  revert prev. induction s as [|c t IH]; intros prev Hne Hr Hs; [done|].
  apply search_from_false in Hs as [Hw Hs].
  apply rstrip_tail in Hr as [Hr Hc].
  assert (word_token "PLA" prev (String c t +:+ " PLA") = None) as Hw'
    by by apply word_token_suffix.
  rewrite append_String in *. rewrite spaces_then_cons.
  destruct (is_space c) eqn:Ec; [|done].
  rewrite IH; [done| |done|done].
  intros ->. by specialize (Hc eq_refl).
Qed.

(** The name comes back when its variant loses the token. *)
Lemma delete_from_variant (s : string) (prev : option ascii) :
  rstrip s = s → search_from (word_token "PLA") prev s = false →
  delete_from (spaces_then (word_token "PLA")) 0 prev (s +:+ " PLA") = s.
Proof.
  revert prev. induction s as [|c t IH]; intros prev Hr Hs; [done|].
  pose proof (spaces_then_suffix (String c t) prev ltac:(done) Hr Hs) as E.
  apply search_from_false in Hs as [_ Hs].
  apply rstrip_tail in Hr as [Hr _].
  rewrite append_String in *. rewrite delete_from_cons, E.
  f_equal. by apply IH.
Qed.

Lemma plain_row_facts (n : string) (r : row) :
  plain_name n → job_name r = Text n →
  ¬ is_pla r ∧ base_job r = Text n.
Proof.
  intros [Hs Hr] E. unfold is_pla, job_contains, base_job. rewrite E. split.
  - rewrite Hs. intros H. exact H.
  - f_equal. by apply delete_from_plain.
Qed.

Lemma variant_row_facts (n : string) (r : row) :
  plain_name n → job_name r = Text (n +:+ " PLA") →
  is_pla r ∧ base_job r = Text n.
Proof.
  intros [Hs Hr] E. unfold is_pla, job_contains, base_job. rewrite E. split.
  - unfold search. by rewrite search_pla_suffix.
  - f_equal. by apply delete_from_variant.
Qed.

(** C4. The PLA rule, for every job name [n] that has no standalone PLA
    token and no white space at its end, and its variant [n PLA], on
    rows that pass the other tests of the filter. In Utility mode, of an
    input made of rows named [n] and rows named [n PLA], with at least
    one of these, exactly the rows named [n PLA] survive, in their
    order; an input made of rows named [n] survives whole; and the rows
    named [n] also survive, all of them, beside the rows of another job
    and of its variant: a PLA row supersedes the rows of its own base
    name only. In MR mode every row named [n PLA], and every row whose
    job name has a standalone PLA token, is dropped, whatever the other
    rows are. *)
Theorem C4_pla_rule (df : list row) (n : string) :
  plain_name n →
  (∀ r, r ∈ df → row_ok Utility r) →
  ((∀ r, r ∈ df →
      job_name r = Text n ∨ job_name r = Text (n +:+ " PLA")) →
   (∃ r, r ∈ df ∧ job_name r = Text (n +:+ " PLA")) →
   record_filter Utility df
   = filter (λ r, job_name r = Text (n +:+ " PLA")) df)
  ∧ ((∀ r, r ∈ df → job_name r = Text n) → record_filter Utility df = df)
  ∧ (∀ n', plain_name n' → n' ≠ n →
       (∀ r, r ∈ df →
          job_name r = Text n ∨ job_name r = Text n'
          ∨ job_name r = Text (n' +:+ " PLA")) →
       ∀ r, r ∈ df → job_name r = Text n → r ∈ record_filter Utility df)
  ∧ (∀ df' r, job_name r = Text (n +:+ " PLA") → r ∉ record_filter MR df')
  ∧ (∀ df' r, is_pla r → r ∉ record_filter MR df').
Proof.
  intros Hn Hok. rewrite (record_filter_row_ok Utility df Hok).
  split_and!.
  - intros Hnames (r0 & Hr0 & E0). unfold pla_filter.
    apply filter_ext_elem_of. intros r Hr. rewrite pla_keep_iff. split.
    + intros [Hp|Hno]; destruct (Hnames r Hr) as [E|E]; try done.
      * by destruct (plain_row_facts n r Hn E).
      * exfalso. apply Hno. exists r0.
        destruct (variant_row_facts n r0 Hn E0) as [? ->].
        by destruct (plain_row_facts n r Hn E) as [_ ->].
    + intros E. left. by apply (variant_row_facts n r Hn).
  - intros Hnames. apply pla_filter_utility_all. intros r Hr. right.
    intros (r' & Hr' & Hp & _).
    by destruct (plain_row_facts n r' Hn (Hnames r' Hr')).
  - intros n' Hn' Hne Hnames r Hr E.
    apply elem_of_pla_filter_utility. split; [done|]. right.
    intros (r' & Hr' & Hp & Hb).
    destruct (plain_row_facts n r Hn E) as [_ Eb]. rewrite Eb in Hb.
    destruct (Hnames r' Hr') as [E'|[E'|E']].
    + by destruct (plain_row_facts n r' Hn E').
    + by destruct (plain_row_facts n' r' Hn' E').
    + destruct (variant_row_facts n' r' Hn' E') as [_ Eb'].
      rewrite Eb' in Hb. by injection Hb.
  - intros df' r E Hin. unfold record_filter in Hin. simpl in Hin.
    apply elem_of_pla_filter_mr in Hin as [_ Hin]. apply Hin.
    by apply (variant_row_facts n r Hn).
  - intros df' r Hp Hin. unfold record_filter in Hin. simpl in Hin.
    by apply elem_of_pla_filter_mr in Hin as [_ ?].
Qed.

Lemma C4_witness :
  record_filter Utility
    [plain_row "jobA" [] 0 0; plain_row "jobA PLA" [] 0 1;
     plain_row "jobA" [] 1 0]
  = [plain_row "jobA PLA" [] 0 1]
  ∧ record_filter Utility [plain_row "jobA" [] 0 0; plain_row "jobA" [] 0 1]
    = [plain_row "jobA" [] 0 0; plain_row "jobA" [] 0 1]
  ∧ plain_row "jobA PLA" [] 0 1
    ∉ record_filter MR [plain_row "jobB" [] 0 0; plain_row "jobA PLA" [] 0 1].
Proof.
  assert (plain_name "jobA") as Hn by (split; reflexivity).
  assert (∀ df : list row,
            (∀ r, r ∈ df → ∃ j x y,
               (j = "jobA" ∨ j = "jobA PLA") ∧ r = plain_row j [] x y) →
            ∀ r, r ∈ df → row_ok Utility r) as Hok.
  { intros df Hdf r Hr. destruct (Hdf r Hr) as (j & x & y & [-> | ->] & ->);
      unfold row_ok; by vm_compute. }
  split_and!.
  - destruct (C4_pla_rule [plain_row "jobA" [] 0 0; plain_row "jobA PLA" [] 0 1;
                           plain_row "jobA" [] 1 0] "jobA" Hn) as (H & _).
    + apply Hok. intros r Hr. rewrite !elem_of_cons, elem_of_nil in Hr.
      destruct Hr as [->|[->|[->|[]]]];
        [exists "jobA", 0, 0|exists "jobA PLA", 0, 1|exists "jobA", 1, 0];
        (split; [tauto|reflexivity]).
    + rewrite H; [reflexivity| |].
      * intros r Hr. rewrite !elem_of_cons, elem_of_nil in Hr.
        destruct Hr as [->|[->|[->|[]]]]; simpl; tauto.
      * exists (plain_row "jobA PLA" [] 0 1). split; [|done].
        rewrite !elem_of_cons. tauto.
  - destruct (C4_pla_rule [plain_row "jobA" [] 0 0; plain_row "jobA" [] 0 1]
                "jobA" Hn) as (_ & H & _).
    + apply Hok. intros r Hr. rewrite !elem_of_cons, elem_of_nil in Hr.
      destruct Hr as [->|[->|[]]];
        [exists "jobA", 0, 0|exists "jobA", 0, 1];
        (split; [tauto|reflexivity]).
    + apply H. intros r Hr. rewrite !elem_of_cons, elem_of_nil in Hr.
      by destruct Hr as [->|[->|[]]].
  - destruct (C4_pla_rule [] "jobA" Hn) as (_ & _ & _ & H & _).
    + intros r Hr. by apply elem_of_nil in Hr.
    + by apply H.
Defined.

(** ** Claims about the overlay merge and the column checks *)

(** C7. The code breaks the claim at an overlay file that is malformed
    in a way [json.load] and the constructor of [GeoJson] let through:
    the style function of lines 252-257 reads [feat['properties']], and
    it is called for the features when the map is written (line 421),
    outside the [try] of lines 246-271. For a document whose second
    feature has no properties, [build_map] raises there: no warning is
    shown and no map is saved, although the same rows without the
    overlay give a scene with their marker. *)
Theorem C7_overlay_style_is_fatal :
  build_map
    (λ _, MarkupLoaded [ {| properties := Some ∅ |};
                         {| properties := None |} ])
    [plain_row "J" [] 5 7] MR (Some "markup.geojson")
  = Raised OverlayStyle
  ∧ ∃ s,
      build_map
        (λ _, MarkupLoaded [ {| properties := Some ∅ |};
                             {| properties := None |} ])
        [plain_row "J" [] 5 7] MR None
      = Saved s
      ∧ m_location <$> markers s = [(whole 7, whole 5)]
      ∧ overlays s = [] ∧ warnings_shown s = [].
Proof. split; [by vm_compute|]. eexists. by vm_compute. Qed.

(** C8 as stated fails: with only [scid] missing, the message also names
    [job_name], which is present. *)
Lemma C8_counterexample :
  ¬ (∀ (columns : list string) (title message c : string),
       on_generate columns = ShowError title message →
       c ∈ base → mentions message c → c ∉ columns).
Proof.
  intros H.
  apply (H ["job_name"; "latitude"; "longitude"; "node_type";
            "MR_level_1"; "MR_cost_1"; "company_1"]
           "Missing Columns"
           ("Need: " +:+ join ", " (elements base)) "job_name").
  - by vm_compute.
  - by vm_compute.
  - by vm_compute.
  - left.
Qed.

Lemma message_mentions_base (c : string) :
  c ∈ base → mentions ("Need: " +:+ join ", " (elements base)) c.
Proof.
  unfold base. rewrite elem_of_list_to_set, !elem_of_cons, elem_of_nil.
  intros [->|[->|[->|[->|[->|[]]]]]]; by vm_compute.
Qed.

(** C8, amended. When a required column or a required column group is
    absent, [on_generate] shows an error and does not call [build_map].
    The message does not list what is missing; it is fixed by the first
    check that fails: when a base column is missing it names all five
    base columns, the present ones too; otherwise, when there is no
    MR-level or no MR-cost column, it names both groups; otherwise, when
    there is no company column, it says so. When nothing is missing
    [build_map] is called with the column groups found. *)
Theorem C8_missing_columns_error (columns : list string) :
  (¬ base ⊆ list_to_set columns →
     on_generate columns
     = ShowError "Missing Columns" ("Need: " +:+ join ", " (elements base))
     ∧ ∀ c, c ∈ base → mentions ("Need: " +:+ join ", " (elements base)) c)
  ∧ (base ⊆ list_to_set columns →
     find_level_cols columns = [] ∨ find_cost_cols columns = [] →
     on_generate columns
     = ShowError "Missing MR cols" "Need MR_level* and MR_cost* cols")
  ∧ (base ⊆ list_to_set columns →
     find_level_cols columns ≠ [] → find_cost_cols columns ≠ [] →
     find_company_cols columns = [] →
     on_generate columns
     = ShowError "Missing Company cols" "No company columns found")
  ∧ (∀ cols, on_generate columns = CallBuildMap cols ↔
       base ⊆ list_to_set columns
       ∧ find_level_cols columns ≠ [] ∧ find_cost_cols columns ≠ []
       ∧ find_company_cols columns ≠ []
       ∧ cols = {| level_cols := find_level_cols columns;
                   cost_cols := find_cost_cols columns;
                   warning_cols := find_warning_cols columns;
                   company_cols := find_company_cols columns |}).
Proof.
  unfold on_generate. split_and!.
  - intros Hb. rewrite bool_decide_false by done.
    split; [done|]. apply message_mentions_base.
  - intros Hb Hmr. rewrite bool_decide_true by done.
    destruct Hmr as [-> | ->]; simpl; [done|]. by rewrite orb_true_r.
  - intros Hb Hl Hc Hco. rewrite bool_decide_true by done.
    rewrite (bool_decide_false (find_level_cols columns = [])) by done.
    rewrite (bool_decide_false (find_cost_cols columns = [])) by done.
    simpl. by rewrite Hco.
  - intros cols. repeat case_bool_decide; simpl; split;
      try done; try (intros [= <-]; by split_and!);
      try (intros (? & ? & ? & ? & ->); done).
Qed.

Lemma C8_witness :
  on_generate ["job_name"; "latitude"; "longitude"; "node_type";
               "MR_level_1"; "MR_cost_1"; "company_1"]
  = ShowError "Missing Columns" ("Need: " +:+ join ", " (elements base))
  ∧ mentions ("Need: " +:+ join ", " (elements base)) "job_name"
  ∧ on_generate ["job_name"; "latitude"; "longitude"; "node_type"; "scid";
                 "MR_level_1"; "company_1"]
    = ShowError "Missing MR cols" "Need MR_level* and MR_cost* cols".
Proof.
  destruct (C8_missing_columns_error
              ["job_name"; "latitude"; "longitude"; "node_type";
               "MR_level_1"; "MR_cost_1"; "company_1"]) as (H1 & _).
  destruct (C8_missing_columns_error
              ["job_name"; "latitude"; "longitude"; "node_type"; "scid";
               "MR_level_1"; "company_1"]) as (_ & H2 & _).
  destruct H1 as [E Hm].
  { apply (bool_decide_eq_false_1 _). by vm_compute. }
  split; [exact E|]. split.
  - apply Hm. apply (bool_decide_unpack _). by vm_compute.
  - apply H2.
    + apply (bool_decide_unpack _). by vm_compute.
    + right. by vm_compute.
Defined.


(** * Further properties of the code *)

(** ** The record filter, beyond idempotence *)

Lemma basic_filter_sublist (df : list row) : basic_filter df `sublist_of` df.
Proof.
  unfold basic_filter.
  repeat (etrans; [apply sublist_filter; apply _|]). done.
Qed.

Lemma pla_filter_sublist (mode : view_mode) (df : list row) :
  pla_filter mode df `sublist_of` df.
Proof. destruct mode; apply sublist_filter; apply _. Qed.

Lemma company_filter_sublist (mode : view_mode) (df : list row) :
  company_filter mode df `sublist_of` df.
Proof. destruct mode; [done|]. apply sublist_filter; apply _. Qed.

(** X1. The record filter only removes rows: in both modes its result is
    the input with some rows left out, the others in their order, none
    repeated or changed. *)
Theorem record_filter_keeps_order (mode : view_mode) (df : list row) :
  record_filter mode df `sublist_of` df.
Proof.
  unfold record_filter.
  etrans; [apply company_filter_sublist|].
  etrans; [apply pla_filter_sublist|]. apply basic_filter_sublist.
Qed.

Lemma elem_of_record_filter_basic (mode : view_mode) (df : list row) (r : row) :
  r ∈ record_filter mode df → r ∈ basic_filter df.
Proof.
  intros Hr. unfold record_filter in Hr.
  apply elem_of_company_filter in Hr as [Hr _].
  destruct mode.
  - by apply elem_of_pla_filter_mr in Hr as [? _].
  - by apply elem_of_pla_filter_utility in Hr as [? _].
Qed.

(** X4. In Utility mode a row is kept exactly when it passes the tests on
    one row and is a PLA row or has no PLA sibling; a sibling is a row of
    the same base name that passes the first four tests. The company
    test comes last, so a PLA row that names AT&T or Charter still
    removes its plain sibling and is then removed itself, while a PLA
    row that fails one of the first four tests removes nothing. *)
Theorem record_filter_utility_rows (df : list row) (r : row) :
  r ∈ record_filter Utility df
  ↔ r ∈ df ∧ row_ok Utility r
    ∧ (is_pla r
       ∨ ¬ ∃ r', r' ∈ df ∧ ¬ is_copy r' ∧ is_pole r' ∧ has_position r'
                 ∧ scid_is_number r' ∧ is_pla r'
                 ∧ base_job r' = base_job r).
Proof.
  unfold record_filter. rewrite elem_of_company_filter.
  rewrite elem_of_pla_filter_utility, elem_of_basic_filter. unfold row_ok.
  split.
  - intros ([(Hdf & Hc & Hp & Hpos & Hs) Hpla] & Hex).
    split; [done|]. split; [split_and!; try done; by apply Hex|].
    destruct Hpla as [?|Hn]; [by left|]. right.
    intros (r' & Hr' & ? & ? & ? & ? & ? & ?). apply Hn. exists r'.
    split_and!; try done. apply elem_of_basic_filter. tauto.
  - intros (Hdf & (Hc & Hp & Hpos & Hs & Hex) & Hpla).
    split; [|done]. split; [tauto|].
    destruct Hpla as [?|Hn]; [by left|]. right.
    intros (r' & Hr' & ? & ?). apply Hn. exists r'.
    apply elem_of_basic_filter in Hr'. tauto.
Qed.

(** X5. After the Utility filter no job is present in both variants: rows
    that have the same base name are all PLA rows or all plain rows. *)
Theorem record_filter_utility_one_variant (df : list row) (r r' : row) :
  r ∈ record_filter Utility df → r' ∈ record_filter Utility df →
  base_job r = base_job r' → (is_pla r ↔ is_pla r').
Proof.
  assert (H : ∀ a b, a ∈ record_filter Utility df →
                     b ∈ record_filter Utility df →
                     base_job a = base_job b → is_pla a → is_pla b).
  { intros a b Ha Hb E Hpa.
    pose proof (elem_of_record_filter_basic _ _ _ Ha) as Hab.
    unfold record_filter in Hb.
    apply elem_of_company_filter in Hb as [Hb _].
    apply elem_of_pla_filter_utility in Hb as [_ [?|Hn]]; [done|].
    exfalso. apply Hn. by exists a. }
  intros Hr Hr' E. split; [by apply (H r r')|by apply (H r' r)].
Qed.

Lemma record_filter_utility_one_variant_witness :
  is_pla (plain_row "jobA PLA" [] 0 1) ↔ is_pla (plain_row "jobA  pla" [] 2 3).
Proof.
  apply (record_filter_utility_one_variant
           [plain_row "jobA" [] 0 0; plain_row "jobA PLA" [] 0 1;
            plain_row "jobA  pla" [] 2 3]).
  - vm_compute. left.
  - vm_compute. right. left.
  - reflexivity.
Defined.

(** ** Canonical names and the colour table, beyond the order of colours *)

(** X6. [canon] gives a canonical form: applying it again changes nothing,
    its result has no white space around it, and the cooperative has one
    spelling among its results, whatever the letter case and the variant
    of the input. *)
Theorem canon_canonical (s : string) :
  canon (canon s) = canon s
  ∧ strip (canon s) = canon s
  ∧ (lower (canon s) ∈ ["magic valley elec coop"; "magic valley electric coop"]
     → canon s = "Magic Valley Electric Coop").
Proof.
  destruct (decide (lower (strip s) ∈ ["magic valley elec coop";
                                       "magic valley electric coop"]))
    as [Hm|Hm].
  - assert (canon s = "Magic Valley Electric Coop") as ->
      by (unfold canon; by rewrite bool_decide_true).
    by split_and!.
  - assert (canon s = strip s) as E
      by (unfold canon; by rewrite bool_decide_false).
    rewrite E. split_and!.
    + by rewrite canon_strip.
    + apply strip_idemp.
    + done.
Qed.

Lemma elem_of_comps (df : list row) (c : string) :
  c ∈ comps df ↔ ∃ r, r ∈ df ∧ c ∈ row_comps r.
Proof.
  unfold comps. rewrite list_elem_of_In, in_flat_map.
  split; intros (r & Hr & Hc); exists r; by rewrite ?list_elem_of_In in *.
Qed.

Lemma uniq_ext (df1 df2 : list row) :
  (∀ c, c ∈ comps df1 ↔ c ∈ comps df2) → uniq df1 = uniq df2.
Proof.
  intros H. unfold uniq.
  replace (list_to_set (comps df2) : gset string)
    with (list_to_set (comps df1) : gset string); [done|].
  apply set_eq. intros c. rewrite !elem_of_list_to_set. apply H.
Qed.

(** X7. The colour table depends on which names occur in the rows, not on
    where or how often: frames with the same names have the same table,
    so the table does not change when rows are reordered or repeated. *)
Theorem build_comp_color_order_free (df1 df2 : list row) :
  ((∀ c, c ∈ comps df1 ↔ c ∈ comps df2) →
   build_comp_color df1 = build_comp_color df2)
  ∧ (df1 ≡ₚ df2 → build_comp_color df1 = build_comp_color df2)
  ∧ build_comp_color (df1 ++ df1) = build_comp_color df1.
Proof.
  assert (H : (∀ c, c ∈ comps df1 ↔ c ∈ comps df2) →
              build_comp_color df1 = build_comp_color df2).
  { intros E. unfold build_comp_color. by rewrite (uniq_ext df1 df2 E). }
  split_and!; [done| |].
  - intros HP. apply H. intros c. rewrite !elem_of_comps.
    split; intros (r & Hr & Hc); exists r; split; try done.
    + by rewrite <- HP.
    + by rewrite HP.
  - unfold build_comp_color. rewrite (uniq_ext (df1 ++ df1) df1); [done|].
    intros c. rewrite !elem_of_comps. split.
    + intros (r & Hr & Hc). exists r. split; [|done].
      apply elem_of_app in Hr. tauto.
    + intros (r & Hr & Hc). exists r. split; [|done].
      apply elem_of_app. by left.
Qed.

Lemma build_comp_color_order_free_witness :
  build_comp_color [plain_row "J" [Text "Zeta"] 0 0;
                    plain_row "K" [Text "Alpha"] 0 1]
  = build_comp_color [plain_row "K" [Text "Alpha"] 0 1;
                      plain_row "J" [Text "Zeta"] 0 0].
Proof.
  destruct (build_comp_color_order_free
              [plain_row "J" [Text "Zeta"] 0 0;
               plain_row "K" [Text "Alpha"] 0 1]
              [plain_row "K" [Text "Alpha"] 0 1;
               plain_row "J" [Text "Zeta"] 0 0]) as (_ & H & _).
  apply H. apply Permutation_swap.
Defined.

(** An entry of the table is a fixed one or the colour of an unknown
    name. *)
Lemma build_comp_color_entry (df : list row) (name color : string) :
  build_comp_color df !! name = Some color →
  (name, color) ∈ [("Magic Valley Electric Coop", "#98ff98"); ("AEP", "orange");
                   ("Brownsville Public Utilities", "aqua");
                   ("Central Bradford PA", "yellow")]
  ∨ ∃ i, unknown_names df !! i = Some name ∧ color = palette_at i.
Proof.
  intros H. destruct (known_colors !! name) as [v|] eqn:Ek.
  - left. rewrite (build_comp_color_known df name v Ek) in H.
    injection H as <-. unfold known_colors in Ek.
    by apply elem_of_list_to_map_2 in Ek.
  - right.
    assert (name ∈ comps df) as Hin.
    { destruct (proj1 (build_comp_color_keys df name)) as [[? ?]|?];
        [by eexists|congruence|done]. }
    assert (name ∈ unknown_names df) as Hu by by apply elem_of_unknown_names.
    apply list_elem_of_lookup in Hu as (i & Hi). exists i. split; [done|].
    rewrite (build_comp_color_unknown df i name Hi) in H. congruence.
Qed.

Lemma palette_at_elem (i : nat) : palette_at i ∈ PALETTE.
Proof.
  unfold palette_at. apply list_elem_of_In, nth_In.
  apply Nat.mod_upper_bound. done.
Qed.

Lemma palette_at_inj (i j : nat) :
  (i < 6)%nat → (j < 6)%nat → palette_at i = palette_at j → i = j.
Proof.
  intros Hi Hj.
  do 6 (destruct i as [|i]; [do 6 (destruct j as [|j]; [by vm_compute|]); lia|]).
  lia.
Qed.

Lemma NoDup_unknown_names (df : list row) : NoDup (unknown_names df).
Proof. unfold unknown_names. apply NoDup_filter, NoDup_uniq. Qed.

Lemma build_comp_color_same_color (df : list row) (n1 n2 color : string) :
  (length (unknown_names df) ≤ 6)%nat →
  build_comp_color df !! n1 = Some color →
  build_comp_color df !! n2 = Some color →
  n1 = n2.
Proof.
  intros Hlen H1 H2.
  apply build_comp_color_entry in H1 as [H1|(i & Hi & E1)];
    apply build_comp_color_entry in H2 as [H2|(j & Hj & E2)].
  - rewrite !elem_of_cons, elem_of_nil in H1, H2.
    destruct H1 as [H1|[H1|[H1|[H1|[]]]]], H2 as [H2|[H2|[H2|[H2|[]]]]];
      congruence.
  - exfalso. pose proof (palette_at_elem j) as Hp. rewrite <- E2 in Hp.
    unfold PALETTE in Hp. rewrite !elem_of_cons, elem_of_nil in H1.
    rewrite !elem_of_cons, elem_of_nil in Hp.
    destruct H1 as [H1|[H1|[H1|[H1|[]]]]]; injection H1 as _ ->;
      destruct Hp as [?|[?|[?|[?|[?|[?|[]]]]]]]; discriminate.
  - exfalso. pose proof (palette_at_elem i) as Hp. rewrite <- E1 in Hp.
    unfold PALETTE in Hp. rewrite !elem_of_cons, elem_of_nil in H2.
    rewrite !elem_of_cons, elem_of_nil in Hp.
    destruct H2 as [H2|[H2|[H2|[H2|[]]]]]; injection H2 as _ ->;
      destruct Hp as [?|[?|[?|[?|[?|[?|[]]]]]]]; discriminate.
  - pose proof (lookup_lt_Some _ _ _ Hi). pose proof (lookup_lt_Some _ _ _ Hj).
    assert (i = j) as -> by (apply palette_at_inj; [lia|lia|congruence]).
    congruence.
Qed.

(** X8. As long as the data has at most six names without a fixed colour
    (the size of the palette), the table gives different names different
    colours, the known companies included. *)
Theorem build_comp_color_injective (df : list row) (n1 n2 c1 c2 : string) :
  (length (unknown_names df) ≤ 6)%nat →
  n1 ≠ n2 →
  build_comp_color df !! n1 = Some c1 →
  build_comp_color df !! n2 = Some c2 →
  c1 ≠ c2.
Proof.
  intros Hlen Hne H1 H2 ->. apply Hne.
  by apply (build_comp_color_same_color df n1 n2 c2).
Qed.

Lemma build_comp_color_injective_witness :
  ("blue" : string) ≠ "orange".
Proof.
  apply (build_comp_color_injective
           [plain_row "J" [Text "Zeta"; Text "Alpha"; Text "AEP"] 0 0]
           "Alpha" "AEP" "blue" "orange").
  - vm_compute. lia.
  - discriminate.
  - by vm_compute.
  - by vm_compute.
Defined.

(** X9. The palette is reused once it is used up: the unknown names at
    the positions [i] and [i + 6] of the ascending list are different
    names with the same colour, so with seven or more names without a
    fixed colour two markers of different companies look alike. *)
Theorem build_comp_color_wraps (df : list row) (i : nat) (n1 n2 : string) :
  unknown_names df !! i = Some n1 →
  unknown_names df !! (i + 6)%nat = Some n2 →
  n1 ≠ n2 ∧ build_comp_color df !! n1 = build_comp_color df !! n2.
Proof.
  intros H1 H2. split.
  - intros ->.
    pose proof (NoDup_lookup _ _ _ _ (NoDup_unknown_names df) H1 H2). lia.
  - rewrite (build_comp_color_unknown df _ _ H1).
    rewrite (build_comp_color_unknown df _ _ H2).
    f_equal. unfold palette_at. f_equal.
    change (length PALETTE) with 6%nat.
    rewrite <- (Nat.Div0.add_mod_idemp_r i 6 6).
    by rewrite Nat.Div0.mod_same, Nat.add_0_r.
Qed.

Lemma build_comp_color_wraps_witness :
  ("a" : string) ≠ "g"
  ∧ build_comp_color
      [plain_row "J" [Text "a"; Text "b"; Text "c"; Text "d"; Text "e";
                      Text "f"; Text "g"] 0 0] !! "a"
    = build_comp_color
        [plain_row "J" [Text "a"; Text "b"; Text "c"; Text "d"; Text "e";
                        Text "f"; Text "g"] 0 0] !! "g".
Proof.
  apply (build_comp_color_wraps
           [plain_row "J" [Text "a"; Text "b"; Text "c"; Text "d"; Text "e";
                           Text "f"; Text "g"] 0 0] 0 "a" "g");
    by vm_compute.
Defined.

(** X10. Both spellings of the cooperative, in any letter case and with
    any white space around them, lead to the one entry of the table: a
    row whose only company cell holds such a text is a single-company
    row of "Magic Valley Electric Coop" and its marker has the fixed
    colour of that company, whatever the rows of the run are. *)
Theorem cooperative_variants_one_color (df : list row) (r : row) (c : cell) :
  filter (λ c, present c) (company_cells r) = [c] →
  lower (strip (py_str c))
    ∈ ["magic valley elec coop"; "magic valley electric coop"] →
  m_category (make_marker Utility (build_comp_color df) r)
  = SingleCompany "Magic Valley Electric Coop"
  ∧ m_color (make_marker Utility (build_comp_color df) r) = Some "#98ff98".
Proof.
  intros Hc Hv.
  assert (E : classify Utility r = SingleCompany "Magic Valley Electric Coop").
  { rewrite classify_utility, Hc. f_equal. unfold canon.
    by rewrite bool_decide_true. }
  unfold make_marker. cbn [m_category m_color]. rewrite E. split; [done|].
  cbn [category_color].
  by rewrite (build_comp_color_known df "Magic Valley Electric Coop" "#98ff98").
Qed.

Lemma cooperative_variants_one_color_witness :
  m_category (make_marker Utility (build_comp_color [])
                (plain_row "J" [NaN; Text "  MAGIC Valley elec COOP "] 0 0))
  = SingleCompany "Magic Valley Electric Coop"
  ∧ m_color (make_marker Utility (build_comp_color [])
               (plain_row "J" [NaN; Text "  MAGIC Valley elec COOP "] 0 0))
    = Some "#98ff98".
Proof.
  apply (cooperative_variants_one_color []
           (plain_row "J" [NaN; Text "  MAGIC Valley elec COOP "] 0 0)
           (Text "  MAGIC Valley elec COOP ")).
  - reflexivity.
  - vm_compute. left.
Defined.

(** ** The legend and the markers *)

Lemma known_colors_items : known_colors = list_to_map known_items.
Proof. reflexivity. Qed.

(** The loop on the ordered dictionary and the loop on the map go
    together. *)
Lemma foldl_assign_item (l : list string) (items : list (string * string))
    (idx : nat) :
  NoDup items.*1 →
  foldl assign_color (list_to_map items, idx) l
  = (list_to_map (foldl assign_item (items, idx) l).1,
     (foldl assign_item (items, idx) l).2)
  ∧ NoDup (foldl assign_item (items, idx) l).1.*1.
Proof.
  revert items idx. induction l as [|c l IH]; intros items idx Hnd; [done|].
  simpl. case_bool_decide as Hc.
  - destruct (list_to_map items !! c) as [v|] eqn:E.
    + by apply IH.
    + apply not_elem_of_list_to_map in E. done.
  - rewrite (proj1 (not_elem_of_list_to_map items c) Hc).
    rewrite <- list_to_map_snoc by done. apply IH.
    rewrite fmap_app. apply NoDup_app. split_and!; [done| |apply NoDup_singleton].
    intros x Hx Hx'. apply list_elem_of_singleton in Hx'. simpl in Hx'.
    by subst.
Qed.

(** The entries in their order: what was there, then the new names in
    the order of the list. *)
Lemma foldl_assign_item_order (l : list string) (items : list (string * string))
    (idx : nat) :
  NoDup l →
  (foldl assign_item (items, idx) l).1
  = items ++ imap (λ i n, (n, palette_at (idx + i)))
               (filter (λ c, c ∉ items.*1) l).
Proof.
  revert items idx. induction l as [|c l IH]; intros items idx Hnd.
  - simpl. by rewrite app_nil_r.
  - apply NoDup_cons in Hnd as [Hc Hnd]. simpl. case_bool_decide as Hin.
    + rewrite filter_cons_False by (intros ?; done). by apply IH.
    + rewrite filter_cons_True by done. rewrite IH by done.
      rewrite <- app_assoc. f_equal. simpl. rewrite Nat.add_0_r. f_equal.
      rewrite (filter_ext_elem_of (λ c0, c0 ∉ (items ++ [(c, palette_at idx)]).*1)
                 (λ c0, c0 ∉ items.*1)).
      * apply imap_ext. intros i x _. simpl. f_equal. f_equal. lia.
      * intros x Hx. rewrite fmap_app, elem_of_app. simpl.
        rewrite list_elem_of_singleton. split; [tauto|].
        intros Hn [?| ->]; done.
Qed.

Lemma legend_items_table_aux (df : list row) :
  list_to_map (comp_color_items df) = build_comp_color df
  ∧ NoDup (comp_color_items df).*1.
Proof.
  assert (Hk : NoDup known_items.*1).
  { apply (bool_decide_unpack _). by vm_compute. }
  destruct (foldl_assign_item (uniq df) known_items 0 Hk) as [H1 H2].
  split; [|exact H2].
  unfold build_comp_color, comp_color_items.
  rewrite known_colors_items, H1. done.
Qed.

(** X11. The entries of the Utility legend are the entries of the colour
    table, each once: first the four known companies in the order of
    the source, then the other names of the data in ascending order,
    each with the colour the markers use. *)
Theorem legend_items_are_the_table (df : list row) :
  list_to_map (comp_color_items df) = build_comp_color df
  ∧ NoDup (comp_color_items df).*1
  ∧ comp_color_items df
    = known_items ++ imap (λ i n, (n, palette_at i)) (unknown_names df).
Proof.
  destruct (legend_items_table_aux df) as [H1 H2].
  split_and!; [exact H1|exact H2|].
  - unfold comp_color_items.
    rewrite foldl_assign_item_order by apply NoDup_uniq.
    f_equal. unfold unknown_names.
    rewrite (filter_ext_elem_of (λ c, c ∉ known_items.*1)
               (λ c, known_colors !! c = None)); [done|].
    intros c _. rewrite known_colors_items.
    apply not_elem_of_list_to_map.
Qed.

(** *** The text of the legend *)

Lemma app_String (c : ascii) (s t : string) :
  String c s +:+ t = String c (s +:+ t).
Proof. reflexivity. Qed.

Lemma strip_prefix_app (tok rest : string) :
  strip_prefix tok (tok +:+ rest) = Some rest.
Proof.
  induction tok as [|c tok IH]; [done|].
  rewrite app_String. simpl. by rewrite bool_decide_true.
Qed.

Lemma strip_prefix_app_r (tok s rest t : string) :
  strip_prefix tok s = Some rest → strip_prefix tok (s +:+ t) = Some (rest +:+ t).
Proof.
  revert s. induction tok as [|c tok IH]; intros s.
  - simpl. by intros [= ->].
  - destruct s as [|d s]; [done|]. rewrite app_String. simpl.
    case_bool_decide; [apply IH|done].
Qed.

Lemma startswith_Some (tok s rest : string) :
  strip_prefix tok s = Some rest → startswith tok s = true.
Proof. intros E. unfold startswith. rewrite E. by apply bool_decide_eq_true. Qed.

Lemma contains_app_l (tok s t : string) :
  contains tok s = true → contains tok (s +:+ t) = true.
Proof.
  induction s as [|c s IH].
  - simpl. rewrite orb_false_r. unfold startswith.
    intros H. apply bool_decide_eq_true in H as [rest H].
    destruct tok; [|done]. by destruct t.
  - rewrite app_String. simpl. intros H. apply orb_true_iff in H as [H|H].
    + apply orb_true_iff. left. unfold startswith in *.
      apply bool_decide_eq_true in H as [rest H].
      change (String c (s +:+ t)) with (String c s +:+ t).
      rewrite (strip_prefix_app_r _ _ _ t H). by apply bool_decide_eq_true.
    + apply orb_true_iff. right. by apply IH.
Qed.

Lemma contains_app_r (tok s t : string) :
  contains tok t = true → contains tok (s +:+ t) = true.
Proof.
  intros H. induction s as [|c s IH]; [done|].
  rewrite app_String. simpl. apply orb_true_iff. by right.
Qed.

Lemma contains_end (tok s : string) : contains tok (s +:+ tok) = true.
Proof.
  apply contains_app_r. destruct tok as [|c tok]; [done|].
  simpl. apply orb_true_iff. left.
  apply (startswith_Some _ _ ""). simpl. rewrite bool_decide_true by done.
  induction tok as [|d tok IH]; [done|]. simpl. by rewrite bool_decide_true.
Qed.

Lemma add_dots_keeps (tok html : string) (entries : list (string * string)) :
  contains tok html = true → contains tok (add_dots html entries) = true.
Proof.
  revert html. induction entries as [|e entries IH]; intros html H; [done|].
  simpl. apply IH. by apply contains_app_l.
Qed.

Lemma add_dots_contains (html : string) (entries : list (string * string))
    (name col : string) :
  (name, col) ∈ entries →
  contains (legend_dot name col) (add_dots html entries) = true.
Proof.
  revert html. induction entries as [|e entries IH]; intros html Hin.
  - by apply elem_of_nil in Hin.
  - apply elem_of_cons in Hin as [<-|Hin]; simpl.
    + apply add_dots_keeps, contains_end.
    + by apply IH.
Qed.

Lemma legend_html_mr_contains (df : list row) (name col : string) :
  (name, col) ∈ MR_ENTRIES →
  contains (legend_dot name col) (legend_html MR df) = true.
Proof.
  intros H. unfold legend_html. by apply contains_app_l, add_dots_contains.
Qed.

Lemma legend_html_utility_contains (df : list row) (name col : string) :
  (name, col) ∈ comp_color_items df →
  contains (legend_dot name col) (legend_html Utility df) = true.
Proof.
  intros H. unfold legend_html. by apply contains_app_l, add_dots_contains.
Qed.

(** X12. In MR mode every marker is explained by the legend: its colour
    is the colour of a legend entry, the entry of its level, "Missing
    MR" or "Warnings", and the line of that entry is in the text of the
    legend. A row with a warning is a square in the warning colour
    whatever its level, and the other rows are circles. *)
Theorem mr_marker_in_legend (comp_color : gmap string string) (df : list row)
    (r : row) :
  ∃ name col,
    m_color (make_marker MR comp_color r) = Some col
    ∧ (name, col) ∈ MR_ENTRIES
    ∧ contains (legend_dot name col) (legend_html MR df) = true
    ∧ match filter (λ c, present c) (warning_cells r) with
      | [] => m_shape (make_marker MR comp_color r) = Circle
              ∧ (name = first_val (level_cells r) ∨ name = "Missing MR")
      | _ :: _ => m_shape (make_marker MR comp_color r) = Square
                  ∧ name = "Warnings"
      end.
Proof.
  unfold make_marker. cbn [m_color m_shape]. unfold classify.
  destruct (filter (λ c, present c) (warning_cells r)) as [|w ws] eqn:Ew.
  - rewrite bool_decide_false by (intros ?; done).
    destruct (STYLE_COLORS !! first_val (level_cells r)) as [c|] eqn:E.
    + exists (first_val (level_cells r)), c.
      cbn [category_color category_shape]. rewrite E. simpl default.
      assert ((first_val (level_cells r), c) ∈ MR_ENTRIES) as Hin.
      { apply elem_of_app. left. by apply elem_of_list_to_map_2 in E. }
      split; [done|]. split; [done|].
      split; [by apply legend_html_mr_contains|]. split; [done|by left].
    + exists "Missing MR", MISSING_COLOR. cbn [category_color category_shape].
      assert (("Missing MR", MISSING_COLOR) ∈ MR_ENTRIES) as Hin.
      { apply elem_of_app. right. left. }
      split; [done|]. split; [done|].
      split; [by apply legend_html_mr_contains|]. split; [done|by right].
  - rewrite bool_decide_true by done.
    exists "Warnings", WARNING_COLOR. cbn [category_color category_shape].
    assert (("Warnings", WARNING_COLOR) ∈ MR_ENTRIES) as Hin.
    { apply elem_of_app. right. right. left. }
    split; [done|]. split; [done|].
    split; [by apply legend_html_mr_contains|]. by split.
Qed.

(** X13. In Utility mode the marker of a kept row is explained by the
    legend: a row with one company, whose name is not "nan" in any
    letter case, is a circle in the colour of the legend entry of that
    name, and the line of the entry is in the text of the legend; a row
    with several company cells is a square in the colour of the line
    "Multiple Companies"; a row without a company has the glyph and no
    colour. *)
Theorem utility_marker_in_legend (df0 : list row) (r : row) :
  r ∈ record_filter Utility df0 →
  let df := record_filter Utility df0 in
  let m := make_marker Utility (build_comp_color df) r in
  match m_category m with
  | SingleCompany name =>
      m_shape m = Circle
      ∧ (lower name ≠ "nan" →
         ∃ col, m_color m = Some col ∧ (name, col) ∈ comp_color_items df
                ∧ contains (legend_dot name col) (legend_html Utility df) = true)
  | MultiCompany =>
      m_shape m = Square ∧ m_color m = Some "red"
      ∧ contains MULTI_LINE (legend_html Utility df) = true
  | NoCompany =>
      m_shape m = Glyph ∧ m_color m = None
      ∧ contains NONE_LINE (legend_html Utility df) = true
  | _ => False
  end.
Proof.
  intros Hr df m. subst m. unfold make_marker. cbn [m_category m_shape m_color].
  destruct (classify Utility r) as [| | |name| |] eqn:Ec.
  - rewrite classify_utility in Ec.
    by destruct (filter (λ c, present c) (company_cells r)) as [|? [|? ?]].
  - rewrite classify_utility in Ec.
    by destruct (filter (λ c, present c) (company_cells r)) as [|? [|? ?]].
  - rewrite classify_utility in Ec.
    by destruct (filter (λ c, present c) (company_cells r)) as [|? [|? ?]].
  - split; [done|]. intros Hn.
    pose proof (single_company_in_comps df r name Hr Ec Hn) as Hin.
    destruct (proj2 (build_comp_color_keys df name)) as [col Hcol];
      [by right|].
    exists col. cbn [category_color]. rewrite Hcol.
    assert ((name, col) ∈ comp_color_items df) as Hitem.
    { destruct (legend_items_table_aux df) as [E Hnd].
      apply (elem_of_list_to_map _ _ _ Hnd). by rewrite E. }
    split; [reflexivity|]. split; [exact Hitem|].
    by apply legend_html_utility_contains.
  - split; [reflexivity|]. split; [reflexivity|]. unfold legend_html.
    apply contains_app_r, contains_app_l. exact (contains_end MULTI_LINE "").
  - split; [reflexivity|]. split; [reflexivity|]. unfold legend_html.
    apply contains_app_r, contains_app_r, contains_app_l.
    exact (contains_end NONE_LINE "").
Qed.

Lemma utility_marker_in_legend_witness :
  ∃ col,
    (("Acme" : string), col)
    ∈ comp_color_items (record_filter Utility [plain_row "J" [Text "Acme"] 0 0])
    ∧ contains (legend_dot "Acme" col)
        (legend_html Utility
           (record_filter Utility [plain_row "J" [Text "Acme"] 0 0])) = true.
Proof.
  pose proof (utility_marker_in_legend
                [plain_row "J" [Text "Acme"] 0 0]
                (plain_row "J" [Text "Acme"] 0 0)) as H.
  cbv zeta in H.
  assert (Hin : plain_row "J" [Text "Acme"] 0 0
                ∈ record_filter Utility [plain_row "J" [Text "Acme"] 0 0])
    by (vm_compute; left).
  specialize (H Hin).
  change (m_category _) with (SingleCompany "Acme") in H.
  destruct H as [_ H]. destruct H as (col & _ & H1 & H2).
  - vm_compute. discriminate.
  - exact (ex_intro _ col (conj H1 H2)).
Defined.

(** ** The view port *)

Lemma foldl_min_spec (t : list Z) (x : Z) :
  foldl Z.min x t ∈ x :: t ∧ Forall (λ y, foldl Z.min x t ≤ y) (x :: t).
Proof.
  revert x. induction t as [|y t IH]; intros x; simpl.
  - split; [left|]. by repeat constructor.
  - destruct (IH (Z.min x y)) as [Hin Hall].
    apply Forall_cons in Hall as [Hm Hall]. split.
    + apply elem_of_cons in Hin as [Hin|Hin]; [|by do 2 right].
      rewrite Hin. destruct (Z.min_spec x y) as [[_ ->]|[_ ->]];
        [left|right; left].
    + repeat constructor; [lia|lia|done].
Qed.

Lemma foldl_max_spec (t : list Z) (x : Z) :
  foldl Z.max x t ∈ x :: t ∧ Forall (λ y, y ≤ foldl Z.max x t) (x :: t).
Proof.
  revert x. induction t as [|y t IH]; intros x; simpl.
  - split; [left|]. by repeat constructor.
  - destruct (IH (Z.max x y)) as [Hin Hall].
    apply Forall_cons in Hall as [Hm Hall]. split.
    + apply elem_of_cons in Hin as [Hin|Hin]; [|by do 2 right].
      rewrite Hin. destruct (Z.max_spec x y) as [[_ ->]|[_ ->]];
        [right; left|left].
    + repeat constructor; [lia|lia|done].
Qed.

Lemma series_min_spec (l : list Z) :
  match series_min l with
  | None => l = []
  | Some m => m ∈ l ∧ Forall (λ y, m ≤ y) l
  end.
Proof. destruct l as [|x t]; [done|]. apply foldl_min_spec. Qed.

Lemma series_max_spec (l : list Z) :
  match series_max l with
  | None => l = []
  | Some m => m ∈ l ∧ Forall (λ y, y ≤ m) l
  end.
Proof. destruct l as [|x t]; [done|]. apply foldl_max_spec. Qed.

(** X14. The box handed to [fit_bounds] is the smallest one that holds
    the markers: every marker of the frame lies in it and each of its
    four sides goes through a marker. Only an empty frame has no box
    (its minima and maxima are NaN). *)
Theorem fit_bounds_encloses (mode : view_mode) (comp_color : gmap string string)
    (df : list row) :
  match fit_bounds df with
  | None => df = []
  | Some ((lat_min, lon_min), (lat_max, lon_max)) =>
      Forall (λ r, let '(lat, lon) := m_location (make_marker mode comp_color r) in
                   lat_min ≤ lat ≤ lat_max ∧ lon_min ≤ lon ≤ lon_max) df
      ∧ (∃ r, r ∈ df ∧ (m_location (make_marker mode comp_color r)).1 = lat_min)
      ∧ (∃ r, r ∈ df ∧ (m_location (make_marker mode comp_color r)).1 = lat_max)
      ∧ (∃ r, r ∈ df ∧ (m_location (make_marker mode comp_color r)).2 = lon_min)
      ∧ (∃ r, r ∈ df ∧ (m_location (make_marker mode comp_color r)).2 = lon_max)
  end.
Proof.
  unfold fit_bounds.
  pose proof (series_min_spec (lats df)) as Ha.
  pose proof (series_min_spec (lons df)) as Hb.
  pose proof (series_max_spec (lats df)) as Hc.
  pose proof (series_max_spec (lons df)) as Hd.
  destruct (series_min (lats df)) as [a|]; simpl;
    [|by apply fmap_nil_inv in Ha].
  destruct (series_min (lons df)) as [b|]; simpl;
    [|by apply fmap_nil_inv in Hb].
  destruct (series_max (lats df)) as [c|]; simpl;
    [|by apply fmap_nil_inv in Hc].
  destruct (series_max (lons df)) as [d|]; simpl;
    [|by apply fmap_nil_inv in Hd].
  destruct Ha as [Ha Ha'], Hb as [Hb Hb'], Hc as [Hc Hc'], Hd as [Hd Hd'].
  unfold lats, lons in *.
  rewrite Forall_fmap in Ha', Hb', Hc', Hd'.
  rewrite Forall_forall in Ha', Hb', Hc', Hd'.
  apply list_elem_of_fmap in Ha as (ra & -> & Hra).
  apply list_elem_of_fmap in Hb as (rb & -> & Hrb).
  apply list_elem_of_fmap in Hc as (rc & -> & Hrc).
  apply list_elem_of_fmap in Hd as (rd & -> & Hrd).
  split_and!; [|by exists ra|by exists rc|by exists rb|by exists rd].
  apply Forall_forall. intros r Hr. simpl.
  specialize (Ha' r Hr). specialize (Hb' r Hr).
  specialize (Hc' r Hr). specialize (Hd' r Hr). simpl in *. lia.
Qed.

(** ** The overlay merge, beyond the failure *)



(** ** The toggles of the page *)

Lemma toggle_layers_spec (hidden : bool) (group : list layer) (shown : gset nat)
    (id : nat) :
  id ∈ foldl (toggle_layer hidden) shown group
  ↔ if bool_decide (is_markup group id) then hidden = false else id ∈ shown.
Proof.
  unfold is_markup.
  revert shown. induction group as [|l group IH]; intros shown.
  - cbn [foldl]. case_bool_decide as H; [by apply Exists_nil in H|done].
  - cbn [foldl]. rewrite IH. unfold toggle_layer.
    case_bool_decide as H1; case_bool_decide as H2.
    + done.
    + exfalso. apply H2. by apply Exists_cons_tl.
    + apply Exists_cons in H2 as [[Hid Hj]|?]; [|done].
      rewrite Hj. subst id. clear IH H1.
      destruct hidden;
        rewrite ?elem_of_difference, ?elem_of_union, ?elem_of_singleton;
        intuition congruence.
    + destruct (isJobLabel l) eqn:Ej; [done|].
      assert (layer_id l ≠ id) as Hid.
      { intros Hid. apply H2. by apply Exists_cons_hd. }
      clear IH H1 H2.
      destruct hidden;
        rewrite ?elem_of_difference, ?elem_of_union, ?elem_of_singleton;
        intuition congruence.
Qed.

Lemma toggleMarkups_on_map (group : list layer) (p : page) (id : nat) :
  (is_markup group id →
   (id ∈ on_map (toggleMarkups group p)
    ↔ markupsHidden (toggleMarkups group p) = false))
  ∧ (¬ is_markup group id →
     (id ∈ on_map (toggleMarkups group p) ↔ id ∈ on_map p)).
Proof.
  unfold toggleMarkups. simpl. split.
  - intros Hex. rewrite toggle_layers_spec. by rewrite bool_decide_true.
  - intros Hex. rewrite toggle_layers_spec. by rewrite bool_decide_false.
Qed.

(** X16. [toggleMarkups] hides or shows the markups and nothing else: a
    layer of the feature group that is not a job label is on the map
    afterwards exactly when the markups are now shown; every other
    layer, the job hulls among them (their ids are those of no markup),
    is on the map afterwards exactly when it was before. The labels are
    not touched. *)
Theorem toggleMarkups_spares_hulls (group : list layer) (p : page) (id : nat) :
  (is_markup group id →
   (id ∈ on_map (toggleMarkups group p)
    ↔ markupsHidden (toggleMarkups group p) = false))
  ∧ (¬ is_markup group id →
     (id ∈ on_map (toggleMarkups group p) ↔ id ∈ on_map p))
  ∧ labelsHidden (toggleMarkups group p) = labelsHidden p
  ∧ hide_job_labels (toggleMarkups group p) = hide_job_labels p
  ∧ markupsHidden (toggleMarkups group p) = negb (markupsHidden p).
Proof.
  destruct (toggleMarkups_on_map group p id) as [H1 H2].
  by split_and!.
Qed.

Lemma toggleMarkups_spares_hulls_witness :
  2%nat ∈ on_map (toggleMarkups
                    [ {| layer_id := 1; isJobLabel := false |};
                      {| layer_id := 2; isJobLabel := true |} ]
                    (initial_page {[1%nat; 2%nat]}))
  ↔ 2%nat ∈ on_map (initial_page {[1%nat; 2%nat]}).
Proof.
  destruct (toggleMarkups_spares_hulls
              [ {| layer_id := 1; isJobLabel := false |};
                {| layer_id := 2; isJobLabel := true |} ]
              (initial_page {[1%nat; 2%nat]}) 2%nat) as (_ & H & _).
  apply H. unfold is_markup. rewrite !Exists_cons, Exists_nil. simpl.
  intros [[? _]|[[_ ?]|[]]]; discriminate.
Defined.

(** X17. The toggles undo themselves. On a page whose flags agree with
    what is shown (as on the loaded page, where every markup is on the
    map), each toggle keeps that agreement, and clicking a toggle twice
    gives the page back as it was. *)
Theorem toggles_involutive (group : list layer) (p : page) :
  page_consistent group p →
  page_consistent group (toggleMarkups group p)
  ∧ page_consistent group (toggleLabels p)
  ∧ toggleMarkups group (toggleMarkups group p) = p
  ∧ toggleLabels (toggleLabels p) = p.
Proof.
  intros [Hl Hm].
  assert (Hmk : ∀ l, l ∈ group → isJobLabel l = false →
                     is_markup group (layer_id l)).
  { intros l Hin Hj. apply Exists_exists. by exists l. }
  assert (Hc1 : page_consistent group (toggleMarkups group p)).
  { split; [done|]. intros l Hin Hj.
    destruct (toggleMarkups_on_map group p (layer_id l)) as [H _].
    by apply H, Hmk. }
  split_and!; [done| | |].
  - split; [|done]. unfold toggleLabels. simpl. by destruct (labelsHidden p).
  - destruct p as [lh mh hc shown]. unfold toggleMarkups. simpl in *.
    rewrite negb_involutive. f_equal. apply set_eq. intros id.
    rewrite !toggle_layers_spec.
    destruct (decide (is_markup group id)) as [Hex|Hex].
    + rewrite bool_decide_true by exact Hex.
      apply Exists_exists in Hex as (l & Hin & <- & Hj).
      by rewrite (Hm l Hin Hj).
    + rewrite bool_decide_false by exact Hex.
      rewrite toggle_layers_spec. by rewrite bool_decide_false.
  - destruct p as [lh mh hc shown]. unfold toggleLabels. simpl in *.
    rewrite negb_involutive. subst hc. by destruct lh.
Qed.

Lemma toggles_involutive_witness :
  toggleMarkups [ {| layer_id := 1; isJobLabel := false |};
                  {| layer_id := 2; isJobLabel := true |} ]
    (toggleMarkups [ {| layer_id := 1; isJobLabel := false |};
                     {| layer_id := 2; isJobLabel := true |} ]
       (initial_page {[1%nat; 2%nat]}))
  = initial_page {[1%nat; 2%nat]}.
Proof.
  destruct (toggles_involutive
              [ {| layer_id := 1; isJobLabel := false |};
                {| layer_id := 2; isJobLabel := true |} ]
              (initial_page {[1%nat; 2%nat]})) as (_ & _ & H & _).
  - split; [done|]. intros l Hl Hj. simpl.
    rewrite !elem_of_cons, elem_of_nil in Hl.
    destruct Hl as [->|[->|[]]]; [|discriminate]. simpl.
    split; [done|]. intros _. apply elem_of_union. left.
    by apply elem_of_singleton.
  - exact H.
Defined.

(** ** The hull as a polygon *)

(** *** The two chains in the order of the Python lists *)

Lemma StronglySorted_reverse_flip {A} (R : relation A) (l : list A) :
  StronglySorted (flip R) l → StronglySorted R (reverse l).
Proof.
  induction 1 as [|x l Hs IH Hall].
  - constructor.
  - rewrite reverse_cons. apply StronglySorted_app_2; [|done|repeat constructor].
    intros y z Hy Hz. apply list_elem_of_singleton in Hz as ->.
    rewrite Forall_forall in Hall. apply Hall. by apply elem_of_reverse.
Qed.

Lemma convex_stack_adjacent3 (st : list point) (a b c : point) :
  convex_stack st → adjacent3 (reverse st) a b c → 0 < exact_cross a b c.
Proof.
  intros Hc (l1 & l2 & E). apply (f_equal reverse) in E.
  rewrite reverse_involutive in E. subst st.
  rewrite reverse_app, !reverse_cons, <- !app_assoc in Hc. simpl in Hc.
  induction (reverse l2) as [|x k IH].
  - simpl in Hc. tauto.
  - apply IH. exact (convex_stack_tail _ _ Hc).
Qed.

Lemma all_left_adjacent_reverse (st : list point) (r a b : point) :
  all_left st r → adjacent (reverse st) a b → 0 ≤ exact_cross a b r.
Proof.
  intros Hl Hadj. apply adjacent_reverse in Hadj.
  by apply (all_left_adjacent st r a b).
Qed.

(** What the loop invariant says of the finished chain. *)
Lemma chain_inv_chain_of (lt : relation point) (pts : list point) :
  chain_inv lt (chain_stack pts) pts → chain_of lt pts (chain pts).
Proof.
  intros [Hs Hc Hl Ht Hb Hsub Hne]. unfold chain. split.
  - by apply StronglySorted_reverse_flip.
  - intros a b c. by apply convex_stack_adjacent3.
  - intros a b r Hadj Hr.
    apply (all_left_adjacent_reverse (chain_stack pts) r a b); [|done].
    by apply Hl.
  - intros q Hq. apply Hsub. by apply elem_of_reverse.
  - intros lo r Hh Hr. rewrite head_reverse in Hh. by apply Hb.
  - intros hi r Hh Hr. rewrite last_reverse in Hh. by apply Ht.
  - intros E. apply Hne. apply (f_equal reverse) in E.
    by rewrite reverse_involutive in E.
Qed.

Lemma chain_of_ext (lt : relation point) (P P' c : list point) :
  (∀ p, p ∈ P ↔ p ∈ P') → chain_of lt P c → chain_of lt P' c.
Proof.
  intros HP [Hs Ht Hl Hsub Hf Hla Hne]. split; [done|done|..].
  - intros a b r Hadj Hr. apply Hl; [done|]. by apply HP.
  - intros q Hq. by apply HP, Hsub.
  - intros lo r Hh Hr. apply Hf; [done|]. by apply HP.
  - intros hi r Hh Hr. apply Hla; [done|]. by apply HP.
  - intros E. specialize (Hne E). subst P.
    destruct P' as [|p P']; [done|].
    assert (p ∈ @nil point) as Hp by (apply HP; left).
    by apply elem_of_nil in Hp.
Qed.

Lemma lower_chain (points : list point) :
  exact_signs points →
  chain_of point_lt points (chain (sorted_set points)).
Proof.
  intros Hex. apply (chain_of_ext _ (sorted_set points)).
  - intros p. apply elem_of_sorted_set.
  - by apply chain_inv_chain_of, chain_lower_inv.
Qed.

Lemma upper_chain (points : list point) :
  exact_signs points →
  chain_of (flip point_lt) points (chain (reverse (sorted_set points))).
Proof.
  intros Hex. apply (chain_of_ext _ (reverse (sorted_set points))).
  - intros p. rewrite elem_of_reverse. apply elem_of_sorted_set.
  - by apply chain_inv_chain_of, chain_upper_inv.
Qed.

(** The shape of the hull of at least two distinct points: the lower
    chain runs from the least point [p1] to the greatest [pn], the upper
    chain back, and the hull is the two without their last points. *)
Lemma hull_shape (points : list point) :
  (2 ≤ length (sorted_set points))%nat →
  ∃ p1 pn L U,
    chain (sorted_set points) = p1 :: L ++ [pn]
    ∧ chain (reverse (sorted_set points)) = pn :: U ++ [p1]
    ∧ head (sorted_set points) = Some p1
    ∧ last (sorted_set points) = Some pn
    ∧ point_lt p1 pn
    ∧ ((3 ≤ length (sorted_set points))%nat →
       convex_hull points = p1 :: L ++ pn :: U).
Proof.
  intros Hlen.
  destruct (convex_hull_chains points Hlen)
    as (p1 & pn & tL & tU & EL & EU & HL & HU & Eh).
  pose proof (chain_stack_head (sorted_set points)) as HhL.
  pose proof (chain_stack_last (sorted_set points)) as HlL.
  rewrite EL in HhL, HlL. simpl in HhL.
  destruct tL as [|x tL _] using rev_ind; [done|].
  rewrite last_snoc in HL. injection HL as ->.
  destruct tU as [|y tU _] using rev_ind; [done|].
  rewrite last_snoc in HU. injection HU as ->.
  exists p1, pn, (reverse tL), (reverse tU).
  assert (E1 : chain (sorted_set points) = p1 :: reverse tL ++ [pn]).
  { unfold chain. rewrite EL, reverse_cons, reverse_app. done. }
  assert (E2 : chain (reverse (sorted_set points)) = pn :: reverse tU ++ [p1]).
  { unfold chain. rewrite EU, reverse_cons, reverse_app. done. }
  split_and!; try done.
  - rewrite <- HlL, app_comm_cons. by rewrite last_snoc.
  - assert (head (sorted_set points) = Some p1) as Hh.
    { rewrite <- HlL, app_comm_cons. by rewrite last_snoc. }
    assert (last (sorted_set points) = Some pn) as Hl by done.
    pose proof (sorted_set_sorted points) as Hs.
    destruct (sorted_set points) as [|x S]; [done|]. injection Hh as ->.
    inversion Hs as [|? ? _ Hall]; subst. rewrite Forall_forall in Hall.
    apply Hall. destruct S as [|y S]; [simpl in Hlen; lia|].
    rewrite last_cons_cons in Hl. by apply last_Some_elem_of.
  - intros H3. unfold convex_hull. rewrite bool_decide_false by lia.
    rewrite Eh, !reverse_app. simpl. done.
Qed.

(** *** Points on the line of an edge *)

(** Two directions that are opposite to one another: a third direction
    that turns left towards the one turns right towards the other. *)
Lemma opposite_rays (ux uy vx vy wx wy : Z) :
  (0 < ux ∨ (ux = 0 ∧ 0 < uy)) →
  (vx < 0 ∨ (vx = 0 ∧ vy < 0)) →
  ux * vy - uy * vx = 0 →
  0 < wx * uy - wy * ux → wx * vy - wy * vx < 0.
Proof.
  intros Hu Hv E H.
  assert (E' : (wx * vy - wy * vx) * ux
               = (wx * uy - wy * ux) * vx + wx * (ux * vy - uy * vx)) by ring.
  destruct Hu as [Hu|[-> Hu]].
  - assert (vx < 0) by (destruct Hv as [?|[-> ?]]; [done|nia]).
    assert ((wx * uy - wy * ux) * vx < 0) by nia.
    rewrite E in E'. nia.
  - assert (vx = 0) by nia. subst vx. assert (vy < 0) by lia. nia.
Qed.

Lemma turn_before_lt (a' a b r : point) :
  point_lt r a → point_lt a b → exact_cross a b r = 0 →
  0 < exact_cross a' a b → exact_cross a' a r < 0.
Proof.
  rewrite !point_lt_vec. unfold exact_cross. intros Hr Hb E H.
  pose proof (opposite_rays (b.1 - a.1) (b.2 - a.2) (r.1 - a.1) (r.2 - a.2)
                (a.1 - a'.1) (a.2 - a'.2)).
  lia.
Qed.

Lemma turn_after_lt (a b b' r : point) :
  point_lt a b → point_lt b r → exact_cross a b r = 0 →
  0 < exact_cross a b b' → exact_cross b b' r < 0.
Proof.
  rewrite !point_lt_vec. unfold exact_cross. intros Ha Hr E H.
  pose proof (opposite_rays (b.1 - a.1) (b.2 - a.2) (b.1 - r.1) (b.2 - r.2)
                (b.1 - b'.1) (b.2 - b'.2)).
  lia.
Qed.

Lemma turn_before_gt (a' a b r : point) :
  flip point_lt r a → flip point_lt a b → exact_cross a b r = 0 →
  0 < exact_cross a' a b → exact_cross a' a r < 0.
Proof.
  rewrite !flip_lt_vec. unfold exact_cross. intros Hr Hb E H.
  pose proof (opposite_rays (a.1 - b.1) (a.2 - b.2) (a.1 - r.1) (a.2 - r.2)
                (a'.1 - a.1) (a'.2 - a.2)).
  lia.
Qed.

Lemma turn_after_gt (a b b' r : point) :
  flip point_lt a b → flip point_lt b r → exact_cross a b r = 0 →
  0 < exact_cross a b b' → exact_cross b b' r < 0.
Proof.
  rewrite !flip_lt_vec. unfold exact_cross. intros Ha Hr E H.
  pose proof (opposite_rays (a.1 - b.1) (a.2 - b.2) (r.1 - b.1) (r.2 - b.2)
                (b'.1 - b.1) (b'.2 - b.2)).
  lia.
Qed.

(** *** A chain, for either direction of travel *)

Section ChainOf.

Variable lt : relation point.
Hypothesis lt_irrefl : ∀ a, ¬ lt a a.
Hypothesis lt_trans : ∀ a b c, lt a b → lt b c → lt a c.
Hypothesis lt_total : ∀ a b, lt a b ∨ a = b ∨ lt b a.
Hypothesis turn_before : ∀ a' a b r,
  lt r a → lt a b → exact_cross a b r = 0 → 0 < exact_cross a' a b → exact_cross a' a r < 0.
Hypothesis turn_after : ∀ a b b' r,
  lt a b → lt b r → exact_cross a b r = 0 → 0 < exact_cross a b b' → exact_cross b b' r < 0.

Lemma sorted_adjacent_lt (c : list point) (a b : point) :
  StronglySorted lt c → adjacent c a b → lt a b.
Proof.
  intros Hs (l1 & l2 & ->). apply StronglySorted_app_1_r in Hs.
  inversion Hs as [|? ? _ Hall]; subst.
  by inversion Hall.
Qed.

Lemma sorted_NoDup (c : list point) : StronglySorted lt c → NoDup c.
Proof.
  induction 1 as [|x l Hs IH Hall]; constructor; [|done].
  intros Hx. rewrite Forall_forall in Hall. by apply (lt_irrefl x), Hall.
Qed.

(** An input point on the line of an edge of the chain is on the edge. *)
Lemma edge_segment (P c : list point) (a b r : point) :
  chain_of lt P c → adjacent c a b → r ∈ P → exact_cross a b r = 0 →
  (r = a ∨ lt a r) ∧ (r = b ∨ lt r b).
Proof.
  intros Hc Hadj Hr E.
  pose proof (sorted_adjacent_lt c a b (chain_sorted _ _ _ Hc) Hadj) as Hab.
  destruct Hadj as (l1 & l2 & Ec). split.
  - destruct (lt_total r a) as [Hlt|[?|?]]; [|by left|by right].
    exfalso. destruct l1 as [|a' l1 _] using rev_ind.
    + destruct (chain_first _ _ _ Hc a r) as [->|Hlt']; [by rewrite Ec|done|..].
      * by apply (lt_irrefl a).
      * by apply (lt_irrefl a), (lt_trans a r a).
    + assert (0 < exact_cross a' a b) as Ht.
      { apply (chain_turns _ _ _ Hc). exists l1, l2.
        by rewrite Ec, <- app_assoc. }
      assert (0 ≤ exact_cross a' a r) as Hl.
      { apply (chain_left _ _ _ Hc); [|done]. exists l1, (b :: l2).
        by rewrite Ec, <- app_assoc. }
      pose proof (turn_before a' a b r Hlt Hab E Ht). lia.
  - destruct (lt_total r b) as [Hlt|[?|Hlt]]; [by right|by left|].
    exfalso. destruct l2 as [|b' l2].
    + destruct (chain_last _ _ _ Hc b r) as [->|Hlt']; [|done|..].
      * rewrite Ec. change (a :: [b]) with ([a] ++ [b]).
        by rewrite app_assoc, last_snoc.
      * by apply (lt_irrefl b).
      * by apply (lt_irrefl b), (lt_trans b r b).
    + assert (0 < exact_cross a b b') as Ht.
      { apply (chain_turns _ _ _ Hc). by exists l1, l2. }
      assert (0 ≤ exact_cross b b' r) as Hl.
      { apply (chain_left _ _ _ Hc); [|done]. exists (l1 ++ [a]), l2.
        by rewrite Ec, <- app_assoc. }
      pose proof (turn_after a b b' r Hab Hlt E Ht). lia.
Qed.

(** The chain is determined by the points: two chains that both have the
    properties above, from a common start, are one chain. *)
Lemma chain_of_unique_from (P : list point) (t1 : list point) :
  ∀ (l : list point) (q : point) (t2 : list point),
    chain_of lt P (l ++ q :: t1) → chain_of lt P (l ++ q :: t2) → t1 = t2.
Proof.
  induction t1 as [|a t1 IH]; intros l q t2 H1 H2.
  - destruct t2 as [|b t2]; [done|]. exfalso.
    assert (lt q b) as Hqb.
    { apply (sorted_adjacent_lt _ _ _ (chain_sorted _ _ _ H2)).
      by exists l, t2. }
    assert (b ∈ P) as Hb.
    { apply (chain_sub _ _ _ H2). rewrite elem_of_app, !elem_of_cons. tauto. }
    destruct (chain_last _ _ _ H1 q b) as [->|Hlt]; [by rewrite last_snoc|done|..].
    + by apply (lt_irrefl q).
    + by apply (lt_irrefl q), (lt_trans q b q).
  - destruct t2 as [|b t2].
    + exfalso.
      assert (lt q a) as Hqa.
      { apply (sorted_adjacent_lt _ _ _ (chain_sorted _ _ _ H1)).
        by exists l, t1. }
      assert (a ∈ P) as Ha.
      { apply (chain_sub _ _ _ H1). rewrite elem_of_app, !elem_of_cons. tauto. }
      destruct (chain_last _ _ _ H2 q a) as [->|Hlt];
        [by rewrite last_snoc|done|..].
      * by apply (lt_irrefl q).
      * by apply (lt_irrefl q), (lt_trans q a q).
    + assert (a ∈ P) as Ha.
      { apply (chain_sub _ _ _ H1). rewrite elem_of_app, !elem_of_cons. tauto. }
      assert (b ∈ P) as Hb.
      { apply (chain_sub _ _ _ H2). rewrite elem_of_app, !elem_of_cons. tauto. }
      assert (adjacent (l ++ q :: a :: t1) q a) as A1 by (by exists l, t1).
      assert (adjacent (l ++ q :: b :: t2) q b) as A2 by (by exists l, t2).
      pose proof (chain_left _ _ _ H1 q a b A1 Hb) as L1.
      pose proof (chain_left _ _ _ H2 q b a A2 Ha) as L2.
      assert (exact_cross q a b = 0 ∧ exact_cross q b a = 0) as [E1 E2].
      { revert L1 L2. unfold exact_cross. lia. }
      destruct (edge_segment _ _ _ _ _ H1 A1 Hb E1) as [_ [Eba|Hba]];
        destruct (edge_segment _ _ _ _ _ H2 A2 Ha E2) as [_ [Eab|Hab]];
        try (exfalso; by apply (lt_irrefl a), (lt_trans a b a)).
      * subst b. f_equal.
        apply (IH (l ++ [q]) a t2); by rewrite <- app_assoc.
      * subst b. f_equal.
        apply (IH (l ++ [q]) a t2); by rewrite <- app_assoc.
      * subst b. f_equal.
        apply (IH (l ++ [q]) a t2); by rewrite <- app_assoc.
Qed.

Lemma chain_of_unique (P c1 c2 : list point) :
  chain_of lt P c1 → chain_of lt P c2 → c1 = c2.
Proof.
  intros H1 H2. destruct c1 as [|x c1], c2 as [|y c2]; [done|..].
  - pose proof (chain_nonempty _ _ _ H1 eq_refl) as ->.
    assert (y ∈ @nil point) as Hy by (apply (chain_sub _ _ _ H2); left).
    by apply elem_of_nil in Hy.
  - pose proof (chain_nonempty _ _ _ H2 eq_refl) as ->.
    assert (x ∈ @nil point) as Hx by (apply (chain_sub _ _ _ H1); left).
    by apply elem_of_nil in Hx.
  - assert (x ∈ P) as Hx by (apply (chain_sub _ _ _ H1); left).
    assert (y ∈ P) as Hy by (apply (chain_sub _ _ _ H2); left).
    destruct (chain_first _ _ _ H1 x y eq_refl Hy) as [Exy|Hxy];
      destruct (chain_first _ _ _ H2 y x eq_refl Hx) as [Eyx|Hyx];
      try (exfalso; by apply (lt_irrefl x), (lt_trans x y x)).
    + subst y. f_equal. by apply (chain_of_unique_from P c1 [] x c2).
    + subst y. f_equal. by apply (chain_of_unique_from P c1 [] x c2).
    + subst y. f_equal. by apply (chain_of_unique_from P c1 [] x c2).
Qed.

End ChainOf.

Lemma flip_lt_irrefl (a : point) : ¬ flip point_lt a a.
Proof. apply point_lt_irrefl. Qed.

Lemma flip_lt_trans (a b c : point) :
  flip point_lt a b → flip point_lt b c → flip point_lt a c.
Proof. intros H1 H2. exact (point_lt_trans _ _ _ H2 H1). Qed.

Lemma flip_lt_total (a b : point) :
  flip point_lt a b ∨ a = b ∨ flip point_lt b a.
Proof. destruct (point_lt_total a b) as [?|[?|?]]; eauto. Qed.

Lemma edge_segment_lt (P c : list point) (a b r : point) :
  chain_of point_lt P c → adjacent c a b → r ∈ P → exact_cross a b r = 0 →
  (r = a ∨ point_lt a r) ∧ (r = b ∨ point_lt r b).
Proof.
  apply edge_segment;
    eauto using point_lt_irrefl, point_lt_trans, point_lt_total,
      turn_before_lt, turn_after_lt.
Qed.

Lemma edge_segment_gt (P c : list point) (a b r : point) :
  chain_of (flip point_lt) P c → adjacent c a b → r ∈ P → exact_cross a b r = 0 →
  (r = a ∨ point_lt r a) ∧ (r = b ∨ point_lt b r).
Proof.
  apply (edge_segment (flip point_lt));
    eauto using flip_lt_irrefl, flip_lt_trans, flip_lt_total,
      turn_before_gt, turn_after_gt.
Qed.

Lemma chain_of_unique_lt (P c1 c2 : list point) :
  chain_of point_lt P c1 → chain_of point_lt P c2 → c1 = c2.
Proof.
  apply chain_of_unique;
    eauto using point_lt_irrefl, point_lt_trans, point_lt_total,
      turn_before_lt, turn_after_lt.
Qed.

Lemma chain_of_unique_gt (P c1 c2 : list point) :
  chain_of (flip point_lt) P c1 → chain_of (flip point_lt) P c2 → c1 = c2.
Proof.
  apply (chain_of_unique (flip point_lt));
    eauto using flip_lt_irrefl, flip_lt_trans, flip_lt_total,
      turn_before_gt, turn_after_gt.
Qed.

(** *** Where the two chains meet *)

Section Junction.

Variable lt : relation point.
Hypothesis lt_irrefl : ∀ a, ¬ lt a a.
Hypothesis lt_trans : ∀ a b c, lt a b → lt b c → lt a c.
Hypothesis seg_lt : ∀ P c a b r,
  chain_of lt P c → adjacent c a b → r ∈ P → exact_cross a b r = 0 →
  (r = a ∨ lt a r) ∧ (r = b ∨ lt r b).
Hypothesis seg_gt : ∀ P c a b r,
  chain_of (flip lt) P c → adjacent c a b → r ∈ P → exact_cross a b r = 0 →
  (r = a ∨ lt r a) ∧ (r = b ∨ lt b r).

(** The turn from the last edge of one chain to the first edge of the
    other is a strict left turn, unless both chains are the one segment. *)
Lemma junction_turn (P : list point) (lo hi : point) (A B : list point)
    (a c : point) :
  chain_of lt P (lo :: A ++ [hi]) → chain_of (flip lt) P (hi :: B ++ [lo]) →
  ¬ (A = [] ∧ B = []) →
  last (lo :: A) = Some a → head (B ++ [lo]) = Some c →
  0 < exact_cross a hi c.
Proof.
  intros HL HU Hne Ha Hc.
  apply last_Some in Ha as [X EX].
  destruct (B ++ [lo]) as [|c' Y] eqn:EY; [done|]. injection Hc as ->.
  assert (adjacent (lo :: A ++ [hi]) a hi) as AL.
  { exists X, []. by rewrite app_comm_cons, EX, <- app_assoc. }
  assert (adjacent (hi :: c :: Y) hi c) as AU by (by exists [], Y).
  assert (a ∈ P) as HaP.
  { apply (chain_sub _ _ _ HL). rewrite app_comm_cons, EX.
    rewrite !elem_of_app, list_elem_of_singleton. tauto. }
  assert (c ∈ P) as HcP.
  { apply (chain_sub _ _ _ HU). right. left. }
  pose proof (chain_left _ _ _ HL a hi c AL HcP) as Hge.
  destruct (decide (exact_cross a hi c = 0)) as [E|]; [exfalso|lia].
  assert (exact_cross hi c a = 0) as E' by (revert E; unfold exact_cross; lia).
  destruct (seg_lt _ _ _ _ _ HL AL HcP E) as [Hac _].
  destruct (seg_gt _ _ _ _ _ HU AU HaP E') as [_ Hca].
  assert (a = c) as <-.
  { destruct Hac as [?|Hac]; [done|]. destruct Hca as [?|Hca]; [done|].
    exfalso. by apply (lt_irrefl a), (lt_trans a c a). }
  destruct X as [|a' X _] using rev_ind.
  - simpl in EX. injection EX as <- ->.
    destruct B as [|b B]; [tauto|]. simpl in EY. injection EY as -> EY.
    pose proof (chain_sorted _ _ _ HU) as Hs.
    inversion Hs as [|? ? Hs' _]; subst.
    inversion Hs' as [|? ? _ Hall]; subst. rewrite Forall_forall in Hall.
    apply (lt_irrefl lo). apply Hall.
    rewrite elem_of_app, list_elem_of_singleton. tauto.
  - assert (0 < exact_cross a' a hi) as Ht.
    { apply (chain_turns _ _ _ HL). exists X, [].
      by rewrite app_comm_cons, EX, <- !app_assoc. }
    assert (a' ∈ P) as Ha'.
    { apply (chain_sub _ _ _ HL). rewrite app_comm_cons, EX.
      rewrite !elem_of_app, !list_elem_of_singleton. tauto. }
    pose proof (chain_left _ _ _ HU hi a a' AU Ha') as Hl.
    revert Ht Hl. unfold exact_cross. lia.
Qed.

End Junction.

Lemma junction_turn_hi (P : list point) (lo hi : point) (A B : list point)
    (a c : point) :
  chain_of point_lt P (lo :: A ++ [hi]) →
  chain_of (flip point_lt) P (hi :: B ++ [lo]) →
  ¬ (A = [] ∧ B = []) →
  last (lo :: A) = Some a → head (B ++ [lo]) = Some c →
  0 < exact_cross a hi c.
Proof.
  apply (junction_turn point_lt);
    eauto using point_lt_irrefl, point_lt_trans, edge_segment_lt,
      edge_segment_gt.
Qed.

Lemma junction_turn_lo (P : list point) (lo hi : point) (A B : list point)
    (a c : point) :
  chain_of point_lt P (lo :: A ++ [hi]) →
  chain_of (flip point_lt) P (hi :: B ++ [lo]) →
  ¬ (A = [] ∧ B = []) →
  last (hi :: B) = Some a → head (A ++ [hi]) = Some c →
  0 < exact_cross a lo c.
Proof.
  intros HL HU Hne.
  apply (junction_turn (flip point_lt) flip_lt_irrefl flip_lt_trans
           edge_segment_gt edge_segment_lt P hi lo B A a c); [done|done|tauto].
Qed.

(** *** Consecutive triples *)

Lemma adjacent3_adjacent_l (l : list point) (a b c : point) :
  adjacent3 l a b c → adjacent l a b.
Proof. intros (l1 & l2 & ->). by exists l1, (c :: l2). Qed.

Lemma adjacent3_adjacent_r (l : list point) (a b c : point) :
  adjacent3 l a b c → adjacent l b c.
Proof.
  intros (l1 & l2 & ->). exists (l1 ++ [a]), l2. by rewrite <- app_assoc.
Qed.

Lemma adjacent3_cons (x : point) (l : list point) (a b c : point) :
  adjacent3 l a b c → adjacent3 (x :: l) a b c.
Proof. intros (l1 & l2 & ->). by exists (x :: l1), l2. Qed.

(** A point inside a list has a neighbour on each side. *)
Lemma interior_adjacent3 (x y q : point) (l : list point) :
  q ∈ l → ∃ a b, adjacent3 (x :: l ++ [y]) a q b.
Proof.
  intros Hq. apply list_elem_of_split in Hq as (l1 & l2 & ->).
  assert (∃ b Y, l2 ++ [y] = b :: Y) as (b & Y & EY).
  { destruct l2 as [|b l2]; simpl; eauto. }
  destruct l1 as [|a l1 _] using rev_ind.
  - exists x, b, [], Y. simpl. by rewrite <- EY.
  - exists a, b, (x :: l1), Y.
    rewrite <- EY. simpl. by rewrite <- !app_assoc.
Qed.

Lemma adjacent3_split (A X : list point) (x a b c : point) :
  adjacent3 (A ++ x :: X) a b c →
  adjacent3 (A ++ [x]) a b c
  ∨ (last A = Some a ∧ b = x ∧ head X = Some c)
  ∨ adjacent3 (x :: X) a b c.
Proof.
  induction A as [|y A IH]; intros (l1 & l2 & E).
  - right. right. by exists l1, l2.
  - destruct l1 as [|z l1].
    + simpl in E. injection E as -> E.
      destruct A as [|y' A]; simpl in E.
      * injection E as -> ->. right. left. done.
      * injection E as -> E. left.
        destruct A as [|y'' A]; simpl in E.
        -- injection E as -> _. by exists [], [].
        -- injection E as -> _. by exists [], (A ++ [x]).
    + simpl in E. injection E as -> E.
      destruct IH as [IH|[(Hl & -> & Hh)|IH]]; [by exists l1, l2|..].
      * left. by apply adjacent3_cons.
      * right. left. split_and!; [|done|done].
        destruct A; [done|]. by rewrite last_cons_cons.
      * by right; right.
Qed.

Lemma lookup_adjacent3 (l : list point) (i : nat) (a b c : point) :
  l !! i = Some a → l !! S i = Some b → l !! S (S i) = Some c →
  adjacent3 l a b c.
Proof.
  revert l. induction i as [|i IH]; intros l Ha Hb Hc.
  - destruct l as [|? [|? [|? l]]]; simplify_eq/=. by exists [], l.
  - destruct l as [|x l]; [done|]. apply adjacent3_cons. by apply IH.
Qed.

(** Three consecutive vertices of the closed polygon are consecutive in
    the list followed by its first two elements. *)
Lemma cyclic_adjacent3 (h : list point) (i : nat) (a b c : point) :
  (2 ≤ length h)%nat →
  h !! i = Some a → h !! (S i mod length h)%nat = Some b →
  h !! (S (S i) mod length h)%nat = Some c →
  adjacent3 (h ++ take 2 h) a b c.
Proof.
  intros Hlen Ha Hb Hc. pose proof (lookup_lt_Some _ _ _ Ha) as Hi.
  apply (lookup_adjacent3 _ i).
  - by apply lookup_app_l_Some.
  - destruct (decide (S i < length h)%nat) as [Hlt|Hge].
    + rewrite Nat.mod_small in Hb by done. by apply lookup_app_l_Some.
    + assert (S i = length h) as E by lia.
      rewrite E, Nat.Div0.mod_same in Hb.
      rewrite E, lookup_app_r, Nat.sub_diag by lia.
      rewrite lookup_take_lt by lia. done.
  - destruct (decide (S (S i) < length h)%nat) as [Hlt|Hge].
    + rewrite Nat.mod_small in Hc by done. by apply lookup_app_l_Some.
    + destruct (decide (S (S i) = length h)) as [E|Hne].
      * rewrite E, Nat.Div0.mod_same in Hc.
        rewrite E, lookup_app_r, Nat.sub_diag by lia.
        rewrite lookup_take_lt by lia. done.
      * assert (S (S i) = length h + 1)%nat as E by lia.
        assert ((length h + 1) mod length h = 1)%nat as Em.
        { rewrite Nat.Div0.add_mod, Nat.Div0.mod_same by lia. simpl.
          rewrite Nat.Div0.mod_mod. apply Nat.mod_small. lia. }
        rewrite E, Em in Hc.
        rewrite E, lookup_app_r by lia.
        replace (length h + 1 - length h)%nat with 1%nat by lia.
        rewrite lookup_take_lt by lia. done.
Qed.

(** *** The parts of the hull *)

Lemma hull_parts (points : list point) :
  exact_signs points →
  (3 ≤ length (sorted_set points))%nat →
  ∃ lo hi L U,
    convex_hull points = lo :: L ++ hi :: U
    ∧ chain_of point_lt points (lo :: L ++ [hi])
    ∧ chain_of (flip point_lt) points (hi :: U ++ [lo])
    ∧ point_lt lo hi.
Proof.
  intros Hex Hlen.
  destruct (hull_shape points) as (lo & hi & L & U & EL & EU & _ & _ & Hlt & Eh);
    [lia|].
  exists lo, hi, L, U. split_and!; [by apply Eh| | |done].
  - rewrite <- EL. by apply lower_chain.
  - rewrite <- EU. by apply upper_chain.
Qed.

(** No vertex is on both chains, the end points apart. *)
Lemma chains_disjoint (P : list point) (lo hi : point) (L U : list point)
    (q : point) :
  chain_of point_lt P (lo :: L ++ [hi]) →
  chain_of (flip point_lt) P (hi :: U ++ [lo]) →
  q ∈ L → q ∈ U → False.
Proof.
  intros HL HU HqL HqU.
  destruct (interior_adjacent3 lo hi q L HqL) as (a & b & AL).
  destruct (interior_adjacent3 hi lo q U HqU) as (c & d & AU).
  pose proof (chain_turns _ _ _ HL _ _ _ AL) as Ht.
  pose proof (adjacent3_adjacent_l _ _ _ _ AL) as Aaq.
  pose proof (adjacent3_adjacent_r _ _ _ _ AL) as Aqb.
  pose proof (adjacent3_adjacent_l _ _ _ _ AU) as Acq.
  assert (a ∈ P) as Ha.
  { apply (chain_sub _ _ _ HL). destruct Aaq as (l1 & l2 & ->).
    rewrite elem_of_app, !elem_of_cons. tauto. }
  assert (c ∈ P) as Hc.
  { apply (chain_sub _ _ _ HU). destruct Acq as (l1 & l2 & ->).
    rewrite elem_of_app, !elem_of_cons. tauto. }
  pose proof (chain_left _ _ _ HL _ _ c Aaq Hc) as H1.
  pose proof (chain_left _ _ _ HL _ _ c Aqb Hc) as H2.
  pose proof (chain_left _ _ _ HU _ _ a Acq Ha) as H3.
  assert (exact_cross a q c = 0) as E by (revert H1 H3; unfold exact_cross; lia).
  assert (point_lt a q) as Haq.
  { apply (sorted_adjacent_lt point_lt _ _ _ (chain_sorted _ _ _ HL) Aaq). }
  assert (point_lt q c) as Hqc.
  { apply (sorted_adjacent_lt (flip point_lt) _ _ _ (chain_sorted _ _ _ HU) Acq). }
  pose proof (turn_after_lt a q b c Haq Hqc E Ht). lia.
Qed.

(** *** Points on one line *)

Lemma parallel_cross (ux uy ax ay bx bY : Z) :
  (ux ≠ 0 ∨ uy ≠ 0) → ux * ay - uy * ax = 0 → ux * bY - uy * bx = 0 →
  ax * bY - ay * bx = 0.
Proof.
  intros Hu Ha Hb.
  assert (ux * (ax * bY - ay * bx) = 0) as E1.
  { replace (ux * (ax * bY - ay * bx))
      with (ax * (ux * bY - uy * bx) - bx * (ux * ay - uy * ax)) by ring.
    rewrite Ha, Hb. ring. }
  assert (uy * (ax * bY - ay * bx) = 0) as E2.
  { replace (uy * (ax * bY - ay * bx))
      with (ay * (ux * bY - uy * bx) - bY * (ux * ay - uy * ax)) by ring.
    rewrite Ha, Hb. ring. }
  apply Z.mul_eq_0 in E1, E2. tauto.
Qed.

(** Points that are all on the line through two distinct points are on
    one line. *)
Lemma on_line_collinear (o d : point) (points : list point) :
  o ≠ d → (∀ r, r ∈ points → exact_cross o d r = 0) → collinear points.
Proof.
  intros Hne Hline a b c Ha Hb Hc.
  pose proof (Hline a Ha) as Ea. pose proof (Hline b Hb) as Eb.
  pose proof (Hline c Hc) as Ec.
  assert (d.1 - o.1 ≠ 0 ∨ d.2 - o.2 ≠ 0) as Hu.
  { destruct o as [o1 o2], d as [d1 d2]. simpl.
    destruct (decide (d1 = o1)) as [->|]; [|lia].
    destruct (decide (d2 = o2)) as [->|]; [|lia]. done. }
  unfold exact_cross in *.
  pose proof (parallel_cross _ _ _ _ _ _ Hu Ea Eb).
  pose proof (parallel_cross _ _ _ _ _ _ Hu Ea Ec).
  pose proof (parallel_cross _ _ _ _ _ _ Hu Eb Ec).
  lia.
Qed.

Lemma few_points_collinear (points : list point) :
  (length (sorted_set points) ≤ 2)%nat → collinear points.
Proof.
  intros Hlen a b c Ha Hb Hc.
  apply elem_of_sorted_set in Ha, Hb, Hc.
  destruct (sorted_set points) as [|x [|y [|? ?]]]; [..|simpl in Hlen; lia].
  - by apply elem_of_nil in Ha.
  - apply list_elem_of_singleton in Ha, Hb, Hc. subst. apply cross_same_l.
  - rewrite !elem_of_cons, elem_of_nil in Ha.
    rewrite !elem_of_cons, elem_of_nil in Hb.
    rewrite !elem_of_cons, elem_of_nil in Hc.
    destruct Ha as [->|[->|[]]], Hb as [->|[->|[]]], Hc as [->|[->|[]]];
      by rewrite ?cross_same_l, ?cross_same_r, ?cross_same_lr.
Qed.

Lemma segment_collinear (P : list point) (lo hi : point) :
  chain_of point_lt P [lo; hi] → chain_of (flip point_lt) P [hi; lo] →
  collinear P.
Proof.
  intros HL HU. apply (on_line_collinear lo hi).
  - intros ->. pose proof (chain_sorted _ _ _ HL) as Hs.
    inversion Hs as [|? ? _ Hall]; subst. inversion Hall; subst.
    by apply (point_lt_irrefl hi).
  - intros r Hr.
    assert (0 ≤ exact_cross lo hi r) as H1.
    { apply (chain_left _ _ _ HL); [|done]. by exists [], []. }
    assert (0 ≤ exact_cross hi lo r) as H2.
    { apply (chain_left _ _ _ HU); [|done]. by exists [], []. }
    revert H1 H2. unfold exact_cross. lia.
Qed.

(** A chain through points of one line is the one segment. *)
Lemma collinear_chain_flat (lt : relation point) (P : list point)
    (lo hi : point) (L : list point) :
  collinear P → chain_of lt P (lo :: L ++ [hi]) → L = [].
Proof.
  intros Hcol HL. destruct L as [|x L]; [done|]. exfalso.
  destruct (interior_adjacent3 lo hi x (x :: L)) as (a & b & A3); [left|].
  pose proof (chain_turns _ _ _ HL _ _ _ A3) as Ht.
  destruct A3 as (l1 & l2 & E).
  rewrite (Hcol a x b) in Ht; [lia|..]; apply (chain_sub _ _ _ HL);
    rewrite E, elem_of_app, !elem_of_cons; tauto.
Qed.

(** *** The hull as a whole *)

Lemma convex_hull_small (points : list point) :
  (length (sorted_set points) < 3)%nat →
  convex_hull points = sorted_set points.
Proof. intros H. unfold convex_hull. by rewrite bool_decide_true. Qed.

Lemma hull_NoDup (points : list point) :
  exact_signs points → NoDup (convex_hull points).
Proof.
  intros Hex.
  destruct (decide (length (sorted_set points) < 3)%nat) as [Hlt|Hge].
  { rewrite convex_hull_small by done. apply NoDup_sorted_set. }
  destruct (hull_parts points Hex) as (lo & hi & L & U & -> & HL & HU & Hlt);
    [lia|].
  pose proof (sorted_NoDup point_lt point_lt_irrefl _ (chain_sorted _ _ _ HL))
    as NL.
  pose proof (sorted_NoDup (flip point_lt) flip_lt_irrefl _
                (chain_sorted _ _ _ HU)) as NU.
  apply NoDup_cons in NL as [NL1 NL]. apply NoDup_cons in NU as [NU1 NU].
  apply NoDup_app in NL as (NL & NL2 & _).
  apply NoDup_app in NU as (NU & NU2 & _).
  rewrite elem_of_app, list_elem_of_singleton in NL1, NU1.
  apply NoDup_cons. split.
  - rewrite elem_of_app, elem_of_cons. intros [?|[->|HU']]; [tauto| |].
    + by apply (point_lt_irrefl hi).
    + apply (NU2 lo HU'). left.
  - apply NoDup_app. split_and!; [done| |].
    + intros q HqL. rewrite elem_of_cons. intros [->|HqU].
      * apply (NL2 hi HqL). left.
      * exact (chains_disjoint _ _ _ _ _ _ HL HU HqL HqU).
    + apply NoDup_cons. split; [tauto|done].
Qed.

Lemma hull_collinear_iff (points : list point) :
  exact_signs points →
  collinear points ↔ (length (convex_hull points) ≤ 2)%nat.
Proof.
  intros Hex.
  destruct (decide (length (sorted_set points) < 3)%nat) as [Hlt|Hge].
  { rewrite convex_hull_small by done. split; [lia|].
    intros _. apply few_points_collinear. lia. }
  destruct (hull_parts points Hex) as (lo & hi & L & U & -> & HL & HU & Hlt);
    [lia|].
  split.
  - intros Hcol.
    rewrite (collinear_chain_flat _ _ _ _ _ Hcol HL).
    rewrite (collinear_chain_flat _ _ _ _ _ Hcol HU). simpl. lia.
  - intros Hlen. simpl in Hlen. rewrite length_app in Hlen. simpl in Hlen.
    destruct L as [|? ?]; [|simpl in Hlen; lia].
    destruct U as [|? ?]; [|simpl in Hlen; lia].
    by apply (segment_collinear _ lo hi).
Qed.

Lemma hull_not_collinear (points : list point) :
  exact_signs points → ¬ collinear points →
  ∃ lo hi L U,
    convex_hull points = lo :: L ++ hi :: U
    ∧ chain_of point_lt points (lo :: L ++ [hi])
    ∧ chain_of (flip point_lt) points (hi :: U ++ [lo])
    ∧ ¬ (L = [] ∧ U = []).
Proof.
  intros Hex Hcol.
  destruct (decide (length (sorted_set points) < 3)%nat) as [Hlt|Hge].
  { exfalso. apply Hcol, few_points_collinear. lia. }
  destruct (hull_parts points Hex) as (lo & hi & L & U & Eh & HL & HU & Hlt);
    [lia|].
  exists lo, hi, L, U. split_and!; [done..|].
  intros [-> ->]. apply Hcol. by apply (segment_collinear _ lo hi).
Qed.

Lemma hull_turns (P : list point) (lo hi : point) (L U : list point) :
  chain_of point_lt P (lo :: L ++ [hi]) →
  chain_of (flip point_lt) P (hi :: U ++ [lo]) →
  ¬ (L = [] ∧ U = []) →
  strictly_convex (lo :: L ++ hi :: U).
Proof.
  intros HL HU Hne i a b c Ha Hb Hc.
  assert (2 ≤ length (lo :: L ++ hi :: U))%nat as Hlen.
  { simpl. rewrite length_app. simpl. lia. }
  pose proof (cyclic_adjacent3 _ _ _ _ _ Hlen Ha Hb Hc) as A3.
  clear Ha Hb Hc Hlen i.
  assert (∃ y, take 2 (lo :: L ++ hi :: U) = [lo; y]
               ∧ head (L ++ [hi]) = Some y) as (y & Ey & Hy).
  { destruct L as [|x L]; simpl; eauto. }
  rewrite Ey in A3. clear Ey.
  replace ((lo :: L ++ hi :: U) ++ [lo; y])
    with ((lo :: L) ++ hi :: (U ++ [lo; y])) in A3
    by (simpl; by rewrite <- app_assoc).
  apply adjacent3_split in A3 as [A3|[(Hl & -> & Hh)|A3]].
  - by apply (chain_turns _ _ _ HL).
  - apply (junction_turn_hi P lo hi L U a c); [done..|].
    destruct U; simpl in *; done.
  - replace (hi :: U ++ [lo; y]) with ((hi :: U) ++ lo :: [y]) in A3 by done.
    apply adjacent3_split in A3 as [A3|[(Hl & -> & Hh)|A3]].
    + by apply (chain_turns _ _ _ HU).
    + simpl in Hh. injection Hh as <-.
      by apply (junction_turn_lo P lo hi L U a y).
    + destruct A3 as (l1 & l2 & E). apply (f_equal length) in E.
      rewrite length_app in E. simpl in E. lia.
Qed.

Lemma sorted_set_fixed (points : list point) :
  sorted_set (sorted_set points) = sorted_set points.
Proof. by apply sorted_set_unique; [apply sorted_set_sorted|]. Qed.

Lemma chain_of_restrict (lt : relation point) (P P' c : list point) :
  chain_of lt P c → c ≠ [] →
  (∀ p, p ∈ P' → p ∈ P) → (∀ q, q ∈ c → q ∈ P') → chain_of lt P' c.
Proof.
  intros [Hs Ht Hl Hsub Hf Hla Hne] Hc HP Hc'. split; [done|done|..|done].
  - intros a b r Hadj Hr. apply Hl; [done|]. by apply HP.
  - done.
  - intros lo r Hh Hr. apply Hf; [done|]. by apply HP.
  - intros hi r Hh Hr. apply Hla; [done|]. by apply HP.
Qed.

Lemma sorted_set_head_least (points : list point) (h0 r : point) :
  head (sorted_set points) = Some h0 → r ∈ points → point_le h0 r.
Proof.
  intros Hh Hr. apply elem_of_sorted_set in Hr.
  pose proof (sorted_set_sorted points) as Hs.
  destruct (sorted_set points) as [|x S]; [done|]. injection Hh as ->.
  inversion Hs as [|? ? _ Hall]; subst. rewrite Forall_forall in Hall.
  apply elem_of_cons in Hr as [->|Hr].
  - unfold point_le. lia.
  - specialize (Hall r Hr). unfold point_lt, point_le in *. lia.
Qed.

Lemma hull_head (points : list point) :
  head (convex_hull points) = head (sorted_set points).
Proof.
  destruct (decide (length (sorted_set points) < 3)%nat) as [Hlt|Hge].
  { by rewrite convex_hull_small. }
  destruct (hull_shape points) as (lo & hi & L & U & _ & _ & Hh & _ & _ & Eh);
    [lia|].
  rewrite Eh by lia. by rewrite Hh.
Qed.

(** ** Further properties of [convex_hull] *)

(** X18. On input points of which every three give a rounded cross
    product with the sign of the exact one, [convex_hull] returns no
    point twice: the two chains share their end points only,
    and each end point is kept once. (Rounding can break this: a point
    can stay on both chains.) *)
Theorem convex_hull_no_repeats (points : list point) :
  exact_signs points → NoDup (convex_hull points).
Proof. apply hull_NoDup. Qed.

Lemma convex_hull_no_repeats_witness :
  NoDup (convex_hull [pt 0 0; pt 2 0; pt 1 1; pt 2 2; pt 0 2; pt 1 0]).
Proof.
  apply (convex_hull_no_repeats
           [pt 0 0; pt 2 0; pt 1 1; pt 2 2; pt 0 2; pt 1 0]).
  apply (bool_decide_unpack _). vm_compute. exact I.
Defined.

(** X19. On input points that are not all on one line and of which
    every three give a rounded cross product with the sign of the exact
    one, [convex_hull] returns at least 3 vertices in
    counter-clockwise order with no three consecutive vertices on a
    line: every three vertices that follow one another, around the
    closing edge too, make a strict left turn. *)
Theorem convex_hull_counterclockwise (points : list point) :
  exact_signs points → ¬ collinear points →
  (3 ≤ length (convex_hull points))%nat
  ∧ strictly_convex (convex_hull points).
Proof.
  intros Hex Hcol.
  destruct (hull_not_collinear points Hex Hcol)
    as (lo & hi & L & U & -> & HL & HU & Hne).
  split.
  - simpl. rewrite length_app. simpl.
    destruct L, U; simpl; try lia. tauto.
  - by apply (hull_turns points).
Qed.

Lemma convex_hull_counterclockwise_witness :
  (3 ≤ length
         (convex_hull [pt 0 0; pt 2 0; pt 1 1; pt 2 2; pt 0 2; pt 1 0]))%nat
  ∧ strictly_convex
      (convex_hull [pt 0 0; pt 2 0; pt 1 1; pt 2 2; pt 0 2; pt 1 0]).
Proof.
  apply (convex_hull_counterclockwise
           [pt 0 0; pt 2 0; pt 1 1; pt 2 2; pt 0 2; pt 1 0]).
  - apply (bool_decide_unpack _). vm_compute. exact I.
  - intros H.
    assert (exact_cross (pt 0 0) (pt 2 0) (pt 2 2) = 0) as E
      by (apply H; rewrite !elem_of_cons; tauto).
    vm_compute in E. discriminate E.
Defined.

(** X20. On input points that are all on one line, at least two of them
    distinct, and of which every three give a rounded cross product
    with the sign of the exact one, [convex_hull] returns the
    two end points of the segment they span and nothing else, however
    many points there are: the result is not a polygon. *)
Theorem convex_hull_of_collinear (points : list point) (lo hi : point) :
  exact_signs points →
  collinear points → lo ∈ points → hi ∈ points → lo ≠ hi →
  (∀ r, r ∈ points → point_le lo r ∧ point_le r hi) →
  convex_hull points = [lo; hi].
Proof.
  intros Hex Hcol Hlo Hhi Hne Hbound.
  assert (2 ≤ length (sorted_set points))%nat as Hlen.
  { apply elem_of_sorted_set in Hlo, Hhi.
    destruct (sorted_set points) as [|x [|y S]]; [..|simpl; lia].
    - by apply elem_of_nil in Hlo.
    - apply list_elem_of_singleton in Hlo, Hhi. congruence. }
  destruct (hull_shape points Hlen)
    as (p1 & pn & L & U & EL & EU & Hh & Hl & Hlt & Eh).
  pose proof (lower_chain points Hex) as HL. rewrite EL in HL.
  pose proof (upper_chain points Hex) as HU. rewrite EU in HU.
  assert (p1 = lo) as ->.
  { destruct (chain_first _ _ _ HL p1 lo eq_refl Hlo) as [?|Hlt']; [done|].
    assert (p1 ∈ points) as Hp by (apply (chain_sub _ _ _ HL); left).
    destruct (Hbound p1 Hp) as [Hle _].
    revert Hlt' Hle. unfold point_lt, point_le. lia. }
  assert (pn = hi) as ->.
  { destruct (chain_first _ _ _ HU pn hi eq_refl Hhi) as [?|Hlt']; [done|].
    assert (pn ∈ points) as Hp by (apply (chain_sub _ _ _ HU); left).
    destruct (Hbound pn Hp) as [_ Hle].
    revert Hlt' Hle. unfold flip, point_lt, point_le. lia. }
  pose proof (collinear_chain_flat _ _ _ _ _ Hcol HL) as ->.
  pose proof (collinear_chain_flat _ _ _ _ _ Hcol HU) as ->.
  destruct (decide (length (sorted_set points) < 3)%nat) as [Hlt3|Hge].
  - rewrite convex_hull_small by done.
    destruct (sorted_set points) as [|x [|y [|? ?]]];
      simpl in Hlen, Hlt3; try lia.
    simpl in Hh, Hl. by injection Hh as ->; injection Hl as ->.
  - apply Eh. lia.
Qed.

Lemma convex_hull_of_collinear_witness :
  convex_hull [pt 1 1; pt 3 3; pt 0 0; pt 2 2] = [pt 0 0; pt 3 3].
Proof.
  apply (convex_hull_of_collinear [pt 1 1; pt 3 3; pt 0 0; pt 2 2]
           (pt 0 0) (pt 3 3)).
  - apply (bool_decide_unpack _). vm_compute. exact I.
  - intros a b c Ha Hb Hc.
    rewrite !elem_of_cons, elem_of_nil in Ha.
    rewrite !elem_of_cons, elem_of_nil in Hb.
    rewrite !elem_of_cons, elem_of_nil in Hc.
    destruct Ha as [->|[->|[->|[->|[]]]]], Hb as [->|[->|[->|[->|[]]]]],
      Hc as [->|[->|[->|[->|[]]]]]; reflexivity.
  - rewrite !elem_of_cons. tauto.
  - rewrite !elem_of_cons. tauto.
  - discriminate.
  - intros r Hr. rewrite !elem_of_cons, elem_of_nil in Hr.
    destruct Hr as [->|[->|[->|[->|[]]]]]; unfold point_le; vm_compute;
      intuition congruence.
Defined.

(** X21. On input points of which every three give a rounded cross
    product with the sign of the exact one, [convex_hull] is
    idempotent: the hull of the returned vertices is the returned list
    itself, in the same order. *)
Theorem convex_hull_idempotent (points : list point) :
  exact_signs points →
  convex_hull (convex_hull points) = convex_hull points.
Proof.
  intros Hex.
  destruct (decide (length (sorted_set points) < 3)%nat) as [Hlt|Hge].
  { rewrite (convex_hull_small points) by done.
    rewrite (convex_hull_small (sorted_set points));
      [apply sorted_set_fixed|by rewrite sorted_set_fixed]. }
  pose proof (hull_NoDup points Hex) as Hnd.
  assert (exact_signs (convex_hull points)) as Hex'.
  { apply (exact_signs_subseteq points); [|done].
    intros p. apply convex_hull_subset. }
  destruct (hull_parts points Hex) as (lo & hi & L & U & Eh & HL & HU & Hlt);
    [lia|].
  rewrite Eh in Hnd, Hex' |- *. set (H := lo :: L ++ hi :: U) in *.
  assert (length (sorted_set H) = length H) as Elen.
  { rewrite length_sorted_set. unfold distinct_count.
    by apply size_list_to_set. }
  destruct (decide (L = [] ∧ U = [])) as [[-> ->]|Hne].
  - subst H. simpl in *. rewrite convex_hull_small by (rewrite Elen; lia).
    apply sorted_set_unique; [|done].
    apply SSorted_cons; [apply SSorted_cons; constructor|].
    by apply Forall_singleton.
  - assert (3 ≤ length H)%nat as H3.
    { subst H. simpl. rewrite length_app. simpl.
      destruct L, U; simpl; try lia. tauto. }
    destruct (hull_parts H Hex')
      as (lo' & hi' & L' & U' & Eh' & HL' & HU' & _); [lia|].
    assert (chain_of point_lt H (lo :: L ++ [hi])) as HL2.
    { apply (chain_of_restrict _ points); [done|done|..].
      - intros p Hp. rewrite <- Eh in Hp. by apply convex_hull_subset in Hp.
      - intros q. subst H.
        rewrite !elem_of_cons, !elem_of_app, !elem_of_cons, elem_of_nil.
        tauto. }
    assert (chain_of (flip point_lt) H (hi :: U ++ [lo])) as HU2.
    { apply (chain_of_restrict _ points); [done|done|..].
      - intros p Hp. rewrite <- Eh in Hp. by apply convex_hull_subset in Hp.
      - intros q. subst H.
        rewrite !elem_of_cons, !elem_of_app, !elem_of_cons, elem_of_nil.
        tauto. }
    pose proof (chain_of_unique_lt _ _ _ HL' HL2) as EL.
    pose proof (chain_of_unique_gt _ _ _ HU' HU2) as EU.
    injection EL as -> EL. injection EU as _ EU.
    apply app_inj_tail in EL as [-> ->]. apply app_inj_tail in EU as [-> _].
    done.
Qed.

Lemma convex_hull_idempotent_witness :
  convex_hull (convex_hull [pt 0 0; pt 2 0; pt 1 1; pt 2 2; pt 0 2; pt 1 0])
  = convex_hull [pt 0 0; pt 2 0; pt 1 1; pt 2 2; pt 0 2; pt 1 0].
Proof.
  apply (convex_hull_idempotent
           [pt 0 0; pt 2 0; pt 1 1; pt 2 2; pt 0 2; pt 1 0]).
  apply (bool_decide_unpack _). vm_compute. exact I.
Defined.

(** X22. The list that [convex_hull] returns for a non-empty input
    starts at the least input point in the order of Python tuples (least
    first coordinate, then least second coordinate). *)
Theorem convex_hull_starts_at_least (points : list point) :
  points ≠ [] →
  ∃ h0 rest, convex_hull points = h0 :: rest
    ∧ h0 ∈ points ∧ ∀ r, r ∈ points → point_le h0 r.
Proof.
  intros Hne. pose proof (hull_head points) as Hh.
  destruct (convex_hull points) as [|h0 rest] eqn:E.
  { exfalso. revert E. by apply convex_hull_nonempty. }
  exists h0, rest. split; [done|]. simpl in Hh. split.
  - apply convex_hull_subset. rewrite E. left.
  - intros r Hr. by apply (sorted_set_head_least points).
Qed.

Lemma convex_hull_starts_at_least_witness :
  ∃ h0 rest, convex_hull [(2,0); (0,3); (0,1); (1,1)] = h0 :: rest
    ∧ h0 ∈ [(2,0); (0,3); (0,1); (1,1)]
    ∧ ∀ r, r ∈ [(2,0); (0,3); (0,1); (1,1)] → point_le h0 r.
Proof.
  apply (convex_hull_starts_at_least [(2,0); (0,3); (0,1); (1,1)]).
  discriminate.
Defined.

(** ** Further properties of the hull loop of [build_map] *)

Lemma hull_labels_sublist (df : list row) (feats : list hull_feature) :
  hull_features df = Some feats → label <$> feats `sublist_of` job_names df.
Proof.
  unfold hull_features. intros H.
  apply fmap_Some in H as (ks & Hks & ->). apply mapM_Some in Hks.
  induction Hks as [|job k jobs ks Hjob _ IH]; [done|].
  simpl. rewrite fmap_app.
  destruct (job_hull_spec df job) as [[_ E]|[_ (h0 & _ & E)]];
    rewrite E in Hjob; injection Hjob as <-; simpl.
  - by apply sublist_cons.
  - by apply sublist_skip.
Qed.

Lemma StronglySorted_sublist {A} (R : relation A) (l k : list A) :
  l `sublist_of` k → StronglySorted R k → StronglySorted R l.
Proof.
  induction 1 as [|x l k Hsub IH|x l k Hsub IH]; intros Hs.
  - constructor.
  - inversion Hs as [|? ? Hs' Hall]; subst. constructor; [by apply IH|].
    rewrite Forall_forall in Hall |- *. intros y Hy. apply Hall.
    by apply (sublist_subseteq _ _ Hsub).
  - inversion Hs as [|? ? Hs' Hall]; subst. by apply IH.
Qed.

Lemma job_names_sorted (df : list row) : StronglySorted str_lt (job_names df).
Proof.
  assert (H : ∀ l, StronglySorted String.le l → NoDup l →
                   StronglySorted str_lt l).
  { induction 1 as [|x l Hs IH Hall]; intros Hnd; constructor.
    - apply IH. by inversion Hnd.
    - apply Forall_forall. intros y Hy. rewrite Forall_forall in Hall.
      split; [by apply Hall|]. intros ->. by inversion Hnd. }
  apply H; [|apply NoDup_job_names].
  unfold job_names. apply StronglySorted_merge_sort; apply _.
Qed.

Lemma job_names_perm (df df' : list row) :
  df ≡ₚ df' → job_names df = job_names df'.
Proof.
  intros Hp. unfold job_names. do 2 f_equal.
  apply list_to_set_perm_L. by rewrite Hp.
Qed.

Lemma job_hull_perm (df df' : list row) (job : string) :
  df ≡ₚ df' → job_hull df job = job_hull df' job.
Proof.
  intros Hp. unfold job_hull.
  assert (lon_lat <$> group df job ≡ₚ lon_lat <$> group df' job) as Hg.
  { unfold group. by rewrite Hp. }
  rewrite (Permutation_length Hg).
  rewrite (convex_hull_ext _ (lon_lat <$> group df' job)); [done|].
  intros p. by rewrite Hg.
Qed.

(** X23. The ring of every feature of the hull loop is closed: it is
    the hull of the points of the job followed by its first vertex.
    Where the rounded cross product has the sign of the exact one on
    the points of the job, the ring has no other repeated position, and
    it has fewer than 4 positions exactly when the points of the job are
    all on one line (one point repeated included): a job of three or
    more rows on one line still gets a feature, whose ring is then no
    polygon ring. *)
Theorem hull_ring_shape (df : list row) (feats : list hull_feature)
    (f : hull_feature) :
  hull_features df = Some feats → f ∈ feats →
  ∃ h0 h,
    ring f = (h0 :: h) ++ [h0]
    ∧ h0 :: h = convex_hull (job_points df (label f))
    ∧ (exact_signs (job_points df (label f)) →
       NoDup (h0 :: h)
       ∧ (collinear (job_points df (label f))
          ↔ (length (ring f) ≤ 3)%nat)).
Proof.
  intros Hf Hin.
  apply (hull_features_spec df feats f Hf) in Hin as (Hlen & h0 & Hh & Hring).
  pose proof (hull_NoDup (job_points df (label f))) as Hnd.
  pose proof (hull_collinear_iff (job_points df (label f))) as Hiff.
  destruct (convex_hull (job_points df (label f))) as [|x h]; [done|].
  injection Hh as ->. exists h0, h. split_and!; [done|done|].
  intros Hex. split; [by apply Hnd|].
  rewrite (Hiff Hex), Hring, length_app. simpl. lia.
Qed.

Lemma hull_ring_shape_witness :
  ∃ h0 h,
    [pt 0 0; pt 2 2; pt 0 0] = (h0 :: h) ++ [h0]
    ∧ h0 :: h
      = convex_hull
          (job_points [plain_row "J" [] 0 0; plain_row "J" [] 1 1;
                       plain_row "J" [] 2 2] "J")
    ∧ (exact_signs
         (job_points [plain_row "J" [] 0 0; plain_row "J" [] 1 1;
                      plain_row "J" [] 2 2] "J") →
       NoDup (h0 :: h)
       ∧ (collinear
            (job_points [plain_row "J" [] 0 0; plain_row "J" [] 1 1;
                         plain_row "J" [] 2 2] "J")
          ↔ (length [pt 0 0; pt 2 2; pt 0 0] ≤ 3)%nat)).
Proof.
  apply (hull_ring_shape
           [plain_row "J" [] 0 0; plain_row "J" [] 1 1; plain_row "J" [] 2 2]
           [ {| label := "J"; ring := [pt 0 0; pt 2 2; pt 0 0] |} ]
           {| label := "J"; ring := [pt 0 0; pt 2 2; pt 0 0] |}).
  - vm_compute. reflexivity.
  - left.
Defined.

(** X24. The features of the hull loop come in ascending order of their
    job names, whatever the order of the rows: the groups are visited
    in key order and the groups that are skipped leave no gap. *)
Theorem hull_features_in_key_order (df : list row)
    (feats : list hull_feature) :
  hull_features df = Some feats → StronglySorted str_lt (label <$> feats).
Proof.
  intros Hf. apply (StronglySorted_sublist _ _ (job_names df)).
  - by apply hull_labels_sublist.
  - apply job_names_sorted.
Qed.

Lemma hull_features_in_key_order_witness :
  StronglySorted str_lt
    (label <$> [ {| label := "A"; ring := [pt 5 5; pt 6 5; pt 5 6; pt 5 5] |};
                 {| label := "C"; ring := [pt 0 0; pt 1 0; pt 0 1; pt 0 0] |} ]).
Proof.
  apply (hull_features_in_key_order
           [plain_row "C" [] 0 0; plain_row "A" [] 5 5; plain_row "B" [] 9 9;
            plain_row "C" [] 1 0; plain_row "A" [] 6 5; plain_row "C" [] 0 1;
            plain_row "A" [] 5 6]).
  vm_compute. reflexivity.
Defined.

(** X25. The features of the hull loop do not depend on the order of the
    rows of the data: a permutation of the rows gives the same features
    in the same order. *)
Theorem hull_features_row_order (df df' : list row) :
  df ≡ₚ df' → hull_features df = hull_features df'.
Proof.
  intros Hp. unfold hull_features.
  rewrite (job_names_perm df df' Hp). f_equal.
  apply mapM_ext. intros job. by apply job_hull_perm.
Qed.

Lemma hull_features_row_order_witness :
  hull_features [plain_row "J" [] 0 0; plain_row "J" [] 1 0;
                 plain_row "J" [] 0 1]
  = hull_features [plain_row "J" [] 1 0; plain_row "J" [] 0 0;
                   plain_row "J" [] 0 1].
Proof.
  apply (hull_features_row_order
           [plain_row "J" [] 0 0; plain_row "J" [] 1 0; plain_row "J" [] 0 1]
           [plain_row "J" [] 1 0; plain_row "J" [] 0 0; plain_row "J" [] 0 1]).
  apply perm_swap.
Defined.

(** ** Further properties of the marker loop of [build_map] *)

Lemma style_keys_exact (s c : string) :
  STYLE_COLORS !! s = Some c → strip s = s.
Proof.
  intros E. apply elem_of_list_to_map_2 in E.
  rewrite !elem_of_cons, elem_of_nil in E.
  destruct E as [E|[E|[E|[E|[E|[E|[]]]]]]]; injection E as -> ->; reflexivity.
Qed.

(** X26. In the MR view the level is looked up as it is written: blanks
    are stripped for the test that a cell has a value, not for the
    lookup of its style. A row without warnings whose first level cell
    with a value has blanks around its text, a known level included, is
    drawn as a circle in the colour of a missing level. *)
Theorem mr_padded_level_is_missing (comp_color : gmap string string)
    (r : row) :
  filter (λ c, present c) (warning_cells r) = [] →
  strip (first_val (level_cells r)) ≠ first_val (level_cells r) →
  m_category (make_marker MR comp_color r) = MissingLevel
  ∧ m_color (make_marker MR comp_color r) = Some MISSING_COLOR
  ∧ m_shape (make_marker MR comp_color r) = Circle.
Proof.
  intros Hw Hpad. unfold make_marker. cbn [m_category m_color m_shape].
  unfold classify. rewrite Hw. rewrite bool_decide_false by (intros ?; done).
  destruct (STYLE_COLORS !! first_val (level_cells r)) as [c|] eqn:E.
  - exfalso. apply Hpad. by apply (style_keys_exact _ c).
  - done.
Qed.

Lemma mr_padded_level_is_missing_witness :
  m_category
    (make_marker MR ∅
       {| job_name := Text "J"; node_type := Text "pole"; scid := Text "1";
          latitude := Some (whole 7); longitude := Some (whole 5);
          level_cells := [NaN; Text "No MR "]; cost_cells := [Text "100"];
          warning_cells := [Text " "]; company_cells := [] |})
  = MissingLevel.
Proof.
  apply (mr_padded_level_is_missing ∅
           {| job_name := Text "J"; node_type := Text "pole"; scid := Text "1";
              latitude := Some (whole 7); longitude := Some (whole 5);
              level_cells := [NaN; Text "No MR "]; cost_cells := [Text "100"];
              warning_cells := [Text " "]; company_cells := [] |}).
  - reflexivity.
  - vm_compute. discriminate.
Defined.

(** X27. The two views share nothing but the position and the SCID of a
    row: a marker of the MR view does not depend on the company cells or
    on the colour table, and a marker of the Utility view does not
    depend on the job name, the levels, the costs or the warnings. *)
Theorem marker_views_separate (cc cc' : gmap string string) (r r' : row) :
  scid r = scid r' → latitude r = latitude r' → longitude r = longitude r' →
  (job_name r = job_name r' → level_cells r = level_cells r' →
   cost_cells r = cost_cells r' → warning_cells r = warning_cells r' →
   make_marker MR cc r = make_marker MR cc' r')
  ∧ (company_cells r = company_cells r' →
     make_marker Utility cc r = make_marker Utility cc r').
Proof.
  intros Hs Hla Hlo. split.
  - intros Hj Hl Hc Hw. unfold make_marker, classify, tooltip.
    rewrite Hs, Hla, Hlo, Hj, Hl, Hc, Hw.
    case_bool_decide; [done|].
    by destruct (STYLE_COLORS !! first_val (level_cells r')).
  - intros Hco. unfold make_marker, classify, tooltip, companies, raw_comps.
    by rewrite Hs, Hla, Hlo, Hco.
Qed.

Lemma marker_views_separate_witness :
  make_marker Utility ∅ (plain_row "J1" [Text "AEP"] 5 7)
  = make_marker Utility ∅
      {| job_name := Text "J2"; node_type := Text "pole"; scid := Text "1";
         latitude := Some (whole 7); longitude := Some (whole 5);
         level_cells := [Text "Comm MR"]; cost_cells := [];
         warning_cells := [Text "low clearance"];
         company_cells := [Text "AEP"] |}.
Proof.
  apply (marker_views_separate ∅ ∅ (plain_row "J1" [Text "AEP"] 5 7)
           {| job_name := Text "J2"; node_type := Text "pole"; scid := Text "1";
              latitude := Some (whole 7); longitude := Some (whole 5);
              level_cells := [Text "Comm MR"]; cost_cells := [];
              warning_cells := [Text "low clearance"];
              company_cells := [Text "AEP"] |});
    reflexivity.
Defined.

(** X28. The hull loop never raises and is decided by the number of
    rows: on every frame it ends with a list of features ([hull[0]] at
    line 183 always finds a vertex), and a job has a feature, and only
    one, exactly when the frame has at least 3 rows of that job. So a
    job with at least 3 distinct coordinate pairs has a feature, and so
    has a job of 3 rows at fewer distinct pairs. Every position of a
    ring is the position of a row of the job. *)
Theorem hull_loop_by_row_count (df : list row) :
  ∃ feats, hull_features df = Some feats
    ∧ (∀ job, (∃ f, f ∈ feats ∧ label f = job)
              ↔ (3 ≤ length (group df job))%nat)
    ∧ (∀ job, (3 ≤ distinct_count (job_points df job))%nat →
              ∃ f, f ∈ feats ∧ label f = job)
    ∧ NoDup (label <$> feats)
    ∧ (∀ f p, f ∈ feats → p ∈ ring f → p ∈ job_points df (label f)).
Proof.
  destruct (hull_features_total df) as [feats Hf]. exists feats.
  assert (Hiff : ∀ job, (∃ f, f ∈ feats ∧ label f = job)
                        ↔ (3 ≤ length (group df job))%nat).
  { intros job. split.
    - intros (f & Hin & <-).
      by apply (hull_features_spec df feats f Hf) in Hin as [? _].
    - intros Hlen.
      destruct (job_hull_spec df job) as [[Hlt _]|[_ (h0 & Hh & E)]]; [lia|].
      exists {| label := job; ring := convex_hull (job_points df job) ++ [h0] |}.
      split; [|done]. apply (hull_features_spec df feats _ Hf). simpl. eauto. }
  split_and!; [done|done| |by eapply hull_features_labels|].
  - intros job Hd. apply Hiff.
    pose proof (distinct_count_le_length (job_points df job)) as Hle.
    unfold job_points in Hle at 2. rewrite length_fmap in Hle. lia.
  - intros f p Hin.
    apply (hull_features_spec df feats f Hf) in Hin as (Hlen & h0 & Hh & Hring).
    rewrite Hring, elem_of_app. intros [Hp|Hp].
    + by apply convex_hull_subset.
    + apply list_elem_of_singleton in Hp as ->.
      apply convex_hull_subset. by apply head_Some_elem_of.
Qed.

Lemma hull_loop_by_row_count_witness :
  ∃ feats,
    hull_features
      [plain_row "J1" [] 10 10; plain_row "J1" [] 11 10;
       plain_row "J1" [] 10 11; plain_row "J2" [] 0 0]
    = Some feats
    ∧ (∃ f, f ∈ feats ∧ label f = "J1")
    ∧ ¬ (∃ f, f ∈ feats ∧ label f = "J2").
Proof.
  destruct (hull_loop_by_row_count
              [plain_row "J1" [] 10 10; plain_row "J1" [] 11 10;
               plain_row "J1" [] 10 11; plain_row "J2" [] 0 0])
    as (feats & Hf & Hiff & _).
  exists feats. split; [exact Hf|]. split.
  - apply Hiff. vm_compute. lia.
  - intros H. apply Hiff in H. vm_compute in H. lia.
Defined.
